(** * Grid localisation with a hidden Markov model: matrix layer and engine

    Shallow embedding of [src/06-HiddenMarkovModels/Matrix.py] (class
    [Matrix]) and [src/PA6/HMM.py] (class [HMM]).

    Numbers.  The Python code computes with binary64 floats inside numpy
    arrays.  Here every number is an exact rational of type [Qc]: rounding
    is not modelled, and a quotient by zero is [0] (as [Qcdiv] has it) where
    numpy yields [nan] or [inf].  General statements that read a quotient
    therefore carry the hypothesis that the divisor is not zero, and the
    runs evaluated on the corridor grid never divide by zero: a zero divisor
    would leave a column of zeros, and every column they leave has a
    non-zero entry.  The arrays of the engine hold floats.  An array that
    [Matrix(0, 0, source)] builds from a source of integers holds 64-bit
    integers; it is an array of the same numbers here, and a statement
    that depends on the cast or on the range of such an array says so.

    Exceptions.  A Python call either returns or raises; operations are
    functions into [result].  Methods of the engine mutate [self], so they
    run in a state-and-exception monad in which the state reached before a
    [raise] is kept.

    Output.  The [print] calls scattered through [HMM.py] and the method
    [HMM.print] write text and change nothing; they are left out. *)

From Stdlib Require Import QArith Qcanon Ascii String.
From stdpp Require Import base numbers list gmap strings.

Bind Scope Qc_scope with Qc.

(** ** Exceptions *)

Inductive exn : Type :=
  | ValueError
  | IndexError
  | KeyError
  | ZeroDivisionError
  | TypeError.

Inductive result (A : Type) : Type :=
  | Ok (a : A)
  | Raise (e : exn).
Arguments Ok {A} a.
Arguments Raise {A} e.

Global Instance result_ret : MRet result := λ A a, Ok a.
Global Instance result_bind : MBind result := λ A B k r,
  match r with
  | Ok a => k a
  | Raise e => Raise e
  end.
Global Instance result_fmap : FMap result := λ A B f r,
  match r with
  | Ok a => Ok (f a)
  | Raise e => Raise e
  end.

(** Sum of a list of numbers, as [ndarray.sum] computes it in exact
    arithmetic. *)
Definition sumQc (l : list Qc) : Qc := foldr Qcplus 0%Qc l.

(** ** The class [Matrix] *)

Module Matrix.

(** A [Matrix] object: the attributes [rows] and [cols], read off
    [data.shape] by [__init__], and the two-dimensional array [data], one
    inner list per row. *)
Record matrix : Type := mk {
  rows : nat;
  cols : nat;
  data : list (list Qc)
}.

(** [np.zeros((r, c))], [np.ones((r, c))], [np.full((r, c), v)]. *)
Definition np_full (r c : nat) (v : Qc) : list (list Qc) :=
  replicate r (replicate c v).

(** [Matrix(rows, cols)] without a source array: both dimensions must be
    truthy, that is non-zero. *)
Definition new (r c : nat) : result matrix :=
  if decide (r ≠ 0 ∧ c ≠ 0) then Ok (mk r c (np_full r c 0))
  else Raise ValueError.

(** [Matrix.zeros(r, c)], [Matrix.ones(r, c)], [Matrix.full(r, c, v)]: built
    through [Matrix(0, 0, source)], which accepts any shape. *)
Definition zeros (r c : nat) : matrix := mk r c (np_full r c 0).
Definition ones (r c : nat) : matrix := mk r c (np_full r c 1).
Definition full (r c : nat) (v : Qc) : matrix := mk r c (np_full r c v).

(** [Matrix.copy(m)]: a new object over a copy of the array. *)
Definition copy (m : matrix) : matrix := mk (rows m) (cols m) (data m).

(** [m[row, col]]; numpy raises [IndexError] out of range. *)
Definition getitem (m : matrix) (row col : nat) : result Qc :=
  match data m !! row with
  | Some r =>
      match r !! col with
      | Some v => Ok v
      | None => Raise IndexError
      end
  | None => Raise IndexError
  end.

(** [m[row, col] = value]: in-place write, [IndexError] out of range.  The
    value is stored as it is given, as an array of floats stores it; every
    array of the engine is one. *)
Definition setitem (m : matrix) (row col : nat) (value : Qc) : result matrix :=
  match data m !! row with
  | Some r =>
      if decide (col < length r)%nat
      then Ok (mk (rows m) (cols m) (<[row := <[col := value]> r]> (data m)))
      else Raise IndexError
  | None => Raise IndexError
  end.

(** Entry read with a default, for statements about arrays. *)
Definition entry (m : matrix) (i j : nat) : Qc :=
  default 0%Qc (data m !! i ≫= (.!! j)).

(** Column [j] of an array, top to bottom. *)
Definition column (d : list (list Qc)) (j : nat) : list Qc :=
  (λ r, default 0%Qc (r !! j)) <$> d.

(** Inner product of two vectors of the same length. *)
Definition dot (u v : list Qc) : Qc := sumQc (zip_with Qcmult u v).

(** [np.dot(a, b)] on two-dimensional arrays of shapes [(n, k)] and
    [(k', p)]: the matrix product, [ValueError] when [k ≠ k']. *)
Definition np_dot (a b : matrix) : result matrix :=
  if decide (cols a = rows b)
  then Ok (mk (rows a) (cols b)
              ((λ r, (λ j, dot r (column (data b) j)) <$> seq 0 (cols b))
                 <$> data a))
  else Raise ValueError.

(** [a * b] for a [Matrix] operand [b] ([__mul__]).  The branch for a 1 x 1
    operand hands the arrays to [np.dot] unchecked; the other branch checks
    the shapes first.  Both end in [np.dot]. *)
Definition mul (a b : matrix) : result matrix :=
  if decide (cols b = 1 ∧ rows b = 1) then np_dot a b
  else if decide (cols a ≠ rows b) then Raise ValueError
  else np_dot a b.

(** [m.transpose()]. *)
Definition transpose (m : matrix) : matrix :=
  mk (cols m) (rows m) ((λ j, column (data m) j) <$> seq 0 (cols m)).

(** numpy broadcasting of two dimensions: equal, or one of them is 1. *)
Definition broadcast_dim (n1 n2 : nat) : result nat :=
  if decide (n1 = n2) then Ok n1
  else if decide (n1 = 1) then Ok n2
  else if decide (n2 = 1) then Ok n1
  else Raise ValueError.

(** Entry [(i, j)] of an array stretched to a broadcast shape. *)
Definition bentry (m : matrix) (i j : nat) : Qc :=
  entry m (if decide (rows m = 1) then 0%nat else i)
          (if decide (cols m = 1) then 0%nat else j).

(** An elementwise binary numpy operation with broadcasting. *)
Definition np_elementwise (f : Qc → Qc → Qc) (a b : matrix) : result matrix :=
  r ← broadcast_dim (rows a) (rows b);
  c ← broadcast_dim (cols a) (cols b);
  Ok (mk r c ((λ i, (λ j, f (bentry a i j) (bentry b i j)) <$> seq 0 c)
                <$> seq 0 r)).

(** [Matrix.multiply(m1, m2)] on two matrices: elementwise product. *)
Definition multiply (m1 m2 : matrix) : result matrix :=
  np_elementwise Qcmult m1 m2.

(** [matrix.data.sum(axis=0, keepdims=True)]: one row of column sums. *)
Definition sum_axis0 (m : matrix) : list Qc :=
  (λ j, sumQc (column (data m) j)) <$> seq 0 (cols m).

(** [Matrix.normalize(matrix)] with the default [axis=0]: every entry is
    divided by the sum of its column; [data] is rebound, [rows] and [cols]
    stay.  A column whose sum is zero comes out as zeros here and as [nan]
    or [inf] in numpy: what is stated about the entries of a column assumes
    or proves that its sum is not zero. *)
Definition normalize (m : matrix) : matrix :=
  mk (rows m) (cols m)
     ((λ r, zip_with Qcdiv r (sum_axis0 m)) <$> data m).

(** The array of a matrix has the shape its attributes announce. *)
Record shaped (m : matrix) (r c : nat) : Prop := {
  sh_rows : rows m = r;
  sh_cols : cols m = c;
  sh_len : length (data m) = r;
  sh_row : ∀ i row, data m !! i = Some row → length row = c
}.

(** The sum of column [j]. *)
Definition colsum (m : matrix) (j : nat) : Qc := sumQc (column (data m) j).

(** The sum of all entries, [m.data.sum()]. *)
Definition mass (m : matrix) : Qc := sumQc (sumQc <$> data m).

(** What [np.identity] is handed: an integer, or a tuple of integers. *)
Inductive np_arg : Type :=
  | ArgInt (n : nat)
  | ArgTuple (t : list nat).

(** The [n] x [n] array with ones on the diagonal. *)
Definition np_eye (n : nat) : list (list Qc) :=
  (λ i, (λ j, if decide (i = j) then 1%Qc else 0%Qc) <$> seq 0 n) <$> seq 0 n.

(** [np.identity(n)]: [n] must be an integer; numpy builds the array with
    [zeros((n, n))], which rejects a tuple in place of a dimension with
    [TypeError]. *)
Definition np_identity (n : np_arg) : result matrix :=
  match n with
  | ArgInt k => Ok (mk k k (np_eye k))
  | ArgTuple _ => Raise TypeError
  end.

(** [Matrix.identity], declared with a starred parameter [dims]: [dims] is
    the tuple of the arguments, and it is that tuple which is passed on to
    [np.identity]. *)
Definition identity (dims : list nat) : result matrix :=
  np_identity (ArgTuple dims).

End Matrix.

(** ** The grid *)

(** Modelled from the spec: the class [Maze] imported by [HMM.py] (grid
    parsing, cell lookup and the linear index of traversable cells) is not
    among the sources.  The engine uses the attributes and methods below;
    [get_char] gives [None] off the grid, ['#'] marks a wall, and [index]
    is read only at traversable cells. *)
Record Maze : Type := mkMaze {
  width : nat;
  height : nat;
  get_char : Z → Z → option ascii;
  index : Z → Z → nat;
  count_positions : nat;
  colors : list ascii;
  color_count : nat
}.

Definition wall : ascii := "#"%char.

(** The guard [c is not None and c != '#']. *)
Definition open_char (c : option ascii) : bool :=
  match c with
  | Some a => bool_decide (a ≠ wall)
  | None => false
  end.

Definition traversable (mz : Maze) (x y : Z) : Prop :=
  open_char (get_char mz x y) = true.

Global Instance traversable_dec mz x y : Decision (traversable mz x y) :=
  decide (open_char (get_char mz x y) = true).

(** Modelled from the spec: what the spec's GridModel promises about the
    absent [Maze]: traversable cells lie on the grid, [index] is a bijection
    from them onto [0 .. count_positions - 1], every traversable cell carries
    a colour of the alphabet, and [color_count] is the size of the
    alphabet. *)
Record maze_wf (mz : Maze) : Prop := {
  wf_bounds : ∀ x y, traversable mz x y →
    (0 ≤ x < Z.of_nat (width mz))%Z ∧ (0 ≤ y < Z.of_nat (height mz))%Z;
  wf_index_lt : ∀ x y, traversable mz x y →
    (index mz x y < count_positions mz)%nat;
  wf_index_inj : ∀ x y x' y', traversable mz x y → traversable mz x' y' →
    index mz x y = index mz x' y' → x = x' ∧ y = y';
  wf_index_surj : ∀ i, (i < count_positions mz)%nat →
    ∃ x y, traversable mz x y ∧ index mz x y = i;
  wf_colors_nodup : NoDup (colors mz);
  wf_cell_color : ∀ x y c, get_char mz x y = Some c → c ≠ wall →
    c ∈ colors mz;
  wf_color_count : color_count mz = length (colors mz)
}.

(** ** The class [HMM] *)

Module HMM.
Import Matrix.

Definition CORRECT_COLOR : Qc := Q2Qc (88 # 100).
Definition WRONG_COLOR : Qc := (1 - CORRECT_COLOR)%Qc.
Definition MOVE_PROBABILITY : Qc := (1 / Q2Qc 4)%Qc.
Definition NORTH_PROBABILITY : Qc := MOVE_PROBABILITY.
Definition SOUTH_PROBABILITY : Qc := MOVE_PROBABILITY.
Definition EAST_PROBABILITY : Qc := MOVE_PROBABILITY.
Definition WEST_PROBABILITY : Qc := MOVE_PROBABILITY.

(** The attributes of an engine object. *)
Record hmm : Type := mkHmm {
  maze : Maze;
  total_positions : nat;
  sensor_probabilities : gmap ascii matrix;
  transitions : matrix;
  position_distribution : matrix;
  steps : list matrix
}.

(** Methods: a function of [self] giving the outcome and [self] afterwards;
    after [Raise] the state is the one reached when the exception left. *)
Definition engine (A : Type) : Type := hmm → result A * hmm.

Global Instance engine_ret : MRet engine := λ A a self, (Ok a, self).
Global Instance engine_bind : MBind engine := λ A B k m self,
  match m self with
  | (Ok a, self') => k a self'
  | (Raise e, self') => (Raise e, self')
  end.

Definition lift {A} (r : result A) : engine A := λ self, (r, self).
Definition get_self : engine hmm := λ self, (Ok self, self).

(** Attribute assignment. *)
Definition with_sensor (sp : gmap ascii matrix) (s : hmm) : hmm :=
  mkHmm (maze s) (total_positions s) sp (transitions s)
        (position_distribution s) (steps s).
Definition with_transitions (t : matrix) (s : hmm) : hmm :=
  mkHmm (maze s) (total_positions s) (sensor_probabilities s) t
        (position_distribution s) (steps s).
Definition with_position_distribution (p : matrix) (s : hmm) : hmm :=
  mkHmm (maze s) (total_positions s) (sensor_probabilities s)
        (transitions s) p (steps s).
Definition with_steps (l : list matrix) (s : hmm) : hmm :=
  mkHmm (maze s) (total_positions s) (sensor_probabilities s)
        (transitions s) (position_distribution s) l.

Definition set_sensor (sp : gmap ascii matrix) : engine unit :=
  λ s, (Ok (), with_sensor sp s).
Definition set_transitions (t : matrix) : engine unit :=
  λ s, (Ok (), with_transitions t s).
Definition set_position_distribution (p : matrix) : engine unit :=
  λ s, (Ok (), with_position_distribution p s).
Definition set_steps (l : list matrix) : engine unit :=
  λ s, (Ok (), with_steps l s).

(** [for a in l: body(a)]. *)
Fixpoint for_each {A} (l : list A) (body : A → engine unit) : engine unit :=
  match l with
  | [] => mret ()
  | a :: l' => body a ≫= λ _, for_each l' body
  end.

(** A loop that also rebinds a local variable of type [S]. *)
Fixpoint for_fold {A S} (l : list A) (body : A → S → engine S) (s : S)
  : engine S :=
  match l with
  | [] => mret s
  | a :: l' => body a s ≫= for_fold l' body
  end.

(** The same loop for code that touches no attribute of [self]. *)
Fixpoint rfold {A S} (l : list A) (body : A → S → result S) (s : S)
  : result S :=
  match l with
  | [] => Ok s
  | a :: l' => body a s ≫= rfold l' body
  end.

(** [d[key]] on a dict: [KeyError] for a missing key. *)
Definition dict_get (d : gmap ascii matrix) (key : ascii) : result matrix :=
  match d !! key with
  | Some m => Ok m
  | None => Raise KeyError
  end.

(** [l[i]] on a list or a string, [i ≥ 0]: [IndexError] out of range. *)
Definition seq_get {A} (l : list A) (i : nat) : result A :=
  match l !! i with
  | Some a => Ok a
  | None => Raise IndexError
  end.

(** [l[i] = a] on a list, [i ≥ 0]. *)
Definition seq_set {A} (l : list A) (i : nat) (a : A) : result (list A) :=
  if decide (i < length l)%nat then Ok (<[i := a]> l) else Raise IndexError.

(** [str.lower] on text whose characters are code points below 256: the
    letters A-Z and the capital letters of Latin-1 move up by 32. *)
Definition lower_ascii (c : ascii) : ascii :=
  let n := nat_of_ascii c in
  if decide (65 ≤ n ≤ 90 ∨ (192 ≤ n ≤ 222 ∧ n ≠ 215))%nat
  then ascii_of_nat (n + 32) else c.

Definition lower (s : string) : list ascii :=
  lower_ascii <$> list_ascii_of_string s.

(** [range(w)] as coordinates. *)
Definition zrange (n : nat) : list Z := Z.of_nat <$> seq 0 n.

(** The body of the loop of [compute_sensor_values] for one [color]: the
    value is computed first, then the matrix of [color] is looked up and
    written on its diagonal. *)
Definition sensor_entry (pos : nat) (c : option ascii) (color : ascii)
  : engine unit :=
  self ← get_self;
  v ← (if decide (Some color = c) then mret CORRECT_COLOR
       else if decide (color_count (maze self) = 1)
            then lift (Raise ZeroDivisionError)
            else mret (WRONG_COLOR /
                       Qc_of_Z (Z.of_nat (color_count (maze self)) - 1))%Qc);
  m ← lift (dict_get (sensor_probabilities self) color);
  m' ← lift (setitem m pos pos v);
  set_sensor (<[color := m']> (sensor_probabilities self)).

(** [compute_sensor_values(x, y)]. *)
Definition compute_sensor_values (x y : Z) : engine unit :=
  self ← get_self;
  let pos := index (maze self) x y in
  let c := get_char (maze self) x y in
  if open_char c then for_each (colors (maze self)) (sensor_entry pos c)
  else mret ().

(** One direction of [compute_transition_matrix]: write the move
    probability below the neighbour's index when the neighbour is open,
    else add it to [stay_put]. *)
Definition move (nx ny : Z) (current_index : nat) (p : Qc) (stay_put : Qc)
  : engine Qc :=
  self ← get_self;
  if open_char (get_char (maze self) nx ny) then
    t ← lift (setitem (transitions self) (index (maze self) nx ny)
                      current_index p);
    set_transitions t;;
    mret stay_put
  else mret (stay_put + p)%Qc.

(** [compute_transition_matrix(x, y)]: north, south, east, west, then the
    self-transition. *)
Definition compute_transition_matrix (x y : Z) : engine unit :=
  self ← get_self;
  let current_index := index (maze self) x y in
  if open_char (get_char (maze self) x y) then
    let stay_put := 0%Qc in
    stay_put ← move x (y - 1) current_index NORTH_PROBABILITY stay_put;
    stay_put ← move x (y + 1) current_index SOUTH_PROBABILITY stay_put;
    stay_put ← move (x + 1) y current_index EAST_PROBABILITY stay_put;
    stay_put ← move (x - 1) y current_index WEST_PROBABILITY stay_put;
    self ← get_self;
    t ← lift (setitem (transitions self) current_index current_index stay_put);
    set_transitions t
  else mret ().

(** The body of the double loop of [initialize_probabilities]. *)
Definition initialize_cell (x y : Z) : engine unit :=
  self ← get_self;
  if open_char (get_char (maze self) x y) then
    compute_sensor_values x y;;
    compute_transition_matrix x y;;
    self ← get_self;
    let index := index (maze self) x y in
    p ← lift (setitem (position_distribution self) index 0
                (1 / Qc_of_Z (Z.of_nat (total_positions self)))%Qc);
    set_position_distribution p
  else mret ().

(** [initialize_probabilities()]. *)
Definition initialize_probabilities : engine unit :=
  self ← get_self;
  p ← lift (Matrix.new (total_positions self) 1);
  set_position_distribution p;;
  for_each (zrange (width (maze self))) (λ x,
    for_each (zrange (height (maze self))) (λ y, initialize_cell x y)).

(** [HMM(filename)], from the parsed grid on. *)
Definition init (mz : Maze) : result hmm :=
  let total := count_positions mz in
  if decide (total = 0) then Raise ValueError
  else
    sp ← rfold (colors mz) (λ color sp,
            m ← Matrix.new total total; Ok (<[color := m]> sp)) ∅;
    t ← Matrix.new (count_positions mz) (count_positions mz);
    p ← Matrix.new (width mz) (height mz);
    match initialize_probabilities (mkHmm mz total sp t p []) with
    | (Ok _, self) => Ok self
    | (Raise e, _) => Raise e
    end.

(** [self.steps.append(m)]. *)
Definition append_step (m : matrix) : engine unit :=
  self ← get_self;
  set_steps (steps self ++ [m]).

(** The check at the head of [forward]. *)
Definition check_readings (readings : list ascii) : engine unit :=
  self ← get_self;
  for_each readings (λ reading,
    if decide (reading ∈ colors (maze self)) then mret ()
    else lift (Raise ValueError)).

(** The right-hand side of the update in [forward]:
    [sensor_probabilities[reading] * (transitions.transpose() * distribution)]. *)
Definition predict_correct (self : hmm) (reading : ascii)
    (distribution : matrix) : result matrix :=
  e ← dict_get (sensor_probabilities self) reading;
  d ← mul (transpose (transitions self)) distribution;
  mul e d.

(** One turn of the loop of [forward]. *)
Definition forward_step (readings : list ascii) (step : nat)
    (distribution : matrix) : engine matrix :=
  reading ← lift (seq_get readings step);
  self ← get_self;
  distribution ← lift (predict_correct self reading distribution);
  let distribution := normalize distribution in
  append_step distribution;;
  mret distribution.

(** [forward(readings)]. *)
Definition forward (readings : string) : engine unit :=
  let readings := lower readings in
  check_readings readings;;
  self ← get_self;
  let distribution := copy (position_distribution self) in
  (if decide (steps self ≠ []) then set_steps [] else mret ());;
  append_step distribution;;
  for_fold (seq 0 (length readings)) (forward_step readings) distribution;;
  mret ().

(** One turn of the loop of [backward]. *)
Definition backward_step (readings : list ascii) (step : nat)
    (vector : matrix) : engine matrix :=
  self ← get_self;
  old ← lift (seq_get (steps self) step);
  m ← lift (multiply old vector);
  l ← lift (seq_set (steps self) step m);
  set_steps l;;
  l ← lift (seq_set l step (normalize m));
  set_steps l;;
  self ← get_self;
  reading ← lift (seq_get readings (step - 1));
  e ← lift (dict_get (sensor_probabilities self) reading);
  v ← lift (mul e vector);
  lift (mul (transitions self) v).

(** [range(n - 1, 0, -1)]. *)
Definition range_down (n : nat) : list nat := reverse (seq 1 (n - 1)).

(** [backward(readings)].  [forward] receives the lowered text and lowers
    it once more. *)
Definition backward (readings : string) : engine unit :=
  let lowered := lower readings in
  self ← get_self;
  let vector := ones (count_positions (maze self)) 1 in
  (if decide (steps self = [])
   then forward (string_of_list_ascii lowered) else mret ());;
  self ← get_self;
  for_fold (range_down (length (steps self))) (backward_step lowered) vector;;
  mret ().

(** *** Viterbi *)

(** The tables of [viterbi]. *)
Record tables : Type := mkTables {
  delta : matrix;
  predecessors : matrix
}.

(** The first loop: [delta[0, pos] = initial[pos, 0] * transitions[pos, pos]]. *)
Definition viterbi_init (self : hmm) (len : nat) : result matrix :=
  let delta := zeros len (total_positions self) in
  rfold (seq 0 (total_positions self)) (λ pos delta,
    a ← getitem (position_distribution self) pos 0;
    b ← getitem (transitions self) pos pos;
    setitem delta 0 pos (a * b)%Qc) delta.

(** The innermost loop body, for one [prev]. *)
Definition viterbi_prev (self : hmm) (t curr prev : nat) (tb : tables)
  : result tables :=
  cur ← getitem (delta tb) t curr;
  a ← getitem (delta tb) (t - 1) prev;
  b ← getitem (transitions self) prev curr;
  if decide (cur < a * b)%Qc then
    a ← getitem (delta tb) (t - 1) prev;
    b ← getitem (transitions self) prev curr;
    d ← setitem (delta tb) t curr (a * b)%Qc;
    p ← setitem (predecessors tb) t curr (Qc_of_Z (Z.of_nat prev));
    Ok (mkTables (normalize d) p)
  else Ok tb.

(** The loop body for one [curr]: the scan over [prev], then the product
    with the emission entry. *)
Definition viterbi_curr (self : hmm) (readings : list ascii) (t curr : nat)
    (tb : tables) : result tables :=
  tb ← rfold (seq 0 (total_positions self)) (viterbi_prev self t curr) tb;
  cur ← getitem (delta tb) t curr;
  reading ← seq_get readings t;
  e ← dict_get (sensor_probabilities self) reading;
  v ← getitem e curr curr;
  d ← setitem (delta tb) t curr (cur * v)%Qc;
  Ok (mkTables d (predecessors tb)).

(** The recurrence: [for t in range(1, len(readings))]. *)
Definition viterbi_fill (self : hmm) (readings : list ascii) (tb : tables)
  : result tables :=
  rfold (seq 1 (length readings - 1)) (λ t tb,
    rfold (seq 0 (total_positions self)) (viterbi_curr self readings t) tb) tb.

(** [int(q)]: truncation towards zero. *)
Definition py_int (q : Qc) : Z := (Qnum q ÷ Z.pos (Qden q))%Z.

(** An index into an axis of size [n]; a negative one counts from the end. *)
Definition np_index (n : nat) (i : Z) : result nat :=
  if decide (0 ≤ i < Z.of_nat n)%Z then Ok (Z.to_nat i)
  else if decide (- Z.of_nat n ≤ i < 0)%Z then Ok (Z.to_nat (Z.of_nat n + i))
  else Raise IndexError.

(** The scan for the best final state. *)
Definition viterbi_last (self : hmm) (len : nat) (delta : matrix)
  : result (list Qc) :=
  snd <$> rfold (seq 0 (total_positions self)) (λ step '(max_probability, path),
    v ← getitem delta (len - 1) step;
    if decide (max_probability < v)%Qc then
      v ← getitem delta (len - 1) step;
      path ← seq_set path (len - 1) (Qc_of_Z (Z.of_nat step));
      Ok (v, path)
    else Ok (max_probability, path)) (0%Qc, replicate len 0%Qc).

(** The walk back through [predecessors]. *)
Definition viterbi_back (len : nat) (predecessors : matrix) (path : list Qc)
  : result (list Qc) :=
  rfold (seq 1 (len - 1)) (λ t path,
    let index := (len - t)%nat in
    p ← seq_get path index;
    j ← np_index (cols predecessors) (py_int p);
    v ← getitem predecessors index j;
    seq_set path (index - 1) v) path.

Definition viterbi_run (self : hmm) (readings : list ascii)
  : result (tables * list Qc) :=
  d ← viterbi_init self (length readings);
  tb ← viterbi_fill self readings (mkTables d (copy (zeros (length readings)
                                                    (total_positions self))));
  path ← viterbi_last self (length readings) (delta tb);
  path ← viterbi_back (length readings) (predecessors tb) path;
  Ok (tb, path).

(** [viterbi(readings)]: reads [self], assigns no attribute, returns the
    path. *)
Definition viterbi (readings : string) : engine (list Qc) :=
  self ← get_self;
  lift (snd <$> viterbi_run self (lower readings)).

End HMM.

(** * Invariants used in the proofs *)

Section invariants.
Import Matrix HMM.
Local Open Scope Qc_scope.

(** The column [j] of the transition matrix while
    [compute_transition_matrix] handles a cell: the directions handled so
    far account for [k], and [W] lists the rows written. *)
Record col_inv (N : nat) (T0 T : matrix) (j : nat) (stay_put : Qc) (k : Qc)
    (W : list nat) : Prop := {
  ci_shaped : shaped T N N;
  ci_other : ∀ i j', j' ≠ j → entry T i j' = entry T0 i j';
  ci_other_sum : ∀ j', j' ≠ j → colsum T j' = colsum T0 j';
  ci_sum : colsum T j + stay_put = k;
  ci_zero : ∀ i, i ∉ W → entry T i j = 0
}.

(** The diagonal entry [compute_sensor_values] writes for [color] at a cell
    whose character is [c]. *)
Definition emission_value (mz : Maze) (color : ascii) (c : option ascii) : Qc :=
  if decide (Some color = c) then CORRECT_COLOR
  else WRONG_COLOR / Qc_of_Z (Z.of_nat (color_count mz) - 1).

(** The engine under construction, once the double loop of
    [initialize_probabilities] has visited the cells in [visited]. *)
Record build_inv (mz : Maze) (visited : Z → Z → Prop) (s : hmm) : Prop := {
  bi_maze : maze s = mz;
  bi_total : total_positions s = count_positions mz;
  bi_steps : steps s = [];
  bi_t_shaped : shaped (transitions s) (count_positions mz) (count_positions mz);
  bi_t_done : ∀ x y, traversable mz x y → visited x y →
    colsum (transitions s) (index mz x y) = 1;
  bi_t_todo : ∀ x y, traversable mz x y → ¬ visited x y →
    ∀ i, entry (transitions s) i (index mz x y) = 0;
  bi_sensor : ∀ color, color ∈ colors mz →
    ∃ m, sensor_probabilities s !! color = Some m ∧
      shaped m (count_positions mz) (count_positions mz) ∧
      (∀ i j, i ≠ j → entry m i j = 0) ∧
      (∀ x y, traversable mz x y → visited x y →
         entry m (index mz x y) (index mz x y)
         = emission_value mz color (get_char mz x y));
  bi_p_shaped : shaped (position_distribution s) (count_positions mz) 1;
  bi_p_done : ∀ x y, traversable mz x y → visited x y →
    entry (position_distribution s) (index mz x y) 0
    = 1 / Qc_of_Z (Z.of_nat (count_positions mz))
}.

(** What the inference methods rely on: the shapes announced by the
    matrices of the engine, and an emission matrix for every colour. *)
Record engine_ok (e : hmm) : Prop := {
  eo_t_rows : rows (transitions e) = total_positions e;
  eo_t_cols : cols (transitions e) = total_positions e;
  eo_sensor : ∀ c, c ∈ colors (maze e) →
    ∃ m, sensor_probabilities e !! c = Some m ∧
      rows m = total_positions e ∧ cols m = total_positions e;
  eo_p_rows : rows (position_distribution e) = total_positions e;
  eo_p_cols : cols (position_distribution e) = 1%nat
}.

(** The beliefs [bs] follow from [d0] by the update of [forward] along
    [readings]: each is the normalised [predict_correct] of its
    predecessor. *)
Fixpoint belief_chain (e : hmm) (d0 : matrix) (readings : list ascii)
    (bs : list matrix) : Prop :=
  match readings, bs with
  | [], [] => True
  | reading :: readings, b :: bs =>
      (∃ u, predict_correct e reading d0 = Ok u ∧ b = normalize u ∧
            cols u = 1%nat ∧ (∀ row, row ∈ data u → length row = 1%nat)) ∧
      belief_chain e b readings bs
  | _, _ => False
  end.

(** [s'] differs from [s] in the stored sequence only, which has kept its
    length and its first entry. *)
Record steps_rewritten (s s' : hmm) : Prop := {
  sr_frame : with_steps (steps s) s' = s;
  sr_length : length (steps s') = length (steps s);
  sr_first : steps s' !! 0%nat = steps s !! 0%nat
}.

End invariants.

(** * Vocabulary of the statements, and a concrete grid *)

Section statements.
Import Matrix HMM.
Local Open Scope Qc_scope.

Global Instance exn_eq_dec : EqDecision exn.
Proof. solve_decision. Defined.
Global Instance result_eq_dec `{EqDecision A} : EqDecision (result A).
Proof. solve_decision. Defined.
Global Instance matrix_eq_dec : EqDecision matrix.
Proof. solve_decision. Defined.

(** The uniform distribution over [n] states, as a column vector. *)
Definition uniform (n : nat) : matrix :=
  full n 1 (1 / Qc_of_Z (Z.of_nat n)).


(** The largest element of a list of numbers, [0] for the empty list. *)
Definition maxQc (l : list Qc) : Qc :=
  foldr (λ x acc, if decide (acc < x) then x else acc) 0 l.

(** The right-hand side of the Viterbi recurrence read off a table: the
    largest [delta[t-1, prev] * transitions[prev, curr]] over all [prev],
    times the emission entry of the reading at [t]. *)
Definition recurrence_rhs (self : hmm) (readings : list ascii) (d : matrix)
    (t curr : nat) : Qc :=
  maxQc ((λ prev, entry d (t - 1) prev * entry (transitions self) prev curr)
           <$> seq 0 (total_positions self))
  * match readings !! t ≫= (sensor_probabilities self !!.) with
    | Some e => entry e curr curr
    | None => 0
    end.

(** Modelled from the spec: a corridor of one row, the grid of the spec's
    scenarios; cell [x] shows [cells[x]], its linear index is [x], and the
    alphabet is the set of characters on the grid. *)
Definition corridor (cells : list ascii) : Maze :=
  mkMaze (length cells) 1
    (λ x y, if decide (y = 0 ∧ 0 ≤ x)%Z then cells !! Z.to_nat x else None)
    (λ x y, Z.to_nat x)
    (length cells)
    (remove_dups cells)
    (length (remove_dups cells)).

Definition rgb : Maze := corridor ["r"; "g"; "b"]%char.

(** The engine built on that corridor. *)
Definition rgb_engine : hmm :=
  match init rgb with
  | Ok e => e
  | Raise _ => mkHmm rgb 0 ∅ (zeros 0 0) (zeros 0 0) []
  end.

(** The engine after [forward("RGB")]. *)
Definition rgb_filtered : hmm := (forward "RGB" rgb_engine).2.

End statements.

(** * More of the matrix layer *)

Module MatrixArith.
Import Matrix.

(** What stands to the right of an arithmetic operator: a number ([int] or
    [float]) or a [Matrix].  Lists, tuples and foreign objects are outside
    this model. *)
Inductive operand : Type :=
  | Num (q : Qc)
  | Mat (m : matrix).

(** [m.shape()]. *)
Definition shape (m : matrix) : nat * nat := (rows m, cols m).

(** The array [f(data, q)] for a number [q]: [q] is broadcast to every
    entry.  The result is computed exactly; on an array of 64-bit integers
    numpy wraps a result that leaves their range, so what is stated about
    these results assumes they stay within it ([in_int64]). *)
Definition np_scalar (f : Qc → Qc → Qc) (m : matrix) (q : Qc) : matrix :=
  mk (rows m) (cols m) ((λ r : list Qc, (λ x, f x q) <$> r) <$> data m).

(** A number within the range of a 64-bit integer. *)
Definition in_int64 (x : Qc) : Prop :=
  (Qc_of_Z (- 2 ^ 63) ≤ x ∧ x < Qc_of_Z (2 ^ 63))%Qc.

(** [self + other]: a number is added to every entry; two matrices must
    have the same shape. *)
Definition add (self : matrix) (other : operand) : result matrix :=
  match other with
  | Num q => Ok (np_scalar Qcplus self q)
  | Mat o =>
      if decide (shape self ≠ shape o) then Raise ValueError
      else np_elementwise Qcplus self o
  end.

(** [other + self] when [other] has no [__add__] for a matrix: [__radd__]
    returns [self + other]. *)
Definition radd (self : matrix) (other : operand) : result matrix :=
  add self other.

(** [self - other]. *)
Definition sub (self : matrix) (other : operand) : result matrix :=
  match other with
  | Num q => Ok (np_scalar Qcminus self q)
  | Mat o =>
      if decide (shape self ≠ shape o) then Raise ValueError
      else np_elementwise Qcminus self o
  end.

(** [__rsub__]: [other - self]; a number is first spread over an array of
    the shape of [self.data]. *)
Definition rsub (self : matrix) (other : operand) : result matrix :=
  match other with
  | Num q => Ok (np_scalar (λ x y, y - x)%Qc self q)
  | Mat o =>
      if decide (shape self ≠ shape o) then Raise ValueError
      else np_elementwise Qcminus o self
  end.

(** [self * other] for a number, in [__mul__] and in [__rmul__] alike:
    [np.multiply(self.data, other)]. *)
Definition scale (self : matrix) (q : Qc) : matrix :=
  np_scalar Qcmult self q.

(** [self / other] for a number ([__truediv__]): zero is refused before
    numpy sees it. *)
Definition truediv (self : matrix) (q : Qc) : result matrix :=
  if decide (q = 0%Qc) then Raise ValueError
  else Ok (np_scalar Qcdiv self q).

(** [__rmul__] for a [Matrix] on the left: [other * self] after the shape
    check. *)
Definition rmul (self other : matrix) : result matrix :=
  if decide (cols other ≠ rows self) then Raise ValueError
  else np_dot other self.

(** [m[pos]] for an integer [pos ≥ 0]: the row, as numpy's [data[pos]]. *)
Definition getrow (m : matrix) (pos : nat) : result (list Qc) :=
  match data m !! pos with
  | Some r => Ok r
  | None => Raise IndexError
  end.

(** The 4 x 3 matrix of [test_representation] and [other_tests] in
    [Matrix.py]: [[1,2,3], [4,5,6], [7,8,9], [10,11,12]]. *)
Definition sample : matrix :=
  mk 4 3 ((λ r : list Z, Qc_of_Z <$> r)
            <$> [[1; 2; 3]; [4; 5; 6]; [7; 8; 9]; [10; 11; 12]]%Z).

(** The 2 x 2 matrix of [test_div]: [[1, 2], [2, 1]]. *)
Definition sample2 : matrix :=
  mk 2 2 ((λ r : list Z, Qc_of_Z <$> r) <$> [[1; 2]; [2; 1]]%Z).

(** The sum over [k < n] of [a[i,k] * b[k,j]]: the entry of a matrix
    product as mathematics defines it. *)
Definition product_entry (a b : matrix) (n i j : nat) : Qc :=
  sumQc ((λ k, entry a i k * entry b k j)%Qc <$> seq 0 n).

End MatrixArith.

(** * The search nodes of [astar_search.py] *)

Module Astar.

Local Set Warnings "-register-all".

(** An [AstarNode] over states of type [S]: the chain of [parent] links is
    finite, as it is for every node the search creates. *)
Inductive node (S : Type) : Type :=
  mkNode {
    state : S;
    heuristic : Z;
    parent : option (node S);
    transition_cost : Z
  }.
Arguments mkNode {S}.
Arguments state {S}.
Arguments heuristic {S}.
Arguments parent {S}.
Arguments transition_cost {S}.

(** [node.priority()]. *)
Definition priority {S} (n : node S) : Z :=
  (heuristic n + transition_cost n)%Z.

(** The comparison operators of [AstarNode]: on priorities alone. *)
Definition node_lt {S} (a b : node S) : bool := (priority a <? priority b)%Z.
Definition node_le {S} (a b : node S) : bool := (priority a <=? priority b)%Z.
Definition node_eq {S} (a b : node S) : bool := (priority a =? priority b)%Z.
Definition node_gt {S} (a b : node S) : bool := (priority a >? priority b)%Z.
Definition node_ge {S} (a b : node S) : bool := (priority a >=? priority b)%Z.

(** The loop of [backchain]: [result.append(current.state)] until
    [current] is [None]. *)
Fixpoint collect {S} (current : node S) (result : list S) : list S :=
  match current with
  | mkNode st _ p _ =>
      match p with
      | Some q => collect q (result ++ [st])
      | None => result ++ [st]
      end
  end.

(** [backchain(node)]: the states from [node] up to the root, reversed. *)
Definition backchain {S} (n : node S) : list S := reverse (collect n []).

(** The number of [parent] links above a node. *)
Fixpoint depth {S} (n : node S) : nat :=
  match n with
  | mkNode _ _ p _ =>
      match p with
      | Some q => Datatypes.S (depth q)
      | None => 0
      end
  end.

(** The root of a node's chain. *)
Fixpoint root {S} (n : node S) : node S :=
  match n with
  | mkNode _ _ p _ =>
      match p with
      | Some q => root q
      | None => n
      end
  end.

End Astar.

(** * More about the engine: vocabulary *)

Section engine_more.
Import Matrix HMM.
Local Open Scope Qc_scope.

(** [(x', y')] is the northern, southern, eastern or western neighbour of
    [(x, y)]. *)
Definition adjacent (x y x' y' : Z) : Prop :=
  (x' = x ∧ (y' = y - 1 ∨ y' = y + 1)%Z) ∨
  (y' = y ∧ (x' = x + 1 ∨ x' = x - 1)%Z).

Global Instance adjacent_dec x y x' y' : Decision (adjacent x y x' y').
Proof. unfold adjacent. apply _. Defined.

(** What a direction adds to [stay_put]: the move probability when the
    neighbour is a wall or off the grid. *)
Definition blocked (mz : Maze) (nx ny : Z) : Qc :=
  if open_char (get_char mz nx ny) then 0 else MOVE_PROBABILITY.

(** [stay_put] once [compute_transition_matrix] has looked north, south,
    east and west of [(x, y)]. *)
Definition stay_mass (mz : Maze) (x y : Z) : Qc :=
  0 + blocked mz x (y - 1) + blocked mz x (y + 1)
    + blocked mz (x + 1) y + blocked mz (x - 1) y.

(** The transition matrix, entry by entry: from cell [(x, y)] (the column)
    to cell [(x', y')] (the row). *)
Definition transition_entry (mz : Maze) (x' y' x y : Z) : Qc :=
  if decide (x' = x ∧ y' = y) then stay_mass mz x y
  else if decide (adjacent x y x' y') then MOVE_PROBABILITY
  else 0.

(** The transition matrix under construction: the columns of the visited
    cells are final. *)
Definition entries_inv (mz : Maze) (visited : Z → Z → Prop) (s : hmm) : Prop :=
  ∀ x y x' y', traversable mz x y → visited x y → traversable mz x' y' →
    entry (transitions s) (index mz x' y') (index mz x y)
    = transition_entry mz x' y' x y.

(** The element type of an array.  [Matrix(rows, cols)], [Matrix.zeros]
    and [Matrix.ones] build arrays of floats; [Matrix(0, 0, source)] takes
    the type of its source, 64-bit integers for a source of Python
    integers such as the matrices of the tests in [Matrix.py]. *)
Inductive dtype : Type :=
  | Int64
  | Float64.

(** What an array of the given type stores for a number: an array of
    floats the number itself (rounding is not modelled), an array of
    integers the number without its fraction, cut towards zero. *)
Definition np_cast (ty : dtype) (v : Qc) : Qc :=
  match ty with
  | Float64 => v
  | Int64 => Qc_of_Z (py_int v)
  end.

(** The numbers an array of the given type takes: for integers those
    whose cast is a 64-bit integer, for floats those below 2^1023 in
    magnitude.  Beyond, numpy raises [OverflowError] for a Python integer
    and stores a value without meaning for a float. *)
Definition np_fits (ty : dtype) (v : Qc) : Prop :=
  match ty with
  | Int64 => (- 2 ^ 63 ≤ py_int v < 2 ^ 63)%Z
  | Float64 => (Qc_of_Z (- 2 ^ 1023) < v ∧ v < Qc_of_Z (2 ^ 1023))%Qc
  end.

(** [m[row, col] = value] on an array of type [ty]: numpy casts the value
    to the type of the array, then writes it. *)
Definition setitem_cast (ty : dtype) (m : matrix) (row col : nat)
    (value : Qc) : result matrix :=
  setitem m row col (np_cast ty value).

(** [m[row, col] = value] for integers of either sign: numpy counts a
    negative index from the end of its axis. *)
Definition setitem_at (m : matrix) (row col : Z) (value : Qc)
  : result matrix :=
  i ← np_index (length (data m)) row;
  r ← seq_get (data m) i;
  j ← np_index (length r) col;
  setitem m i j value.

(** [compute_distribution(x, y, total)]: a method of [HMM] that nothing
    calls.  It writes [1 / total] at [position_distribution[x, y]] unless
    the cell shows a wall; outside the grid [get_char] gives [None], which
    is no wall. *)
Definition compute_distribution (x y : Z) (total : Z) : engine unit :=
  self ← get_self;
  if decide (get_char (maze self) x y ≠ Some wall) then
    v ← (if decide (total = 0%Z) then lift (Raise ZeroDivisionError)
         else mret (1 / Qc_of_Z total));
    p ← lift (setitem_at (position_distribution self) x y v);
    set_position_distribution p
  else mret ().

End engine_more.

Section inference_more.
Import Matrix HMM.
Local Open Scope Qc_scope.

(** A column vector over [n] states with every entry above zero. *)
Definition positive_vector (n : nat) (b : matrix) : Prop :=
  shaped b n 1 ∧ ∀ i, (i < n)%nat → 0 < entry b i 0.

(** [s'] differs from [s] in the stored sequence at most. *)
Definition same_model (s s' : hmm) : Prop := with_steps (steps s) s' = s.

(** A stored belief in good order: a positive column vector over [n]
    states whose entries sum to 1. *)
Definition belief (n : nat) (b : matrix) : Prop :=
  positive_vector n b ∧ mass b = 1.

(** A number that is the index of one of [n] states. *)
Definition state_index (n : nat) (q : Qc) : Prop :=
  ∃ k, (k < n)%nat ∧ q = Qc_of_Z (Z.of_nat k).

(** The tables of [viterbi] in good order: both [len] x [n], and every
    entry of [predecessors] the index of a state. *)
Definition tables_ok (len n : nat) (tb : tables) : Prop :=
  shaped (delta tb) len n ∧ shaped (predecessors tb) len n ∧
  ∀ i j, state_index n (entry (predecessors tb) i j).

(** A step of the constructor on the grid [mz] keeps the grid, and adds no
    emission matrix for a character that is no colour of the grid. *)
Definition keys_kept (mz : Maze) (s s' : hmm) : Prop :=
  maze s = mz →
  maze s' = mz ∧
  ∀ c, c ∉ colors mz →
    sensor_probabilities s' !! c = sensor_probabilities s !! c.

End inference_more.

(** * Facts *)

Import Matrix HMM.

Local Set Warnings "-clear-no-such-hyp".

(** ** Sums *)

Global Arguments sumQc : simpl never.

Section sums.
Local Open Scope Qc_scope.

Lemma sumQc_nil : sumQc [] = 0.
Proof. reflexivity. Qed.

Lemma sumQc_cons x l : sumQc (x :: l) = x + sumQc l.
Proof. reflexivity. Qed.

Lemma sumQc_app l1 l2 : sumQc (l1 ++ l2) = sumQc l1 + sumQc l2.
Proof.
  induction l1 as [|x l1 IH]; simpl.
  - rewrite sumQc_nil. ring.
  - rewrite !sumQc_cons, IH. ring.
Qed.

Lemma sumQc_insert l i v :
  (i < length l)%nat →
  sumQc (<[i := v]> l) = sumQc l - default 0 (l !! i) + v.
Proof.
  revert i. induction l as [|x l IH]; intros [|i] Hi; simpl in *; try lia.
  - rewrite !sumQc_cons. ring.
  - rewrite !sumQc_cons, IH by lia. ring.
Qed.

Lemma sumQc_all_zero l : (∀ i, default 0 (l !! i) = 0) → sumQc l = 0.
Proof.
  induction l as [|x l IH]; intros H; [reflexivity|].
  rewrite sumQc_cons, IH.
  - specialize (H 0%nat). simpl in H. rewrite H. ring.
  - intros i. apply (H (S i)).
Qed.

Lemma sumQc_div l s : sumQc ((λ x, x / s) <$> l) = sumQc l / s.
Proof.
  induction l as [|x l IH].
  - rewrite fmap_nil, sumQc_nil. unfold Qcdiv. ring.
  - rewrite fmap_cons, !sumQc_cons, IH. unfold Qcdiv. ring.
Qed.

End sums.

(** ** Arrays *)

Section arrays.
Local Open Scope Qc_scope.


Lemma column_lookup d j i :
  default 0 (column d j !! i) = default 0 (d !! i ≫= (.!! j)).
Proof.
  unfold column. rewrite list_lookup_fmap.
  destruct (d !! i) as [r|]; reflexivity.
Qed.

Lemma column_length d j : length (column d j) = length d.
Proof. unfold column. apply length_fmap. Qed.

Lemma colsum_zero m j : (∀ i, entry m i j = 0) → colsum m j = 0.
Proof.
  intros H. apply sumQc_all_zero. intros i.
  rewrite column_lookup. apply H.
Qed.

Lemma np_full_lookup r c v i j :
  (i < r)%nat → (j < c)%nat → np_full r c v !! i ≫= (.!! j) = Some v.
Proof.
  intros Hi Hj. unfold np_full.
  rewrite lookup_replicate_2 by done. simpl.
  by rewrite lookup_replicate_2.
Qed.

Lemma shaped_full r c v : shaped (full r c v) r c.
Proof.
  split; simpl; try done.
  - apply length_replicate.
  - intros i row [-> _]%lookup_replicate. apply length_replicate.
Qed.

Lemma shaped_zeros r c : shaped (zeros r c) r c.
Proof. apply shaped_full. Qed.

Lemma entry_full r c v i j :
  entry (full r c v) i j = if decide (i < r ∧ j < c)%nat then v else 0.
Proof.
  unfold entry, full, np_full. simpl. case_decide as H.
  - destruct H. rewrite lookup_replicate_2 by done. simpl.
    by rewrite lookup_replicate_2.
  - destruct (replicate r (replicate c v) !! i) as [row|] eqn:E; [|done].
    apply lookup_replicate in E as [-> Hi]. simpl.
    destruct (replicate c v !! j) as [x|] eqn:E'; [|done].
    apply lookup_replicate in E' as [-> Hj]. tauto.
Qed.

Lemma entry_zeros r c i j : entry (zeros r c) i j = 0.
Proof.
  change (zeros r c) with (full r c 0). rewrite entry_full.
  by case_decide.
Qed.

Lemma new_ok r c : r ≠ 0%nat → c ≠ 0%nat → new r c = Ok (zeros r c).
Proof. intros. unfold new. by rewrite decide_True. Qed.

(** A matrix is determined by its shape and its entries. *)
Lemma matrix_ext m1 m2 r c :
  shaped m1 r c → shaped m2 r c →
  (∀ i j, (i < r)%nat → (j < c)%nat → entry m1 i j = entry m2 i j) →
  m1 = m2.
Proof.
  intros [R1 C1 L1 W1] [R2 C2 L2 W2] H.
  destruct m1 as [r1 c1 d1], m2 as [r2 c2 d2]; simpl in *.
  subst r1 c1 r2 c2. f_equal.
  apply list_eq_same_length with r; [done..|].
  intros i x y Hi Hx Hy.
  apply list_eq_same_length with c; [eauto..|].
  intros j a b Hj Ha Hb.
  specialize (H i j Hi Hj). unfold entry in H. simpl in H.
  rewrite Hx, Hy in H. simpl in H. rewrite Ha, Hb in H. done.
Qed.

(** Writing an entry of a well-shaped matrix in range succeeds; it changes
    that entry only and moves the column sum by the difference. *)
Lemma setitem_ok m r c i j v :
  shaped m r c → (i < r)%nat → (j < c)%nat →
  ∃ m', setitem m i j v = Ok m' ∧ shaped m' r c ∧
    (∀ i' j', entry m' i' j' =
       if decide (i' = i ∧ j' = j) then v else entry m i' j') ∧
    colsum m' j = colsum m j - entry m i j + v ∧
    (∀ j', j' ≠ j → colsum m' j' = colsum m j').
Proof.
  intros [R C L W] Hi Hj. unfold setitem.
  destruct (data m !! i) as [row|] eqn:Erow.
  2: { apply lookup_ge_None in Erow. lia. }
  pose proof (W _ _ Erow) as Hlen.
  rewrite decide_True by lia. eexists. split; [done|]. split; [|split; [|split]].
  - split; simpl; try done.
    + by rewrite length_insert.
    + intros i' row' Hl. destruct (decide (i' = i)) as [->|Hne].
      * rewrite list_lookup_insert_eq in Hl by lia.
        injection Hl as <-. by rewrite length_insert.
      * rewrite list_lookup_insert_ne in Hl by done. eauto.
  - intros i' j'. unfold entry. simpl.
    destruct (decide (i' = i)) as [->|Hne].
    + rewrite list_lookup_insert_eq by lia. simpl.
      destruct (decide (j' = j)) as [->|Hne'].
      * rewrite list_lookup_insert_eq by lia. by rewrite decide_True.
      * rewrite list_lookup_insert_ne by done.
        rewrite decide_False by tauto. by rewrite Erow.
    + rewrite list_lookup_insert_ne by done.
      by rewrite decide_False by tauto.
  - unfold colsum, column, entry. simpl.
    rewrite list_fmap_insert, sumQc_insert by (rewrite length_fmap; lia).
    rewrite list_lookup_insert_eq by lia. simpl.
    rewrite list_lookup_fmap, Erow. done.
  - intros j' Hne. unfold colsum, column. simpl.
    rewrite list_fmap_insert. rewrite list_lookup_insert_ne by done.
    f_equal. apply list_insert_id.
    rewrite list_lookup_fmap, Erow. done.
Qed.

End arrays.

(** ** The engine monad *)

Section monad.

Lemma bind_ok {A B} (m : engine A) (k : A → engine B) s a s' :
  m s = (Ok a, s') → (m ≫= k) s = k a s'.
Proof. intros H. unfold mbind, engine_bind. by rewrite H. Qed.

Lemma bind_raise {A B} (m : engine A) (k : A → engine B) s e s' :
  m s = (Raise e, s') → (m ≫= k) s = (Raise e, s').
Proof. intros H. unfold mbind, engine_bind. by rewrite H. Qed.

Lemma bind_get_self {B} (k : hmm → engine B) s : (get_self ≫= k) s = k s s.
Proof. reflexivity. Qed.

Lemma bind_lift_ok {A B} (r : result A) (k : A → engine B) s a :
  r = Ok a → (lift r ≫= k) s = k a s.
Proof. by intros ->. Qed.

Lemma bind_lift_raise {A B} (r : result A) (k : A → engine B) s e :
  r = Raise e → (lift r ≫= k) s = (Raise e, s).
Proof. by intros ->. Qed.

(** A loop whose body keeps an invariant of the elements already visited
    runs to its end and establishes the invariant for the whole list. *)
Lemma for_each_inv {A} (I : list A → hmm → Prop) (l : list A)
    (body : A → engine unit) :
  (∀ pre a post s, l = pre ++ a :: post → I pre s →
     ∃ s', body a s = (Ok (), s') ∧ I (pre ++ [a]) s') →
  ∀ s, I [] s → ∃ s', for_each l body s = (Ok (), s') ∧ I l s'.
Proof.
  intros Hbody.
  assert (∀ rest pre s, l = pre ++ rest → I pre s →
            ∃ s', for_each rest body s = (Ok (), s') ∧ I l s') as Hgen.
  { induction rest as [|a rest IH]; intros pre s Hl HI.
    - rewrite app_nil_r in Hl. subst pre. by exists s.
    - destruct (Hbody pre a rest s Hl HI) as (s1 & Hrun & HI1).
      destruct (IH (pre ++ [a]) s1) as (s2 & Hrun2 & HI2); [|done|].
      { by rewrite <- app_assoc. }
      exists s2. split; [|done]. simpl.
      rewrite (bind_ok _ _ _ _ _ Hrun). done. }
  intros s HI. by apply (Hgen l []).
Qed.

End monad.

(** ** The transition matrix *)

Section transitions.
Local Open Scope Qc_scope.
Context (mz : Maze) (Hwf : maze_wf mz).
Local Abbreviation N := (count_positions mz).

Lemma move_probability_4 : MOVE_PROBABILITY + MOVE_PROBABILITY + MOVE_PROBABILITY + MOVE_PROBABILITY = 1.
Proof. apply Qc_is_canon. reflexivity. Qed.

Lemma move_spec s nx ny j st k W T0 :
  maze s = mz → (j < N)%nat →
  col_inv N T0 (transitions s) j st k W →
  (traversable mz nx ny → index mz nx ny ∉ W) →
  ∃ t st',
    move nx ny j MOVE_PROBABILITY st s = (Ok st', with_transitions t s) ∧
    col_inv N T0 t j st' (k + MOVE_PROBABILITY)
      (if open_char (get_char mz nx ny) then index mz nx ny :: W else W).
Proof.
  intros Hmz Hj [Hsh Ho Hos Hsum Hz] Hfresh.
  unfold move. rewrite bind_get_self, Hmz.
  destruct (open_char (get_char mz nx ny)) eqn:Hopen.
  - assert (traversable mz nx ny) as Htr by done.
    pose proof (wf_index_lt _ Hwf _ _ Htr) as Hlt.
    destruct (setitem_ok _ _ _ (index mz nx ny) j MOVE_PROBABILITY Hsh Hlt Hj)
      as (t & Hset & Hsh' & Hent & Hcs & Hcs').
    exists t, st. rewrite (bind_lift_ok _ _ _ _ Hset). split; [done|].
    split; [done|..].
    + intros i j' Hne. rewrite Hent, decide_False by tauto. by apply Ho.
    + intros j' Hne. rewrite Hcs' by done. by apply Hos.
    + rewrite Hcs, (Hz _ (Hfresh Htr)), <- Hsum. ring.
    + intros i Hi. rewrite Hent. case_decide as Hd.
      * destruct Hd as [-> _]. set_solver.
      * apply Hz. set_solver.
  - exists (transitions s), (st + MOVE_PROBABILITY).
    split; [by destruct s|]. split; [done..| |done].
    rewrite <- Hsum. ring.
Qed.

Lemma compute_transition_matrix_spec s x y :
  maze s = mz → traversable mz x y →
  shaped (transitions s) N N →
  (∀ i, entry (transitions s) i (index mz x y) = 0) →
  ∃ t, compute_transition_matrix x y s = (Ok (), with_transitions t s) ∧
    shaped t N N ∧
    (∀ i j', j' ≠ index mz x y → entry t i j' = entry (transitions s) i j') ∧
    (∀ j', j' ≠ index mz x y → colsum t j' = colsum (transitions s) j') ∧
    colsum t (index mz x y) = 1.
Proof.
  intros Hmz Htr Hsh Hzero.
  pose proof (wf_index_lt _ Hwf _ _ Htr) as Hj.
  set (j := index mz x y) in *.
  assert (col_inv N (transitions s) (transitions s) j 0 0 []) as H0.
  { split; try done. rewrite colsum_zero by done. ring. }
  assert (∀ nx ny, traversable mz nx ny → (nx ≠ x ∨ ny ≠ y) →
            index mz nx ny ≠ j) as Hother.
  { intros nx ny Hn Hne Heq.
    destruct (wf_index_inj _ Hwf _ _ _ _ Hn Htr Heq). lia. }
  unfold compute_transition_matrix. rewrite bind_get_self, Hmz.
  unfold traversable in Htr. rewrite Htr. fold j.
  unfold NORTH_PROBABILITY, SOUTH_PROBABILITY, EAST_PROBABILITY,
    WEST_PROBABILITY.
  destruct (move_spec s x (y - 1) j 0 0 [] _ Hmz Hj H0)
    as (t1 & st1 & Hrun1 & H1); [set_solver|].
  rewrite (bind_ok _ _ _ _ _ Hrun1).
  destruct (move_spec (with_transitions t1 s) x (y + 1) j st1 _ _ _ Hmz Hj H1)
    as (t2 & st2 & Hrun2 & H2).
  { intros Hn. destruct (open_char (get_char mz x (y - 1))) eqn:E1;
      rewrite ?elem_of_cons, ?elem_of_nil; intros Hin;
      destruct_or?; try done;
      match goal with H : index _ _ _ = index _ _ _ |- _ =>
        apply (wf_index_inj _ Hwf) in H; [lia|done..] end. }
  rewrite (bind_ok _ _ _ _ _ Hrun2).
  destruct (move_spec (with_transitions t2 s) (x + 1) y j st2 _ _ _ Hmz Hj H2)
    as (t3 & st3 & Hrun3 & H3).
  { intros Hn. destruct (open_char (get_char mz x (y - 1))) eqn:E1;
      destruct (open_char (get_char mz x (y + 1))) eqn:E2;
      rewrite ?elem_of_cons, ?elem_of_nil; intros Hin;
      destruct_or?; try done;
      match goal with H : index _ _ _ = index _ _ _ |- _ =>
        apply (wf_index_inj _ Hwf) in H; [lia|done..] end. }
  rewrite (bind_ok _ _ _ _ _ Hrun3).
  destruct (move_spec (with_transitions t3 s) (x - 1) y j st3 _ _ _ Hmz Hj H3)
    as (t4 & st4 & Hrun4 & H4).
  { intros Hn. destruct (open_char (get_char mz x (y - 1))) eqn:E1;
      destruct (open_char (get_char mz x (y + 1))) eqn:E2;
      destruct (open_char (get_char mz (x + 1) y)) eqn:E3;
      rewrite ?elem_of_cons, ?elem_of_nil; intros Hin;
      destruct_or?; try done;
      match goal with H : index _ _ _ = index _ _ _ |- _ =>
        apply (wf_index_inj _ Hwf) in H; [lia|done..] end. }
  rewrite (bind_ok _ _ _ _ _ Hrun4).
  rewrite bind_get_self.
  destruct H4 as [Hsh4 Ho4 Hos4 Hsum4 Hz4]. simpl.
  destruct (setitem_ok _ _ _ j j st4 Hsh4 Hj Hj)
    as (t & Hset & Hsh' & Hent & Hcs & Hcs').
  exists t. rewrite (bind_lift_ok _ _ _ _ Hset). split; [done|].
  split; [done|]. split; [|split].
  - intros i j' Hne. rewrite Hent, decide_False by tauto. by apply Ho4.
  - intros j' Hne. rewrite Hcs' by done. by apply Hos4.
  - rewrite Hcs, Hz4.
    + rewrite <- move_probability_4.
      replace (colsum t4 j) with (0 + MOVE_PROBABILITY + MOVE_PROBABILITY
        + MOVE_PROBABILITY + MOVE_PROBABILITY - st4)
        by (rewrite <- Hsum4; ring).
      ring.
    + destruct (open_char (get_char mz x (y - 1))) eqn:E1;
      destruct (open_char (get_char mz x (y + 1))) eqn:E2;
      destruct (open_char (get_char mz (x + 1) y)) eqn:E3;
      destruct (open_char (get_char mz (x - 1) y)) eqn:E4;
      rewrite ?elem_of_cons, ?elem_of_nil; intros Hin;
      destruct_or?; try done;
      match goal with H : j = index _ _ _ |- _ =>
        symmetry in H; apply Hother in H; [done|done|lia] end.
Qed.

End transitions.

(** ** The emission matrices *)

Section sensors.
Local Open Scope Qc_scope.
Context (mz : Maze) (Hwf : maze_wf mz).
Local Abbreviation N := (count_positions mz).

Lemma traversable_char x y :
  traversable mz x y → ∃ c, get_char mz x y = Some c ∧ c ≠ wall.
Proof.
  unfold traversable, open_char. destruct (get_char mz x y) as [c|]; [|done].
  intros H%bool_decide_eq_true. eauto.
Qed.

(** With a single colour in the alphabet every cell shows it. *)
Lemma single_color x y color :
  traversable mz x y → color ∈ colors mz → color_count mz = 1%nat →
  Some color = get_char mz x y.
Proof.
  intros (c & Hc & Hw)%traversable_char Hcol Hone.
  pose proof (wf_cell_color _ Hwf _ _ _ Hc Hw) as Hin.
  rewrite (wf_color_count _ Hwf) in Hone.
  destruct (colors mz) as [|z [|? ?]]; simpl in Hone; try lia.
  apply list_elem_of_singleton in Hcol, Hin. congruence.
Qed.

Lemma sensor_entry_spec s pos c color m :
  maze s = mz → (pos < N)%nat →
  (Some color ≠ c → color_count mz ≠ 1%nat) →
  sensor_probabilities s !! color = Some m → shaped m N N →
  ∃ m', sensor_entry pos c color s
        = (Ok (), with_sensor (<[color := m']> (sensor_probabilities s)) s) ∧
    shaped m' N N ∧
    ∀ i j, entry m' i j =
      if decide (i = pos ∧ j = pos) then emission_value mz color c
      else entry m i j.
Proof.
  intros Hmz Hpos Hcount Hm Hsh. unfold sensor_entry.
  rewrite bind_get_self, Hmz.
  rewrite (bind_ok _ _ s (emission_value mz color c) s).
  2: { unfold emission_value.
       destruct (decide (Some color = c)) as [Hd|Hd]; [done|].
       by rewrite decide_False by auto. }
  unfold dict_get. rewrite Hm. rewrite (bind_lift_ok _ _ _ m) by done.
  destruct (setitem_ok _ _ _ pos pos (emission_value mz color c) Hsh Hpos Hpos)
    as (m' & Hset & Hsh' & Hent & _).
  rewrite (bind_lift_ok _ _ _ _ Hset). by exists m'.
Qed.

Lemma compute_sensor_values_spec s x y :
  maze s = mz → traversable mz x y →
  (∀ color, color ∈ colors mz →
     ∃ m, sensor_probabilities s !! color = Some m ∧ shaped m N N) →
  ∃ sp, compute_sensor_values x y s = (Ok (), with_sensor sp s) ∧
    ∀ color, color ∈ colors mz →
      ∃ m m', sensor_probabilities s !! color = Some m ∧
        sp !! color = Some m' ∧ shaped m' N N ∧
        ∀ i j, entry m' i j =
          if decide (i = index mz x y ∧ j = index mz x y)
          then emission_value mz color (get_char mz x y) else entry m i j.
Proof.
  intros Hmz Htr Hsp.
  pose proof (wf_index_lt _ Hwf _ _ Htr) as Hj.
  unfold compute_sensor_values. rewrite bind_get_self, Hmz.
  pose proof Htr as Hopen. unfold traversable in Hopen. rewrite Hopen.
  set (pos := index mz x y) in *.
  set (I := λ (pre : list ascii) (s' : hmm),
    ∃ sp, s' = with_sensor sp s ∧
      ∀ color, color ∈ colors mz →
        ∃ m m', sensor_probabilities s !! color = Some m ∧
          sp !! color = Some m' ∧ shaped m' N N ∧
          ∀ i j, entry m' i j =
            if decide (color ∈ pre ∧ i = pos ∧ j = pos)
            then emission_value mz color (get_char mz x y) else entry m i j).
  destruct (for_each_inv I (colors mz)
              (sensor_entry pos (get_char mz x y))) with s
    as (s' & Hrun & sp & -> & Hfin).
  - intros pre a post s1 Hl (sp & -> & HI).
    assert (a ∈ colors mz) as Ha.
    { rewrite Hl, elem_of_app, elem_of_cons. auto. }
    destruct (HI a Ha) as (m & m' & Hm & Hm' & Hsh & Hent).
    destruct (sensor_entry_spec (with_sensor sp s) pos (get_char mz x y) a m')
      as (m2 & Hrun & Hsh2 & Hent2); [done..| |done|done|].
    { intros Hne Hone. apply Hne. by apply single_color. }
    eexists. split; [exact Hrun|]. eexists. split; [done|].
    intros color Hcol. destruct (decide (color = a)) as [->|Hne].
    + exists m, m2. simpl. rewrite lookup_insert_eq. split_and!; try done.
      intros i j. rewrite Hent2, Hent.
      destruct (decide (i = pos ∧ j = pos)) as [Hd|Hd].
      * rewrite decide_True; [done|].
        rewrite elem_of_app, list_elem_of_singleton. tauto.
      * rewrite decide_False by tauto. by rewrite decide_False by tauto.
    + destruct (HI color Hcol) as (mc & mc' & Hmc & Hmc' & Hshc & Hentc).
      exists mc, mc'. simpl. rewrite lookup_insert_ne by done.
      split_and!; try done.
      intros i j. rewrite Hentc. apply decide_ext.
      rewrite elem_of_app, list_elem_of_singleton. tauto.
  - exists (sensor_probabilities s). split; [by destruct s|].
    intros color Hcol. destruct (Hsp color Hcol) as (m & Hm & Hsh).
    exists m, m. split_and!; done.
  - exists sp. split; [done|].
    intros color Hcol. destruct (Hfin color Hcol) as (m & m' & ? & ? & ? & Hent).
    exists m, m'. split_and!; try done.
    intros i j. rewrite Hent. apply decide_ext. tauto.
Qed.

End sensors.

(** ** The builder *)

Section builder.
Local Open Scope Qc_scope.
Context (mz : Maze) (Hwf : maze_wf mz).
Local Abbreviation N := (count_positions mz).

Lemma build_inv_ext (P Q : Z → Z → Prop) s :
  (∀ x y, traversable mz x y → (P x y ↔ Q x y)) →
  build_inv mz P s → build_inv mz Q s.
Proof.
  intros HPQ [? ? ? ? Htd Htt Hsn ? Hpd]. split; try done.
  - intros x y Htr HQ. apply Htd; [done|]. by apply HPQ.
  - intros x y Htr HQ. apply Htt; [done|]. intros HP. apply HQ. by apply HPQ.
  - intros color Hcol. destruct (Hsn color Hcol) as (m & ? & ? & ? & Hd).
    exists m. split_and!; try done.
    intros x y Htr HQ. apply Hd; [done|]. by apply HPQ.
  - intros x y Htr HQ. apply Hpd; [done|]. by apply HPQ.
Qed.

Lemma initialize_cell_closed s x y :
  maze s = mz → ¬ traversable mz x y → initialize_cell x y s = (Ok (), s).
Proof.
  intros Hmz Hn. unfold initialize_cell. rewrite bind_get_self, Hmz.
  unfold traversable in Hn. by destruct (open_char (get_char mz x y)).
Qed.

Lemma initialize_cell_spec s x y (visited : Z → Z → Prop) :
  build_inv mz visited s → traversable mz x y → ¬ visited x y →
  ∃ s', initialize_cell x y s = (Ok (), s') ∧
    build_inv mz (λ x' y', visited x' y' ∨ (x' = x ∧ y' = y)) s'.
Proof.
  intros [Hmz Htot Hst Hsh Htd Htt Hsn Hpsh Hpd] Htr Hnv.
  pose proof (wf_index_lt _ Hwf _ _ Htr) as Hj.
  assert (∀ x' y', traversable mz x' y' → visited x' y' →
            index mz x' y' ≠ index mz x y) as Hne.
  { intros x' y' Htr' Hv Heq.
    destruct (wf_index_inj _ Hwf _ _ _ _ Htr' Htr Heq). by subst. }
  assert (∀ x' y', traversable mz x' y' →
            ¬ (visited x' y' ∨ x' = x ∧ y' = y) →
            index mz x' y' ≠ index mz x y) as Hne'.
  { intros x' y' Htr' Hv Heq.
    destruct (wf_index_inj _ Hwf _ _ _ _ Htr' Htr Heq). tauto. }
  unfold initialize_cell. rewrite bind_get_self, Hmz.
  pose proof Htr as Hopen. unfold traversable in Hopen. rewrite Hopen.
  destruct (compute_sensor_values_spec mz Hwf s x y Hmz Htr) as (sp & Hrun1 & Hsp).
  { intros color Hcol. destruct (Hsn color Hcol) as (m & ? & ? & _). eauto. }
  rewrite (bind_ok _ _ _ _ _ Hrun1).
  destruct (compute_transition_matrix_spec mz Hwf (with_sensor sp s) x y Hmz Htr Hsh)
    as (t & Hrun2 & Hsh2 & Hent2 & Hcs2 & Hone).
  { by apply Htt. }
  rewrite (bind_ok _ _ _ _ _ Hrun2).
  rewrite bind_get_self. simpl. rewrite Hmz, Htot.
  destruct (setitem_ok _ _ _ (index mz x y) 0
              (1 / Qc_of_Z (Z.of_nat N)) Hpsh Hj Nat.lt_0_1)
    as (p & Hset & Hpsh' & Hpent & _).
  rewrite (bind_lift_ok _ _ _ _ Hset).
  eexists. split; [done|]. split; simpl; try done.
  - intros x' y' Htr' [Hv|[-> ->]]; [|done].
    rewrite Hcs2 by eauto. by apply Htd.
  - intros x' y' Htr' Hv i. rewrite Hent2 by eauto.
    apply Htt; [done|tauto].
  - intros color Hcol.
    destruct (Hsp color Hcol) as (m & m' & Hm & Hm' & Hshm & Hentm).
    destruct (Hsn color Hcol) as (m0 & Hm0 & _ & Hoff & Hdone).
    assert (m0 = m) as -> by congruence.
    exists m'. split_and!; try done.
    + intros i j Hij. rewrite Hentm, decide_False by lia. by apply Hoff.
    + intros x' y' Htr' [Hv|[-> ->]].
      * rewrite Hentm, decide_False; [by apply Hdone|].
        intros [? _]. by eapply Hne.
      * by rewrite Hentm, decide_True.
  - intros x' y' Htr' [Hv|[-> ->]].
    + rewrite Hpent, decide_False; [by apply Hpd|].
      intros [? _]. by eapply Hne.
    + by rewrite Hpent, decide_True.
Qed.

Lemma NoDup_zrange n : NoDup (zrange n).
Proof. apply NoDup_fmap_2; [apply _|apply NoDup_seq]. Qed.

Lemma elem_of_zrange n z : z ∈ zrange n ↔ (0 ≤ z < Z.of_nat n)%Z.
Proof.
  unfold zrange. rewrite list_elem_of_fmap. split.
  - intros (i & -> & Hi%elem_of_seq). lia.
  - intros Hz. exists (Z.to_nat z). rewrite elem_of_seq. lia.
Qed.

Lemma not_in_prefix {A} (l pre post : list A) a :
  NoDup l → l = pre ++ a :: post → a ∉ pre.
Proof.
  intros Hnd ->. apply NoDup_app in Hnd as (_ & Hd & _).
  intros Hin. apply (Hd _ Hin). set_solver.
Qed.

(** The double loop visits every cell of the grid. *)
Lemma cell_loop_spec s :
  build_inv mz (λ _ _, False) s →
  ∃ s', for_each (zrange (width mz)) (λ x,
          for_each (zrange (height mz)) (λ y, initialize_cell x y)) s
        = (Ok (), s') ∧
    build_inv mz (λ _ _, True) s'.
Proof.
  intros H0.
  destruct (for_each_inv
    (λ pre s, build_inv mz (λ x y, x ∈ pre ∧ y ∈ zrange (height mz)) s)
    (zrange (width mz))
    (λ x, for_each (zrange (height mz)) (λ y, initialize_cell x y))) with s
    as (s' & Hrun & Hfin).
  - intros pre x post s1 Hl HI.
    pose proof (not_in_prefix _ _ _ _ (NoDup_zrange _) Hl) as Hx.
    destruct (for_each_inv
      (λ pre_y s, build_inv mz (λ x' y',
         (x' ∈ pre ∧ y' ∈ zrange (height mz)) ∨ (x' = x ∧ y' ∈ pre_y)) s)
      (zrange (height mz)) (λ y, initialize_cell x y)) with s1
      as (s2 & Hrun2 & Hfin2).
    + intros pre_y y post_y s3 Hly HIy.
      pose proof (not_in_prefix _ _ _ _ (NoDup_zrange _) Hly) as Hy.
      destruct (decide (traversable mz x y)) as [Htr|Hntr].
      * destruct (initialize_cell_spec s3 x y _ HIy Htr) as (s4 & Hrun4 & HI4).
        { intros [[? _]|[_ ?]]; done. }
        exists s4. split; [done|].
        revert HI4. apply build_inv_ext. intros x' y' _.
        rewrite elem_of_app, list_elem_of_singleton. naive_solver.
      * exists s3. split; [apply initialize_cell_closed; [apply HIy|done]|].
        revert HIy. apply build_inv_ext. intros x' y' Htr'.
        rewrite elem_of_app, list_elem_of_singleton.
        split; [tauto|]. intros [?|[-> [?| ->]]]; tauto.
    + revert HI. apply build_inv_ext. intros x' y' _.
      rewrite elem_of_nil. tauto.
    + exists s2. split; [done|].
      revert Hfin2. apply build_inv_ext. intros x' y' _.
      rewrite elem_of_app, list_elem_of_singleton. naive_solver.
  - revert H0. apply build_inv_ext. intros x y _. rewrite elem_of_nil. tauto.
  - exists s'. split; [done|].
    revert Hfin. apply build_inv_ext. intros x y Htr.
    rewrite !elem_of_zrange. pose proof (wf_bounds _ Hwf _ _ Htr). tauto.
Qed.

Lemma sensor_init_spec (l : list ascii) (sp0 : gmap ascii matrix) :
  N ≠ 0%nat →
  ∃ sp : gmap ascii matrix,
    rfold l (λ color (sp : gmap ascii matrix),
               m ← new N N; Ok (<[color := m]> sp)) sp0 = Ok sp ∧
    (∀ color, color ∈ l → sp !! color = Some (zeros N N)) ∧
    (∀ color, color ∉ l → sp !! color = sp0 !! color).
Proof.
  intros HN. rewrite new_ok by done.
  revert sp0. induction l as [|b l IH]; intros sp0.
  - exists sp0. split; [done|]. split; [|done].
    intros ? ?%elem_of_nil. done.
  - simpl.
    destruct (IH (<[b := zeros N N]> sp0)) as (sp & Hrun & Hin & Hout).
    exists sp. split; [done|]. split.
    + intros color Hc. destruct (decide (color ∈ l)) as [?|Hnl]; [eauto|].
      rewrite Hout by done. apply elem_of_cons in Hc as [->|?]; [|done].
      apply lookup_insert_eq.
    + intros color Hc. apply not_elem_of_cons in Hc as [? ?].
      rewrite Hout by done. by apply lookup_insert_ne.
Qed.

(** On a well-formed grid with a traversable cell the constructor returns
    an engine, and every cell has been accounted for. *)
Lemma init_spec :
  (∃ x y, traversable mz x y) →
  ∃ e, init mz = Ok e ∧ build_inv mz (λ _ _, True) e.
Proof.
  intros (x0 & y0 & Htr0).
  pose proof (wf_index_lt _ Hwf _ _ Htr0) as HN.
  pose proof (wf_bounds _ Hwf _ _ Htr0) as [Hw Hh].
  unfold init. rewrite decide_False by lia.
  destruct (sensor_init_spec (colors mz) ∅) as (sp & -> & Hsp & _); [lia|].
  simpl. rewrite !new_ok by lia. simpl.
  unfold initialize_probabilities. rewrite bind_get_self. simpl.
  rewrite new_ok by lia. rewrite (bind_lift_ok _ _ _ (zeros N 1)) by done.
  rewrite (bind_ok _ _ _ () (with_position_distribution (zeros N 1)
     (mkHmm mz N sp (zeros N N) (zeros (width mz) (height mz)) []))) by done.
  edestruct cell_loop_spec as (s' & -> & Hfin); [|by exists s'].
  split; simpl; try done.
  - apply shaped_zeros.
  - intros x y _ _ i. apply entry_zeros.
  - intros color Hcol. exists (zeros N N). split_and!; try done.
    + by apply Hsp.
    + apply shaped_zeros.
    + intros i j _. apply entry_zeros.
  - apply shaped_zeros.
Qed.

End builder.

(** ** Products and normalisation *)

Section products.
Local Open Scope Qc_scope.

Lemma np_dot_ok a b :
  cols a = rows b →
  ∃ m, np_dot a b = Ok m ∧ rows m = rows a ∧ cols m = cols b ∧
    ∀ row, row ∈ data m → length row = cols b.
Proof.
  intros H. unfold np_dot. rewrite decide_True by done.
  eexists. split; [done|]. simpl. split_and!; try done.
  intros row (r & -> & _)%list_elem_of_fmap.
  by rewrite length_fmap, length_seq.
Qed.

Lemma mul_ok a b :
  cols a = rows b →
  ∃ m, mul a b = Ok m ∧ rows m = rows a ∧ cols m = cols b ∧
    ∀ row, row ∈ data m → length row = cols b.
Proof.
  intros H. unfold mul. case_decide; [by apply np_dot_ok|].
  rewrite decide_False by (intros ?; done). by apply np_dot_ok.
Qed.

Lemma sumQc_short l : (length l ≤ 1)%nat → sumQc l = default 0 (l !! 0%nat).
Proof.
  destruct l as [|x [|y l]]; simpl; intros H; try lia.
  - reflexivity.
  - rewrite sumQc_cons, sumQc_nil. ring.
Qed.

(** The mass of a matrix with at most one entry per row is the sum of its
    first column. *)
Lemma mass_vector m :
  (∀ row, row ∈ data m → (length row ≤ 1)%nat) → mass m = colsum m 0.
Proof.
  intros H. unfold mass, colsum, column. f_equal.
  apply list_fmap_ext. intros i row Hrow.
  apply sumQc_short, H. by eapply list_elem_of_lookup_2.
Qed.

Lemma sum_axis0_lookup m j :
  (j < cols m)%nat → sum_axis0 m !! j = Some (colsum m j).
Proof.
  intros Hj. unfold sum_axis0. rewrite list_lookup_fmap.
  by rewrite lookup_seq_lt.
Qed.

Lemma normalize_column m j :
  (j < cols m)%nat →
  column (data (normalize m)) j = (λ x, x / colsum m j) <$> column (data m) j.
Proof.
  intros Hj. unfold normalize, column. simpl.
  rewrite <- !list_fmap_compose. apply list_fmap_ext. intros i row _. simpl.
  rewrite lookup_zip_with, sum_axis0_lookup by done.
  destruct (row !! j); simpl; [done|]. unfold Qcdiv. ring.
Qed.

(** After [normalize] a column whose sum was not zero sums to one. *)
Lemma normalize_colsum m j :
  (j < cols m)%nat → colsum m j ≠ 0 → colsum (normalize m) j = 1.
Proof.
  intros Hj Hne. unfold colsum at 1. rewrite normalize_column by done.
  rewrite sumQc_div. fold (colsum m j). unfold Qcdiv.
  by apply Qcmult_inv_r.
Qed.

Lemma normalize_rows m row :
  row ∈ data (normalize m) → (length row ≤ cols m)%nat.
Proof.
  unfold normalize. simpl. intros (r & -> & _)%list_elem_of_fmap.
  rewrite length_zip_with. unfold sum_axis0.
  rewrite length_fmap, length_seq. lia.
Qed.

(** A column vector of non-zero mass has mass one after [normalize]. *)
Lemma mass_normalize u :
  cols u = 1%nat → (∀ row, row ∈ data u → length row = 1%nat) →
  mass u ≠ 0 → mass (normalize u) = 1.
Proof.
  intros Hc Hrows Hne.
  rewrite mass_vector in Hne by (intros row ?%Hrows; lia).
  rewrite mass_vector.
  - apply normalize_colsum; [lia|done].
  - intros row Hrow%normalize_rows. lia.
Qed.

End products.

(** ** Forward filtering *)

Section forward.
Local Open Scope Qc_scope.

Lemma with_steps_id e : with_steps (steps e) e = e.
Proof. by destruct e. Qed.

Lemma for_each_check_ok (cs : list ascii) (l : list ascii) e :
  Forall (λ c, c ∈ cs) l →
  for_each l (λ reading, if decide (reading ∈ cs) then mret ()
                         else lift (Raise ValueError)) e = (Ok (), e).
Proof.
  induction 1 as [|a l Ha _ IH]; [done|].
  simpl. rewrite decide_True by done. apply IH.
Qed.

Lemma for_each_check_raise (cs : list ascii) (l : list ascii) e :
  ¬ Forall (λ c, c ∈ cs) l →
  for_each l (λ reading, if decide (reading ∈ cs) then mret ()
                         else lift (Raise ValueError)) e
  = (Raise ValueError, e).
Proof.
  induction l as [|a l IH]; intros Hn.
  - destruct Hn. constructor.
  - simpl. destruct (decide (a ∈ cs)) as [Ha|Ha]; [|done].
    apply IH. intros Hl. apply Hn. by constructor.
Qed.

Lemma check_readings_ok l e :
  Forall (λ c, c ∈ colors (maze e)) l → check_readings l e = (Ok (), e).
Proof. intros H. unfold check_readings. by apply for_each_check_ok. Qed.

Lemma check_readings_raise l e :
  ¬ Forall (λ c, c ∈ colors (maze e)) l →
  check_readings l e = (Raise ValueError, e).
Proof. intros H. unfold check_readings. by apply for_each_check_raise. Qed.

Lemma predict_correct_ok e reading d :
  engine_ok e → reading ∈ colors (maze e) →
  rows d = total_positions e → cols d = 1%nat →
  ∃ u, predict_correct e reading d = Ok u ∧
    rows u = total_positions e ∧ cols u = 1%nat ∧
    ∀ row, row ∈ data u → length row = 1%nat.
Proof.
  intros [Htr Htc Hsn _ _] Hin Hr Hc.
  destruct (Hsn _ Hin) as (m & Hm & Hmr & Hmc).
  unfold predict_correct, dict_get. rewrite Hm. simpl.
  destruct (mul_ok (transpose (transitions e)) d) as (d1 & -> & Hr1 & Hc1 & _).
  { simpl. congruence. }
  simpl in *.
  destruct (mul_ok m d1) as (u & -> & Hr2 & Hc2 & Hrows); [congruence|].
  exists u. split_and!; try congruence.
  intros row Hrow%Hrows. congruence.
Qed.

Lemma forward_step_ok e readings step reading d u acc :
  readings !! step = Some reading →
  predict_correct e reading d = Ok u →
  forward_step readings step d (with_steps acc e)
  = (Ok (normalize u), with_steps (acc ++ [normalize u]) e).
Proof.
  intros Hlook Hu. unfold forward_step, seq_get. rewrite Hlook.
  rewrite (bind_lift_ok _ _ _ reading) by done.
  rewrite bind_get_self.
  change (predict_correct (with_steps acc e) reading d)
    with (predict_correct e reading d).
  by rewrite (bind_lift_ok _ _ _ u).
Qed.

Lemma for_fold_cons {A S} (a : A) l (body : A → S → engine S) s :
  for_fold (a :: l) body s = body a s ≫= for_fold l body.
Proof. reflexivity. Qed.

(** The loop of [forward], started at reading [start] with [acc] already
    stored. *)
Lemma forward_loop e readings :
  engine_ok e → Forall (λ c, c ∈ colors (maze e)) readings →
  ∀ rest start acc d,
    drop start readings = rest →
    rows d = total_positions e → cols d = 1%nat →
    ∃ bs d',
      for_fold (seq start (length rest)) (forward_step readings) d
               (with_steps acc e)
      = (Ok d', with_steps (acc ++ bs) e) ∧
      length bs = length rest ∧ belief_chain e d rest bs.
Proof.
  intros Hok Hall. induction rest as [|reading rest IH];
    intros start acc d Hdrop Hr Hc.
  - exists [], d. rewrite app_nil_r. done.
  - assert (readings !! start = Some reading) as Hlook.
    { rewrite <- (Nat.add_0_r start), <- lookup_drop, Hdrop. done. }
    assert (reading ∈ colors (maze e)) as Hin.
    { eapply Forall_forall in Hall; [done|]. by eapply list_elem_of_lookup_2. }
    destruct (predict_correct_ok e reading d Hok Hin Hr Hc)
      as (u & Hu & Hur & Huc & Hurows).
    destruct (IH (S start) (acc ++ [normalize u]) (normalize u))
      as (bs & d' & Hrun & Hlen & Hchain); [|done|done|].
    { apply drop_S in Hlook. rewrite Hdrop in Hlook. by injection Hlook. }
    exists (normalize u :: bs), d'. split; [|split].
    + change (seq start (length (reading :: rest)))
        with (start :: seq (S start) (length rest)).
      rewrite for_fold_cons.
      rewrite (bind_ok _ _ _ _ _ (forward_step_ok _ _ _ _ _ _ acc Hlook Hu)).
      rewrite Hrun. by rewrite <- app_assoc.
    + simpl. by rewrite Hlen.
    + simpl. split; [|done]. exists u. done.
Qed.

(** [forward] on readings of the alphabet: the stored sequence is the
    initial distribution followed by one belief per reading. *)
Lemma forward_spec e readings :
  engine_ok e → Forall (λ c, c ∈ colors (maze e)) (lower readings) →
  ∃ bs,
    forward readings e
    = (Ok (), with_steps (copy (position_distribution e) :: bs) e) ∧
    length bs = length (lower readings) ∧
    belief_chain e (copy (position_distribution e)) (lower readings) bs.
Proof.
  intros Hok Hall.
  destruct (forward_loop e (lower readings) Hok Hall (lower readings) 0
              [copy (position_distribution e)]
              (copy (position_distribution e)))
    as (bs & d' & Hrun & Hlen & Hchain); [done|apply Hok..|].
  exists bs. split; [|done].
  unfold forward.
  rewrite (bind_ok _ _ _ _ _ (check_readings_ok _ _ Hall)).
  rewrite bind_get_self.
  rewrite (bind_ok _ _ e () (with_steps [] e)).
  2: { case_decide; [done|]. unfold mret, engine_ret. f_equal.
       destruct e; simpl in *. f_equal.
       by destruct steps0; [|exfalso; eauto]. }
  rewrite (bind_ok _ _ _ () (with_steps [copy (position_distribution e)] e))
    by done.
  rewrite (bind_ok _ _ _ _ _ Hrun). done.
Qed.

End forward.

(** ** Backward smoothing *)

Section backward.
Local Open Scope Qc_scope.

Global Instance steps_rewritten_preorder : PreOrder steps_rewritten.
Proof.
  split.
  - intros s. split; [apply with_steps_id|done..].
  - intros s1 s2 s3 [F1 L1 H1] [F2 L2 H2]. split; [|congruence..].
    rewrite <- F1 at 2. rewrite <- F2. done.
Qed.

(** A loop whose body moves the state along a preorder does so as a whole,
    whether it ends or raises. *)
Lemma for_fold_frame {A S} (R : relation hmm) `{!PreOrder R}
    (l : list A) (body : A → S → engine S) :
  (∀ a v s, a ∈ l → R s (body a v s).2) →
  ∀ v s, R s (for_fold l body v s).2.
Proof.
  induction l as [|a l IH]; intros Hbody v s; [done|].
  rewrite for_fold_cons. unfold mbind, engine_bind.
  pose proof (Hbody a v s) as Ha.
  destruct (body a v s) as [[v'|e] s1]; simpl in *.
  - etrans; [apply Ha; set_solver|]. apply IH.
    intros. apply Hbody. set_solver.
  - apply Ha. set_solver.
Qed.

Lemma steps_rewritten_set s step m :
  (1 ≤ step)%nat → (step < length (steps s))%nat →
  steps_rewritten s (with_steps (<[step := m]> (steps s)) s).
Proof.
  intros H1 H2. split; simpl.
  - by destruct s.
  - by rewrite length_insert.
  - rewrite list_lookup_insert_ne by lia. done.
Qed.

Lemma backward_step_frame readings step v s :
  (1 ≤ step)%nat → steps_rewritten s (backward_step readings step v s).2.
Proof.
  intros Hstep. unfold backward_step. rewrite bind_get_self.
  destruct (seq_get (steps s) step) as [old|err] eqn:Hold;
    [rewrite (bind_lift_ok _ _ _ old) by done
    |rewrite (bind_lift_raise _ _ _ err) by done; reflexivity].
  destruct (multiply old v) as [m|err] eqn:Hm;
    [rewrite (bind_lift_ok _ _ _ m) by done
    |rewrite (bind_lift_raise _ _ _ err) by done; reflexivity].
  unfold seq_get in Hold.
  destruct (steps s !! step) eqn:Hlook; [|done].
  apply lookup_lt_Some in Hlook.
  unfold seq_set. rewrite decide_True by done.
  rewrite (bind_lift_ok _ _ _ (<[step := m]> (steps s))) by done.
  rewrite (bind_ok _ _ s () (with_steps (<[step := m]> (steps s)) s)) by done.
  rewrite decide_True by (by rewrite length_insert).
  rewrite list_insert_insert_eq.
  rewrite (bind_lift_ok _ _ _ (<[step := normalize m]> (steps s))) by done.
  rewrite (bind_ok _ _ _ () (with_steps (<[step := normalize m]> (steps s)) s))
    by done.
  rewrite bind_get_self.
  pose proof (steps_rewritten_set s step (normalize m) Hstep Hlook) as HR.
  unfold mbind, engine_bind, lift. simpl.
  destruct (seq_get readings (step - 1)) as [reading|]; [|done].
  destruct (dict_get (sensor_probabilities s) reading) as [e|]; [|done].
  destruct (mul e v) as [v1|]; [|done].
  destruct (mul (transitions s) v1); done.
Qed.

(** With a stored sequence [backward] goes straight to the sweep. *)
Lemma backward_stored readings e :
  steps e ≠ [] →
  backward readings e
  = (for_fold (range_down (length (steps e)))
              (backward_step (lower readings))
              (ones (count_positions (maze e)) 1) ≫= λ _, mret ()) e.
Proof.
  intros Hne. unfold backward. rewrite bind_get_self.
  rewrite decide_False by done.
  rewrite (bind_ok _ _ e () e) by done. by rewrite bind_get_self.
Qed.

Lemma elem_of_range_down n a : a ∈ range_down n → (1 ≤ a < n)%nat.
Proof.
  unfold range_down. rewrite elem_of_reverse, elem_of_seq. lia.
Qed.

Lemma backward_keeps readings e :
  steps e ≠ [] → steps_rewritten e (backward readings e).2.
Proof.
  intros Hne. rewrite backward_stored by done.
  unfold mbind at 1, engine_bind.
  pose proof (for_fold_frame steps_rewritten
    (range_down (length (steps e))) (backward_step (lower readings))) as H.
  specialize (H (λ a w s Ha, backward_step_frame (lower readings) a w s
                   (proj1 (elem_of_range_down _ _ Ha)))).
  match goal with |- context [for_fold ?l ?b ?v ?s] =>
    specialize (H v s);
    destruct (for_fold l b v s) as [[?|?] ?] end; done.
Qed.

End backward.

(** ** Viterbi *)

Section viterbi.
Local Open Scope Qc_scope.

Lemma viterbi_state readings e : (viterbi readings e).2 = e.
Proof. reflexivity. Qed.

Lemma getitem_entry m r c i j :
  shaped m r c → (i < r)%nat → (j < c)%nat →
  getitem m i j = Ok (entry m i j).
Proof.
  intros [R C L W] Hi Hj. unfold getitem, entry.
  destruct (data m !! i) as [row|] eqn:E.
  2: { apply lookup_ge_None in E. lia. }
  simpl. pose proof (W _ _ E).
  destruct (row !! j) eqn:E'; [done|].
  apply lookup_ge_None in E'. lia.
Qed.

Lemma rfold_inv {A S} (I : list A → S → Prop) (l : list A)
    (body : A → S → result S) :
  (∀ pre a post s, l = pre ++ a :: post → I pre s →
     ∃ s', body a s = Ok s' ∧ I (pre ++ [a]) s') →
  ∀ s, I [] s → ∃ s', rfold l body s = Ok s' ∧ I l s'.
Proof.
  intros Hbody.
  assert (∀ rest pre s, l = pre ++ rest → I pre s →
            ∃ s', rfold rest body s = Ok s' ∧ I l s') as Hgen.
  { induction rest as [|a rest IH]; intros pre s Hl HI.
    - rewrite app_nil_r in Hl. subst pre. by exists s.
    - destruct (Hbody pre a rest s Hl HI) as (s1 & Hrun & HI1).
      destruct (IH (pre ++ [a]) s1) as (s2 & Hrun2 & HI2); [|done|].
      { by rewrite <- app_assoc. }
      exists s2. split; [|done]. simpl. by rewrite Hrun. }
  intros s HI. by apply (Hgen l []).
Qed.

(** The first loop of [viterbi] fills row 0 of [delta] with
    [initial[pos, 0] * transitions[pos, pos]] and leaves the other rows at
    zero. *)
Lemma viterbi_init_spec e len :
  shaped (position_distribution e) (total_positions e) 1 →
  shaped (transitions e) (total_positions e) (total_positions e) →
  len ≠ 0%nat →
  ∃ d, viterbi_init e len = Ok d ∧ shaped d len (total_positions e) ∧
    ∀ t pos, entry d t pos =
      if decide (t = 0%nat ∧ pos < total_positions e)%nat
      then entry (position_distribution e) pos 0 * entry (transitions e) pos pos
      else 0.
Proof.
  intros Hp Ht Hlen. unfold viterbi_init.
  destruct (rfold_inv
    (λ pre d, shaped d len (total_positions e) ∧
       ∀ t pos, entry d t pos =
         if decide (t = 0%nat ∧ pos ∈ pre)
         then entry (position_distribution e) pos 0
              * entry (transitions e) pos pos
         else 0)
    (seq 0 (total_positions e))
    (λ pos delta,
       a ← getitem (position_distribution e) pos 0;
       b ← getitem (transitions e) pos pos;
       setitem delta 0 pos (a * b)))
    with (zeros len (total_positions e)) as (d & Hrun & Hsh & Hent).
  - intros pre pos post d Hl [Hsh Hent].
    assert (pos < total_positions e)%nat as Hpos.
    { assert (pos ∈ seq 0 (total_positions e)) as Hin
        by (rewrite Hl; set_solver).
      apply elem_of_seq in Hin. lia. }
    rewrite (getitem_entry _ _ _ _ _ Hp) by lia. simpl.
    rewrite (getitem_entry _ _ _ _ _ Ht) by lia. simpl.
    destruct (setitem_ok d _ _ 0 pos
      (entry (position_distribution e) pos 0 * entry (transitions e) pos pos)
      Hsh) as (d' & Hset & Hsh' & Hent' & _); [lia|done|].
    exists d'. split; [done|]. split; [done|].
    intros t p. rewrite Hent', Hent.
    repeat case_decide; try done; destruct_and?; subst;
      try done; exfalso; set_solver.
  - split; [apply shaped_zeros|]. intros t pos. rewrite entry_zeros.
    case_decide as H; [|done]. destruct H as [_ H]. by apply elem_of_nil in H.
  - exists d. split; [done|]. split; [done|].
    intros t pos. rewrite Hent.
    repeat case_decide; try done; destruct_and?; exfalso.
    + match goal with H : ¬ _ |- _ => apply H end. split; [done|].
      match goal with H : _ ∈ seq _ _ |- _ => apply elem_of_seq in H end. lia.
    + match goal with H : ¬ _ |- _ => apply H end. split; [done|].
      apply elem_of_seq. lia.
Qed.

End viterbi.

(** ** Consequences for a built engine *)

Section built.
Local Open Scope Qc_scope.

Lemma copy_id m : copy m = m.
Proof. by destruct m. Qed.

Lemma length_lower s : length (lower s) = String.length s.
Proof.
  unfold lower. rewrite length_fmap.
  induction s as [|c s IH]; simpl; [done|]. by rewrite IH.
Qed.

Lemma wrong_color_value : WRONG_COLOR = Q2Qc (12 # 100).
Proof. apply Qc_is_canon. reflexivity. Qed.

Lemma correct_color_value : CORRECT_COLOR = Q2Qc (88 # 100).
Proof. reflexivity. Qed.

Lemma Qc_of_Z_minus_1 z : Qc_of_Z (z - 1) = Qc_of_Z z - 1.
Proof.
  apply Qc_is_canon. unfold Qcminus, Qcplus, Qcopp, Qc_of_Z. cbn [this Q2Qc].
  rewrite !Qred_correct. unfold Qeq, Qplus, Qopp, inject_Z. simpl. lia.
Qed.

Lemma engine_ok_steps l e : engine_ok e → engine_ok (with_steps l e).
Proof. intros [? ? ? ? ?]. by split. Qed.

Lemma build_inv_engine_ok mz e :
  build_inv mz (λ _ _, True) e → engine_ok e.
Proof.
  intros [Hmz Htot _ Hsh _ _ Hsn Hpsh _]. rewrite <- Htot in *.
  split; try apply Hsh; try apply Hpsh.
  rewrite Hmz. intros c Hc. destruct (Hsn c Hc) as (m & Hm & Hshm & _).
  exists m. split; [done|]. split; apply Hshm.
Qed.

(** The initial distribution of a built engine is uniform. *)
Lemma build_inv_uniform mz e :
  maze_wf mz → build_inv mz (λ _ _, True) e →
  position_distribution e = uniform (count_positions mz).
Proof.
  intros Hwf [_ _ _ _ _ _ _ Hpsh Hpd].
  eapply matrix_ext; [done|apply shaped_full|].
  intros i j Hi Hj. assert (j = 0%nat) as -> by lia.
  destruct (wf_index_surj _ Hwf i Hi) as (x & y & Htr & <-).
  rewrite Hpd by done. unfold uniform. rewrite entry_full.
  rewrite decide_True; [done|]. split; [|lia].
  by apply (wf_index_lt _ Hwf).
Qed.

Lemma init_built mz e0 :
  maze_wf mz → init mz = Ok e0 → build_inv mz (λ _ _, True) e0.
Proof.
  intros Hwf He.
  assert (∃ x y, traversable mz x y) as Hex.
  { unfold init in He. case_decide as HN; [done|].
    destruct (wf_index_surj _ Hwf 0%nat) as (x & y & Htr & _); [lia|eauto]. }
  destruct (init_spec mz Hwf Hex) as (e & He' & Hinv). congruence.
Qed.

Lemma belief_chain_steps l e d0 readings bs :
  belief_chain (with_steps l e) d0 readings bs → belief_chain e d0 readings bs.
Proof.
  revert d0 bs. induction readings as [|r readings IH];
    intros d0 [|b bs]; simpl; try done.
  intros [H1 H2]. split; [done|]. by apply IH.
Qed.

Lemma belief_chain_lookup e d0 readings bs t reading :
  belief_chain e d0 readings bs → readings !! t = Some reading →
  ∃ prev u, (d0 :: bs) !! t = Some prev ∧
    predict_correct e reading prev = Ok u ∧
    (d0 :: bs) !! S t = Some (normalize u) ∧
    cols u = 1%nat ∧ (∀ row, row ∈ data u → length row = 1%nat).
Proof.
  revert d0 bs t. induction readings as [|r readings IH];
    intros d0 [|b bs] t Hchain Hlook; try done.
  destruct Hchain as [(u & Hu & -> & Hc & Hrows) Hchain].
  destruct t as [|t].
  - injection Hlook as ->. exists d0, u. done.
  - simpl in Hlook. destruct (IH _ _ _ Hchain Hlook)
      as (prev & u' & H1 & H2 & H3 & H4). exists prev, u'. done.
Qed.

End built.

(** ** The corridor *)

Section corridor.

Lemma corridor_traversable cells x y :
  traversable (corridor cells) x y ↔
  y = 0%Z ∧ (0 ≤ x)%Z ∧ ∃ c, cells !! Z.to_nat x = Some c ∧ c ≠ wall.
Proof.
  unfold traversable, corridor, open_char. simpl. case_decide as H.
  - destruct (cells !! Z.to_nat x) as [c|] eqn:E.
    + rewrite bool_decide_eq_true. naive_solver.
    + naive_solver.
  - naive_solver.
Qed.

Lemma corridor_wf cells : wall ∉ cells → maze_wf (corridor cells).
Proof.
  intros Hw. split.
  - intros x y (-> & Hx & c & Hc%lookup_lt_Some & _)%corridor_traversable.
    simpl. lia.
  - intros x y (-> & Hx & c & Hc%lookup_lt_Some & _)%corridor_traversable.
    simpl. lia.
  - intros x y x' y' (-> & Hx & _)%corridor_traversable
      (-> & Hx' & _)%corridor_traversable. simpl. lia.
  - intros i Hi. simpl in Hi.
    destruct (lookup_lt_is_Some_2 cells i Hi) as [c Hc].
    exists (Z.of_nat i), 0%Z. split; [|simpl; lia].
    apply corridor_traversable. split; [done|]. split; [lia|].
    exists c. rewrite Nat2Z.id. split; [done|].
    intros ->. apply Hw. by eapply list_elem_of_lookup_2.
  - apply NoDup_remove_dups.
  - intros x y c Hc _. simpl in *. case_decide; [|done].
    apply elem_of_remove_dups. by eapply list_elem_of_lookup_2.
  - done.
Qed.

Lemma rgb_wf : maze_wf rgb.
Proof. apply corridor_wf. unfold wall. set_solver. Qed.

Lemma rgb_traversable : ∃ x y, traversable rgb x y.
Proof. exists 0%Z, 0%Z. reflexivity. Qed.

Lemma rgb_engine_built : init rgb = Ok rgb_engine.
Proof.
  unfold rgb_engine. destruct (init rgb) as [e|err] eqn:He; [done|].
  by vm_compute in He.
Qed.


Lemma rgb_engine_maze : maze rgb_engine = rgb.
Proof.
  eapply bi_maze, init_built; [apply rgb_wf|apply rgb_engine_built].
Qed.

Lemma rgb_readings_valid :
  ∀ c, c ∈ lower "RGB" → c ∈ colors (maze rgb_engine).
Proof.
  intros c Hc. rewrite rgb_engine_maze. vm_compute in Hc. vm_compute.
  set_solver.
Qed.

Lemma rx_reading_unknown :
  ∃ c, c ∈ lower "RX" ∧ c ∉ colors (maze rgb_engine).
Proof.
  exists "x"%char. split.
  - vm_compute. set_solver.
  - rewrite rgb_engine_maze. vm_compute. set_solver.
Qed.

End corridor.

(** ** The product with an identity array *)

Section identity.
Local Open Scope Qc_scope.

Lemma column_np_eye n j :
  (j < n)%nat →
  column (np_eye n) j = (λ i, if decide (i = j) then 1 else 0) <$> seq 0 n.
Proof.
  intros Hj. unfold column, np_eye. rewrite <- list_fmap_compose.
  apply list_fmap_ext. intros _ i _. simpl.
  rewrite list_lookup_fmap, lookup_seq_lt by done. done.
Qed.

Lemma dot_unit (r : list Qc) j s :
  dot r ((λ i, if decide (i = j) then 1 else 0) <$> seq s (length r))
  = if decide (s ≤ j)%nat then default 0 (r !! (j - s)%nat) else 0.
Proof.
  revert s. induction r as [|x r IH]; intros s.
  - unfold dot. simpl. rewrite sumQc_nil. by case_decide.
  - unfold dot in *. simpl. rewrite sumQc_cons, IH.
    destruct (decide (s = j)) as [->|Hne].
    + rewrite decide_False by lia. rewrite decide_True by lia.
      rewrite Nat.sub_diag. simpl. ring.
    + destruct (decide (s ≤ j)%nat) as [Hle|Hgt].
      * rewrite decide_True by lia.
        replace (j - s)%nat with (S (j - S s)) by lia. simpl. ring.
      * rewrite decide_False by lia. ring.
Qed.

(** Multiplying by the array [np.identity(n)] of an integer [n] gives the
    matrix back: the product itself is sound. *)
Lemma mul_np_eye m r n :
  shaped m r n → mul m (mk n n (np_eye n)) = Ok m.
Proof.
  intros [R C L W]. unfold mul, np_dot. simpl.
  assert (Ok (mk (rows m) n
            ((λ row, (λ j, dot row (column (np_eye n) j)) <$> seq 0 n)
               <$> data m)) = Ok m) as Hgoal.
  { f_equal. destruct m as [r0 c0 d]; simpl in *. subst r0 c0. f_equal.
    rewrite <- (list_fmap_id d) at 2. apply list_fmap_ext.
    intros i row Hrow. simpl. pose proof (W _ _ Hrow) as Hlen.
    apply list_eq. intros j. rewrite list_lookup_fmap.
    destruct (decide (j < n)%nat) as [Hj|Hj].
    - rewrite lookup_seq_lt by done. simpl.
      rewrite column_np_eye by done. rewrite <- Hlen at 1.
      rewrite dot_unit, decide_True by lia. rewrite Nat.sub_0_r.
      destruct (row !! j) eqn:E; [done|].
      apply lookup_ge_None in E. lia.
    - rewrite lookup_ge_None_2 by (rewrite length_seq; lia).
      symmetry. apply lookup_ge_None. lia. }
  repeat case_decide; try done; lia.
Qed.

End identity.

(** * The claims *)

Section claims.
Local Open Scope Qc_scope.

(** C1.  On every well-formed grid with at least one traversable cell the
    constructor returns an engine in whose transition matrix the column of
    every traversable state sums to exactly 1: the move probabilities
    written below its open neighbours plus the stay-put mass on the
    diagonal. *)
Theorem transition_columns_sum_to_one (mz : Maze) :
  maze_wf mz → (∃ x y, traversable mz x y) →
  ∃ e, init mz = Ok e ∧
    ∀ x y, traversable mz x y →
      colsum (transitions e) (index mz x y) = 1.
Proof.
  intros Hwf Hex. destruct (init_spec mz Hwf Hex) as (e & He & Hinv).
  exists e. split; [done|]. intros x y Htr. by apply (bi_t_done _ _ _ Hinv).
Qed.

Lemma transition_columns_sum_to_one_witness :
  maze_wf rgb ∧ (∃ x y, traversable rgb x y) ∧
  ∃ e, init rgb = Ok e ∧
    ∀ x y, traversable rgb x y → colsum (transitions e) (index rgb x y) = 1.
Proof.
  split; [apply rgb_wf|]. split; [apply rgb_traversable|].
  apply (transition_columns_sum_to_one rgb rgb_wf rgb_traversable).
Defined.

(** C3.  In a built engine the emission matrix of every colour of the
    alphabet has, at the index of every traversable cell, the diagonal entry
    0.88 when the cell shows that colour and 0.12 / (num_colors - 1)
    otherwise (a case that needs a second colour), and every off-diagonal
    entry is 0. *)
Theorem emission_entries (mz : Maze) :
  maze_wf mz → (∃ x y, traversable mz x y) →
  ∃ e, init mz = Ok e ∧
    ∀ color, color ∈ colors mz →
      ∃ m, sensor_probabilities e !! color = Some m ∧
        shaped m (count_positions mz) (count_positions mz) ∧
        (∀ x y, traversable mz x y →
           (get_char mz x y = Some color →
              entry m (index mz x y) (index mz x y) = Q2Qc (88 # 100)) ∧
           (get_char mz x y ≠ Some color →
              color_count mz ≠ 1%nat ∧
              entry m (index mz x y) (index mz x y)
              = Q2Qc (12 # 100)
                / (Qc_of_Z (Z.of_nat (color_count mz)) - 1))) ∧
        (∀ i j, i ≠ j → entry m i j = 0).
Proof.
  intros Hwf Hex. destruct (init_spec mz Hwf Hex) as (e & He & Hinv).
  exists e. split; [done|]. intros color Hcol.
  destruct (bi_sensor _ _ _ Hinv color Hcol) as (m & Hm & Hsh & Hoff & Hdiag).
  exists m. split_and!; try done.
  intros x y Htr. rewrite Hdiag by done. unfold emission_value. split.
  - intros ->. by rewrite decide_True.
  - intros Hne. rewrite decide_False by congruence. split.
    + intros Hone. apply Hne. symmetry. by eapply single_color.
    + by rewrite wrong_color_value, Qc_of_Z_minus_1.
Qed.

Lemma emission_entries_witness :
  maze_wf rgb ∧ (∃ x y, traversable rgb x y) ∧
  ∃ e, init rgb = Ok e ∧
    ∀ color, color ∈ colors rgb →
      ∃ m, sensor_probabilities e !! color = Some m ∧
        shaped m (count_positions rgb) (count_positions rgb) ∧
        (∀ x y, traversable rgb x y →
           (get_char rgb x y = Some color →
              entry m (index rgb x y) (index rgb x y) = Q2Qc (88 # 100)) ∧
           (get_char rgb x y ≠ Some color →
              color_count rgb ≠ 1%nat ∧
              entry m (index rgb x y) (index rgb x y)
              = Q2Qc (12 # 100)
                / (Qc_of_Z (Z.of_nat (color_count rgb)) - 1))) ∧
        (∀ i j, i ≠ j → entry m i j = 0).
Proof.
  split; [apply rgb_wf|]. split; [apply rgb_traversable|].
  apply (emission_entries rgb rgb_wf rgb_traversable).
Defined.

Lemma forward_built mz e0 before readings :
  maze_wf mz → init mz = Ok e0 →
  (∀ c, c ∈ lower readings → c ∈ colors mz) →
  ∃ bs,
    forward readings (with_steps before e0)
    = (Ok (), with_steps (uniform (count_positions mz) :: bs) e0) ∧
    length bs = String.length readings ∧
    belief_chain e0 (uniform (count_positions mz)) (lower readings) bs.
Proof.
  intros Hwf He Hvalid. pose proof (init_built _ _ Hwf He) as Hinv.
  pose proof (build_inv_engine_ok _ _ Hinv) as Hok.
  destruct (forward_spec (with_steps before e0) readings) as (bs & Hrun & Hlen & Hchain).
  { by apply engine_ok_steps. }
  { apply Forall_forall. simpl. rewrite (bi_maze _ _ _ Hinv). done. }
  simpl in Hrun. rewrite copy_id, (build_inv_uniform _ _ Hwf Hinv) in Hrun.
  exists bs. split; [done|]. rewrite <- length_lower. split; [done|].
  apply belief_chain_steps in Hchain. simpl in Hchain.
  by rewrite copy_id, (build_inv_uniform _ _ Hwf Hinv) in Hchain.
Qed.

(** C4.  On a built engine, whatever sequence an earlier call left,
    [forward] on readings of the alphabet returns and stores a sequence of
    |readings| + 1 entries whose entry 0 is the uniform distribution; on the
    empty text the sequence is that distribution alone. *)
Theorem forward_sequence_length (mz : Maze) (e0 : hmm) (before : list matrix)
    (readings : string) :
  maze_wf mz → init mz = Ok e0 →
  (∀ c, c ∈ lower readings → c ∈ colors mz) →
  ∃ sq,
    forward readings (with_steps before e0) = (Ok (), with_steps sq e0) ∧
    length sq = (String.length readings + 1)%nat ∧
    sq !! 0%nat = Some (uniform (count_positions mz)) ∧
    (readings = ""%string → sq = [uniform (count_positions mz)]).
Proof.
  intros Hwf He Hvalid.
  destruct (forward_built mz e0 before readings Hwf He Hvalid)
    as (bs & Hrun & Hlen & _).
  exists (uniform (count_positions mz) :: bs). split_and!; try done.
  - simpl. lia.
  - intros ->. by destruct bs.
Qed.

Lemma forward_sequence_length_witness :
  maze_wf rgb ∧ init rgb = Ok rgb_engine ∧
  (∀ c, c ∈ lower "RGB" → c ∈ colors rgb) ∧
  ∃ sq,
    forward "RGB" (with_steps [] rgb_engine)
    = (Ok (), with_steps sq rgb_engine) ∧
    length sq = (String.length "RGB" + 1)%nat ∧
    sq !! 0%nat = Some (uniform (count_positions rgb)) ∧
    ("RGB"%string = ""%string → sq = [uniform (count_positions rgb)]).
Proof.
  pose proof rgb_readings_valid as Hvalid. rewrite rgb_engine_maze in Hvalid.
  split; [apply rgb_wf|]. split; [apply rgb_engine_built|]. split; [done|].
  apply (forward_sequence_length rgb rgb_engine [] "RGB" rgb_wf
           rgb_engine_built Hvalid).
Defined.

(** C5.  On a built engine and readings of the alphabet, every belief that
    [forward] stores after an update is the normalised update of the
    belief before it, and its entries sum to 1 whenever the update had
    non-zero total mass (exact arithmetic: no rounding to tolerate). *)
Theorem forward_beliefs_normalised (mz : Maze) (e0 : hmm)
    (before : list matrix) (readings : string) :
  maze_wf mz → init mz = Ok e0 →
  (∀ c, c ∈ lower readings → c ∈ colors mz) →
  ∃ sq,
    forward readings (with_steps before e0) = (Ok (), with_steps sq e0) ∧
    ∀ t reading, lower readings !! t = Some reading →
      ∃ prev u, sq !! t = Some prev ∧
        predict_correct e0 reading prev = Ok u ∧
        sq !! S t = Some (normalize u) ∧
        (mass u ≠ 0 → mass (normalize u) = 1).
Proof.
  intros Hwf He Hvalid.
  destruct (forward_built mz e0 before readings Hwf He Hvalid)
    as (bs & Hrun & _ & Hchain).
  exists (uniform (count_positions mz) :: bs). split; [done|].
  intros t reading Hlook.
  destruct (belief_chain_lookup _ _ _ _ _ _ Hchain Hlook)
    as (prev & u & H1 & H2 & H3 & Hc & Hrows).
  exists prev, u. split_and!; try done.
  by apply mass_normalize.
Qed.

Lemma forward_beliefs_normalised_witness :
  maze_wf rgb ∧ init rgb = Ok rgb_engine ∧
  (∀ c, c ∈ lower "RGB" → c ∈ colors rgb) ∧
  ∃ sq,
    forward "RGB" (with_steps [] rgb_engine)
    = (Ok (), with_steps sq rgb_engine) ∧
    ∀ t reading, lower "RGB" !! t = Some reading →
      ∃ prev u, sq !! t = Some prev ∧
        predict_correct rgb_engine reading prev = Ok u ∧
        sq !! S t = Some (normalize u) ∧
        (mass u ≠ 0 → mass (normalize u) = 1).
Proof.
  pose proof rgb_readings_valid as Hvalid. rewrite rgb_engine_maze in Hvalid.
  split; [apply rgb_wf|]. split; [apply rgb_engine_built|]. split; [done|].
  apply (forward_beliefs_normalised rgb rgb_engine [] "RGB" rgb_wf
           rgb_engine_built Hvalid).
Defined.

(** C6.  When some reading, lowered, is outside the colours of the grid,
    [forward] raises [ValueError] and the engine is exactly what it was:
    stored sequence, transition model, emission model and initial
    distribution. *)
Theorem forward_unknown_label (e : hmm) (readings : string) :
  (∃ c, c ∈ lower readings ∧ c ∉ colors (maze e)) →
  forward readings e = (Raise ValueError, e).
Proof.
  intros (c & Hc & Hn). unfold forward.
  apply bind_raise, check_readings_raise.
  rewrite Forall_forall. intros H. by apply Hn, H.
Qed.

Lemma forward_unknown_label_witness :
  (∃ c, c ∈ lower "RX" ∧ c ∉ colors (maze rgb_engine)) ∧
  forward "RX" rgb_engine = (Raise ValueError, rgb_engine).
Proof.
  split; [apply rx_reading_unknown|].
  apply (forward_unknown_label rgb_engine "RX" rx_reading_unknown).
Defined.

End claims.

Section claims_viterbi.
Local Open Scope Qc_scope.

Lemma viterbi_last_ok e len d :
  shaped d len (total_positions e) → len ≠ 0%nat →
  ∃ path, viterbi_last e len d = Ok path.
Proof.
  intros Hsh Hlen. unfold viterbi_last.
  destruct (rfold_inv
    (λ (_ : list nat) (s : Qc * list Qc), length s.2 = len)
    (seq 0 (total_positions e))
    (λ step '(max_probability, path),
       v ← getitem d (len - 1) step;
       if decide (max_probability < v) then
         v ← getitem d (len - 1) step;
         path ← seq_set path (len - 1) (Qc_of_Z (Z.of_nat step));
         Ok (v, path)
       else Ok (max_probability, path)))
    with (Q2Qc 0, replicate len (Q2Qc 0)) as ([mx path] & Hrun & _).
  - intros pre step post [mx path] Hl Hpath. simpl in Hpath.
    assert (step < total_positions e)%nat as Hstep.
    { assert (step ∈ seq 0 (total_positions e)) as Hin
        by (rewrite Hl; set_solver).
      apply elem_of_seq in Hin. lia. }
    rewrite (getitem_entry _ _ _ _ _ Hsh) by lia. simpl.
    case_decide; [|by eexists].
    unfold seq_set. rewrite decide_True by lia. simpl.
    eexists. split; [done|]. simpl. by rewrite length_insert.
  - simpl. apply length_replicate.
  - exists path. by rewrite Hrun.
Qed.

(** For a non-empty text the first loop of [viterbi] returns a table
    whose row 0 holds, at the index of every traversable cell, the initial
    probability of the cell times its self-transition entry; no emission
    entry takes part.  With a single reading this is the table [viterbi]
    ends with. *)
Lemma viterbi_first_loop (mz : Maze) (e0 : hmm) (before : list matrix)
    (readings : string) :
  maze_wf mz → init mz = Ok e0 → readings ≠ ""%string →
  ∃ d,
    viterbi_init (with_steps before e0) (String.length readings) = Ok d ∧
    (∀ x y, traversable mz x y →
       entry d 0 (index mz x y)
       = entry (position_distribution e0) (index mz x y) 0
         * entry (transitions e0) (index mz x y) (index mz x y)) ∧
    (String.length readings = 1%nat →
       ∃ p path, viterbi_run (with_steps before e0) (lower readings)
                 = Ok (mkTables d p, path)).
Proof.
  intros Hwf He Hne. pose proof (init_built _ _ Hwf He) as Hinv.
  pose proof (bi_total _ _ _ Hinv) as Htot.
  assert (String.length readings ≠ 0%nat) as Hlen by (by destruct readings).
  destruct (viterbi_init_spec (with_steps before e0) (String.length readings))
    as (d & Hrun & Hsh & Hent); [simpl; rewrite Htot; apply Hinv..|done|].
  exists d. split; [done|]. split.
  - intros x y Htr. rewrite Hent. simpl.
    rewrite decide_True; [done|]. split; [done|].
    rewrite Htot. by apply (wf_index_lt _ Hwf).
  - intros Hone. unfold viterbi_run. rewrite length_lower, Hrun. simpl.
    unfold viterbi_fill. rewrite length_lower, Hone. simpl.
    destruct (viterbi_last_ok (with_steps before e0) 1 d) as (path & Hpath);
      [by rewrite <- Hone|done|].
    rewrite Hpath. simpl. by eexists _, _.
Qed.

(** C7.  The first loop of [viterbi] writes into row 0 of [delta], for
    every state, its initial probability times its self-transition entry,
    on every built engine and for every non-empty text, and a text of one
    reading ends with that table.  The table of a longer text does not
    keep the row: on the corridor r-g-b and the text "RG" the first loop
    leaves 1/4, 1/6, 1/4, and [viterbi] returns with row 0 at 200/209,
    25/36, 4/7.  The normalisation inside the recurrence has rescaled the
    row; no column sum is zero on the way. *)
Theorem viterbi_initial_row_rescaled :
  (∀ (mz : Maze) (e0 : hmm) (before : list matrix) (readings : string),
     maze_wf mz → init mz = Ok e0 → readings ≠ ""%string →
     ∃ d,
       viterbi_init (with_steps before e0) (String.length readings) = Ok d ∧
       (∀ x y, traversable mz x y →
          entry d 0 (index mz x y)
          = entry (position_distribution e0) (index mz x y) 0
            * entry (transitions e0) (index mz x y) (index mz x y)) ∧
       (String.length readings = 1%nat →
          ∃ p path, viterbi_run (with_steps before e0) (lower readings)
                    = Ok (mkTables d p, path))) ∧
  (∃ d, viterbi_init rgb_engine 2 = Ok d ∧
     entry d 0 <$> [0; 1; 2]%nat
     = [Q2Qc (1 # 4); Q2Qc (1 # 6); Q2Qc (1 # 4)]) ∧
  (∃ tb path,
     viterbi_run rgb_engine (lower "RG") = Ok (tb, path) ∧
     entry (delta tb) 0 <$> [0; 1; 2]%nat
     = [Q2Qc (200 # 209); Q2Qc (25 # 36); Q2Qc (4 # 7)] ∧
     (λ s, entry (position_distribution rgb_engine) s 0
           * entry (transitions rgb_engine) s s) <$> [0; 1; 2]%nat
     = [Q2Qc (1 # 4); Q2Qc (1 # 6); Q2Qc (1 # 4)]).
Proof.
  split_and!.
  - intros mz e0 before readings Hwf He Hne.
    by apply (viterbi_first_loop mz).
  - destruct (viterbi_init rgb_engine 2) as [d|] eqn:H;
      [|by vm_compute in H].
    exists d. split; [done|]. vm_compute in H. injection H as <-.
    apply (bool_decide_eq_true_1 _). by vm_compute.
  - destruct (viterbi_run rgb_engine (lower "RG")) as [[tb path]|] eqn:H;
      [|by vm_compute in H].
    exists tb, path. split; [done|].
    vm_compute in H. injection H as <- <-.
    split; apply (bool_decide_eq_true_1 _); by vm_compute.
Qed.

(** C2.  On the corridor r-g-b and the text "RGB" [viterbi] returns, but its
    table does not obey the recurrence: [delta[2, 0]] is 863/183263 where
    the largest [delta[1, prev] * transitions[prev, 0]] times the emission
    entry is 11/2422; the two already differ in the table as it stands when
    state 0 of step 2 has just been completed (2589/590350 against 11/2400).
    No column sum is zero on the way, so no quotient by zero is involved. *)
Theorem viterbi_recurrence_broken :
  (∃ tb path,
     viterbi_run rgb_engine (lower "RGB") = Ok (tb, path) ∧
     entry (delta tb) 2 0 = Q2Qc (863 # 183263) ∧
     recurrence_rhs rgb_engine (lower "RGB") (delta tb) 2 0
     = Q2Qc (11 # 2422)) ∧
  (∃ tb,
     (d ← viterbi_init rgb_engine 3;
      tb ← rfold (seq 0 3) (viterbi_curr rgb_engine (lower "RGB") 1)
                 (mkTables d (copy (zeros 3 3)));
      viterbi_curr rgb_engine (lower "RGB") 2 0 tb) = Ok tb ∧
     entry (delta tb) 2 0 = Q2Qc (2589 # 590350) ∧
     recurrence_rhs rgb_engine (lower "RGB") (delta tb) 2 0
     = Q2Qc (11 # 2400)).
Proof.
  split.
  - destruct (viterbi_run rgb_engine (lower "RGB")) as [[tb path]|] eqn:H;
      [|by vm_compute in H].
    exists tb, path. split; [done|].
    vm_compute in H. injection H as <- <-.
    split; apply Qc_is_canon; vm_compute; reflexivity.
  - match goal with |- ∃ tb, ?r = _ ∧ _ =>
      destruct r as [tb|] eqn:H; [|by vm_compute in H] end.
    exists tb. split; [done|].
    vm_compute in H. injection H as <-.
    split; apply Qc_is_canon; vm_compute; reflexivity.
Qed.

End claims_viterbi.

Section claims_sequence.
Local Open Scope Qc_scope.

(** Once the readings pass its check, [forward] continues from an empty
    sequence: it forgets the one it found. *)
Lemma forward_valid s readings :
  (∀ c, c ∈ lower readings → c ∈ colors (maze s)) →
  forward readings s
  = (append_step (copy (position_distribution s));;
     for_fold (seq 0 (length (lower readings)))
       (forward_step (lower readings)) (copy (position_distribution s));;
     mret ()) (with_steps [] s).
Proof.
  intros Hvalid. apply Forall_forall in Hvalid. unfold forward.
  rewrite (bind_ok _ _ _ _ _ (check_readings_ok _ _ Hvalid)).
  rewrite bind_get_self.
  rewrite (bind_ok _ _ s () (with_steps [] s)); [done|].
  case_decide as H; [done|].
  unfold mret, engine_ret. f_equal. destruct s as [? ? ? ? ? l]; simpl in *.
  f_equal. destruct l; [done|]. by destruct H.
Qed.

Lemma forward_fresh e before before' readings :
  (∀ c, c ∈ lower readings → c ∈ colors (maze e)) →
  forward readings (with_steps before e)
  = forward readings (with_steps before' e).
Proof. intros Hvalid. by rewrite !forward_valid. Qed.

Lemma bind_mret_snd {A} (m : engine A) s :
  ((m ≫= λ _, mret ()) s).2 = (m s).2.
Proof. unfold mbind, engine_bind. by destruct (m s) as [[?|?] ?]. Qed.

Lemma lower_ascii_idem c : lower_ascii (lower_ascii c) = lower_ascii c.
Proof. by destruct c as [[] [] [] [] [] [] [] []]. Qed.

Lemma lower_idem readings :
  lower (string_of_list_ascii (lower readings)) = lower readings.
Proof.
  unfold lower at 1. rewrite list_ascii_of_string_of_list_ascii.
  unfold lower. rewrite <- list_fmap_compose.
  apply list_fmap_ext. intros _ c _. apply lower_ascii_idem.
Qed.





(** C9.  [Matrix.identity] hands the tuple of its arguments to
    [np.identity], which wants an integer: every call raises, and no
    identity matrix is there to multiply by.  The product is not at fault:
    with the array [np.identity(n)] of an integer [n], [m * identity] is
    [m] for every matrix [m] of [n] columns. *)
Theorem identity_constructor_raises (dims : list nat) (m : matrix)
    (r n : nat) :
  shaped m r n →
  identity dims = Raise TypeError ∧
  ∃ i, np_identity (ArgInt n) = Ok i ∧ mul m i = Ok m.
Proof.
  intros Hsh. split; [reflexivity|].
  exists (mk n n (np_eye n)). split; [reflexivity|].
  by eapply mul_np_eye.
Qed.

Lemma identity_constructor_raises_witness :
  shaped (mk 2 2 [[1; 2]; [2; 1]]) 2 2 ∧
  identity [2%nat] = Raise TypeError ∧
  ∃ i, np_identity (ArgInt 2) = Ok i ∧
       mul (mk 2 2 [[1; 2]; [2; 1]]) i
       = Ok (mk 2 2 [[1; 2]; [2; 1]]).
Proof.
  assert (shaped (mk 2 2 [[1; 2]; [2; 1]]) 2 2) as Hsh.
  { split; simpl; try done.
    intros [|[|i]] row Hrow; simpl in Hrow; by simplify_eq. }
  split; [done|].
  apply (identity_constructor_raises [2%nat] _ 2 2 Hsh).
Defined.

(** C10.  [backward] on the engine left by [forward("RGB")], given "RXB":
    the text has a label outside the alphabet, no check stops it, and the
    call ends in [KeyError] after the sweep has rewritten the belief at
    step 2 and before it reaches step 1. *)
Theorem backward_partial_update :
  ∃ (e : hmm) (readings : string) (e' : hmm),
    steps e ≠ [] ∧
    (∃ c, c ∈ lower readings ∧ c ∉ colors (maze e)) ∧
    backward readings e = (Raise KeyError, e') ∧
    length (steps e') = length (steps e) ∧
    steps e' !! 2%nat ≠ steps e !! 2%nat ∧
    steps e' !! 1%nat = steps e !! 1%nat ∧
    steps (backward "RGB" e).2 !! 1%nat ≠ steps e !! 1%nat.
Proof.
  exists rgb_filtered, "RXB"%string, (backward "RXB" rgb_filtered).2.
  split_and!.
  - apply (bool_decide_eq_false_1 _). by vm_compute.
  - exists "x"%char. split.
    + vm_compute. set_solver.
    + change (maze rgb_filtered) with (maze rgb_engine).
      rewrite rgb_engine_maze. vm_compute. set_solver.
  - destruct (backward "RXB" rgb_filtered) as [r s] eqn:H. simpl. f_equal.
    apply (f_equal fst) in H. simpl in H. rewrite <- H. by vm_compute.
  - by vm_compute.
  - apply (bool_decide_eq_false_1 _). by vm_compute.
  - apply (bool_decide_eq_true_1 _). by vm_compute.
  - apply (bool_decide_eq_false_1 _). by vm_compute.
Qed.

End claims_sequence.

Section scenarios.
Local Open Scope Qc_scope.

(** The corridor scenario of the spec: stay-put mass 3/4 at both ends and
    1/2 in the middle. *)
Example corridor_self_transitions :
  entry (transitions rgb_engine) 0 0 = Q2Qc (3 # 4) ∧
  entry (transitions rgb_engine) 1 1 = Q2Qc (1 # 2) ∧
  entry (transitions rgb_engine) 2 2 = Q2Qc (3 # 4).
Proof. split_and!; apply Qc_is_canon; vm_compute; reflexivity. Qed.

(** [viterbi("R")] on the corridor returns the path [[0]]. *)
Example corridor_viterbi_R : (viterbi "R" rgb_engine).1 = Ok [Q2Qc 0].
Proof. apply (bool_decide_eq_true_1 _). by vm_compute. Qed.

(** [backward] on three readings after [forward] leaves four beliefs. *)
Example corridor_backward_length :
  length (steps (backward "RGB" rgb_filtered).2) = 4%nat.
Proof. by vm_compute. Qed.

(** [forward] on the empty text stores the uniform distribution alone. *)
Example corridor_forward_empty :
  forward "" rgb_engine = (Ok (), with_steps [uniform 3] rgb_engine).
Proof.
  destruct (forward_built rgb rgb_engine [] "" rgb_wf rgb_engine_built)
    as (bs & Hrun & Hlen & _).
  - intros c Hc. by apply elem_of_nil in Hc.
  - destruct bs; [|done].
    assert (steps rgb_engine = []) as Hempty.
    { eapply bi_steps, init_built; [apply rgb_wf|apply rgb_engine_built]. }
    rewrite <- (with_steps_id rgb_engine) at 1. rewrite Hempty. exact Hrun.
Qed.

(** A grid of one cell and one colour: [forward("A")] stores the belief
    [[1]] at both steps. *)
Example single_cell_forward :
  (e ← init (corridor ["a"%char]); Ok (steps (forward "A" e).2))
  = Ok [mk 1 1 [[1]]; mk 1 1 [[1]]].
Proof. apply (bool_decide_eq_true_1 _). by vm_compute. Qed.

(** The runs evaluated above divide by non-zero sums only: a zero divisor
    zeroes its whole column, and neither the Viterbi table of "RGB" nor the
    beliefs left by [backward] have a zero in row 0. *)
Example corridor_runs_divide_by_nonzero :
  (∃ tb path, viterbi_run rgb_engine (lower "RGB") = Ok (tb, path) ∧
     ∀ j, (j < 3)%nat → entry (delta tb) 0 j ≠ 0) ∧
  (∀ t b, steps (backward "RXB" rgb_filtered).2 !! t = Some b →
     entry b 0 0 ≠ 0) ∧
  (∀ t b, steps (backward "RGB" rgb_filtered).2 !! t = Some b →
     entry b 0 0 ≠ 0).
Proof.
  split_and!.
  - destruct (viterbi_run rgb_engine (lower "RGB")) as [[tb path]|] eqn:H;
      [|by vm_compute in H].
    exists tb, path. split; [done|].
    vm_compute in H. injection H as <- <-.
    intros [|[|[|j]]] Hj; try lia; intros E;
      apply (f_equal this) in E; by vm_compute in E.
  - intros [|[|[|[|t]]]] b Hb; vm_compute in Hb; simplify_eq;
      intros E; apply (f_equal this) in E; by vm_compute in E.
  - intros [|[|[|[|t]]]] b Hb; vm_compute in Hb; simplify_eq;
      intros E; apply (f_equal this) in E; by vm_compute in E.
Qed.

End scenarios.

(** * More of the matrix layer: facts *)

Import MatrixArith.

Section matrix_more.
Local Open Scope Qc_scope.

Lemma sample_shaped : shaped sample 4 3.
Proof.
  split; try done.
  intros [|[|[|[|i]]]] row Hrow; vm_compute in Hrow; by simplify_eq.
Qed.

Lemma sample2_shaped : shaped sample2 2 2.
Proof.
  split; try done.
  intros [|[|i]] row Hrow; vm_compute in Hrow; by simplify_eq.
Qed.

(** *** Transposition *)

Lemma transpose_shaped m r c : shaped m r c → shaped (transpose m) c r.
Proof.
  intros [R C L W]. split; simpl; try done.
  - by rewrite length_fmap, length_seq.
  - intros i row Hrow. rewrite list_lookup_fmap in Hrow.
    destruct (seq 0 (cols m) !! i) as [j|]; [|done].
    simpl in Hrow. injection Hrow as <-. by rewrite column_length.
Qed.

Lemma entry_out_of_range m r c i j :
  shaped m r c → ¬ (i < r ∧ j < c)%nat → entry m i j = 0.
Proof.
  intros [R C L W] Hn. unfold entry.
  destruct (data m !! i) as [row|] eqn:E; [|done]. simpl.
  pose proof (W _ _ E). apply lookup_lt_Some in E.
  destruct (row !! j) eqn:E'; [|done].
  apply lookup_lt_Some in E'. lia.
Qed.

Lemma transpose_entry m r c i j :
  shaped m r c → entry (transpose m) j i = entry m i j.
Proof.
  intros Hsh. destruct (decide (j < c)%nat) as [Hj|Hj].
  - unfold entry at 1. simpl. rewrite list_lookup_fmap.
    rewrite (sh_cols _ _ _ Hsh), lookup_seq_lt by done. simpl.
    apply column_lookup.
  - rewrite (entry_out_of_range m r c) by (done || lia).
    apply (entry_out_of_range _ c r); [by apply transpose_shaped|lia].
Qed.

(** X1.  [transpose] swaps the shape and the entries of a well-shaped
    matrix, and transposing twice gives the matrix back. *)
Theorem transpose_involutive (m : matrix) (r c : nat) :
  shaped m r c →
  shaped (transpose m) c r ∧
  (∀ i j, entry (transpose m) j i = entry m i j) ∧
  transpose (transpose m) = m.
Proof.
  intros Hsh. pose proof (transpose_shaped _ _ _ Hsh) as Hsh'.
  split_and!; [done| |].
  - intros i j. by eapply transpose_entry.
  - eapply matrix_ext; [by apply transpose_shaped|done|].
    intros i j _ _.
    by rewrite (transpose_entry _ c r), (transpose_entry _ r c).
Qed.

Lemma transpose_involutive_witness :
  shaped sample 4 3 ∧
  shaped (transpose sample) 3 4 ∧
  (∀ i j, entry (transpose sample) j i = entry sample i j) ∧
  transpose (transpose sample) = sample.
Proof.
  split; [apply sample_shaped|].
  apply (transpose_involutive sample 4 3 sample_shaped).
Defined.

(** *** Reading and writing entries *)

Lemma py_int_of_Z z : py_int (Qc_of_Z z) = z.
Proof. unfold py_int, Qc_of_Z, Q2Qc. simpl. apply Z.quot_1_r. Qed.

Lemma setitem_written m m' i j v :
  setitem m i j v = Ok m' →
  getitem m' i j = Ok v ∧
  (∀ i' j', (i', j') ≠ (i, j) → getitem m' i' j' = getitem m i' j') ∧
  shape m' = shape m.
Proof.
  unfold setitem.
  destruct (data m !! i) as [row|] eqn:Erow; [|done].
  case_decide as Hj; [|done]. intros [= <-].
  pose proof (lookup_lt_Some _ _ _ Erow) as Hi.
  split_and!; [| |done].
  - unfold getitem. simpl. rewrite list_lookup_insert_eq by done.
    by rewrite list_lookup_insert_eq.
  - intros i' j' Hne. unfold getitem. simpl.
    destruct (decide (i' = i)) as [->|Hi'].
    + rewrite list_lookup_insert_eq by done. rewrite Erow.
      rewrite list_lookup_insert_ne; [done|]. congruence.
    + by rewrite list_lookup_insert_ne.
Qed.

(** X2.  After [m[i, j] = v] has succeeded on an array of floats or of
    64-bit integers, for a number [v] the array can take, [m[i, j]] reads
    [v] as the array stores it: [v] itself in an array of floats (in exact
    arithmetic), [v] cut to an integer in an array of integers.  So it
    reads [v] exactly when the array holds floats or [v] is an integer.
    Every other position reads as before, and the shape attributes are
    the same. *)
Theorem setitem_getitem (ty : dtype) (m m' : matrix) (i j : nat) (v : Qc) :
  np_fits ty v →
  setitem_cast ty m i j v = Ok m' →
  getitem m' i j = Ok (np_cast ty v) ∧
  (getitem m' i j = Ok v ↔ ty = Float64 ∨ ∃ z, v = Qc_of_Z z) ∧
  (∀ i' j', (i', j') ≠ (i, j) → getitem m' i' j' = getitem m i' j') ∧
  shape m' = shape m.
Proof.
  intros _ Hset. unfold setitem_cast in Hset.
  destruct (setitem_written _ _ _ _ _ Hset) as (Hread & Hother & Hshape).
  split_and!; try done.
  rewrite Hread. split.
  - intros [= Hv]. destruct ty; [right|by left].
    exists (py_int v). symmetry. exact Hv.
  - intros [->|[z ->]]; [done|]. f_equal.
    destruct ty; [|done]. simpl. by rewrite py_int_of_Z.
Qed.

Lemma setitem_getitem_witness :
  np_fits Int64 (Q2Qc (1 # 2)) ∧
  setitem_cast Int64 sample 1 1 (Q2Qc (1 # 2))
  = Ok (mk 4 3 ((λ r : list Z, Qc_of_Z <$> r)
          <$> [[1; 2; 3]; [4; 0; 6]; [7; 8; 9]; [10; 11; 12]]%Z)) ∧
  getitem (mk 4 3 ((λ r : list Z, Qc_of_Z <$> r)
          <$> [[1; 2; 3]; [4; 0; 6]; [7; 8; 9]; [10; 11; 12]]%Z)) 1 1
  = Ok (np_cast Int64 (Q2Qc (1 # 2))) ∧
  (getitem (mk 4 3 ((λ r : list Z, Qc_of_Z <$> r)
          <$> [[1; 2; 3]; [4; 0; 6]; [7; 8; 9]; [10; 11; 12]]%Z)) 1 1
   = Ok (Q2Qc (1 # 2))
   ↔ Int64 = Float64 ∨ ∃ z, Q2Qc (1 # 2) = Qc_of_Z z) ∧
  (∀ i' j', (i', j') ≠ (1%nat, 1%nat) →
     getitem (mk 4 3 ((λ r : list Z, Qc_of_Z <$> r)
          <$> [[1; 2; 3]; [4; 0; 6]; [7; 8; 9]; [10; 11; 12]]%Z)) i' j'
     = getitem sample i' j') ∧
  shape (mk 4 3 ((λ r : list Z, Qc_of_Z <$> r)
          <$> [[1; 2; 3]; [4; 0; 6]; [7; 8; 9]; [10; 11; 12]]%Z))
  = shape sample.
Proof.
  assert (np_fits Int64 (Q2Qc (1 # 2))) as Hfits by (by vm_compute).
  assert (setitem_cast Int64 sample 1 1 (Q2Qc (1 # 2))
    = Ok (mk 4 3 ((λ r : list Z, Qc_of_Z <$> r)
          <$> [[1; 2; 3]; [4; 0; 6]; [7; 8; 9]; [10; 11; 12]]%Z))) as H
    by reflexivity.
  split; [done|]. split; [done|].
  apply (setitem_getitem Int64 sample _ 1 1 (Q2Qc (1 # 2)) Hfits H).
Defined.

(** X3.  On a well-shaped matrix, with indices counted from 0, reading
    and writing [[i, j]] succeed when [i < rows] and [j < cols] and raise
    [IndexError] otherwise; a row [m[i]] is there exactly when
    [i < rows], and its entries are the [m[i, j]]. *)
Theorem index_bounds (m : matrix) (r c i j : nat) (v : Qc) :
  shaped m r c →
  (if decide (i < r ∧ j < c)%nat
   then getitem m i j = Ok (entry m i j) ∧ ∃ m', setitem m i j v = Ok m'
   else getitem m i j = Raise IndexError
        ∧ setitem m i j v = Raise IndexError) ∧
  (if decide (i < r)%nat
   then ∃ row, getrow m i = Ok row ∧ length row = c ∧
               ∀ k, (k < c)%nat → row !! k = Some (entry m i k)
   else getrow m i = Raise IndexError).
Proof.
  intros Hsh. pose proof Hsh as [R C L W]. split.
  - case_decide as H.
    + destruct H as [Hi Hj]. split; [by eapply getitem_entry|].
      destruct (setitem_ok m r c i j v Hsh Hi Hj) as (m' & ? & _). eauto.
    + unfold getitem, setitem.
      destruct (data m !! i) as [row|] eqn:E; [|done].
      pose proof (W _ _ E). apply lookup_lt_Some in E.
      rewrite decide_False by lia.
      rewrite lookup_ge_None_2 by lia. done.
  - unfold getrow. case_decide as H.
    + destruct (lookup_lt_is_Some_2 (data m) i) as [row Hrow]; [lia|].
      rewrite Hrow. exists row. split; [done|]. split; [eauto|].
      intros k Hk. unfold entry. rewrite Hrow. simpl.
      destruct (lookup_lt_is_Some_2 row k) as [x Hx]; [by erewrite W|].
      by rewrite Hx.
    + by rewrite lookup_ge_None_2 by lia.
Qed.

Lemma index_bounds_witness :
  shaped sample 4 3 ∧
  (if decide (3 < 4 ∧ 2 < 3)%nat
   then getitem sample 3 2 = Ok (entry sample 3 2)
        ∧ ∃ m', setitem sample 3 2 (Qc_of_Z 88) = Ok m'
   else getitem sample 3 2 = Raise IndexError
        ∧ setitem sample 3 2 (Qc_of_Z 88) = Raise IndexError) ∧
  (if decide (3 < 4)%nat
   then ∃ row, getrow sample 3 = Ok row ∧ length row = 3%nat ∧
               ∀ k, (k < 3)%nat → row !! k = Some (entry sample 3 k)
   else getrow sample 3 = Raise IndexError).
Proof.
  split; [apply sample_shaped|].
  apply (index_bounds sample 4 3 3 2 (Qc_of_Z 88) sample_shaped).
Defined.

End matrix_more.

Section matrix_products.
Local Open Scope Qc_scope.

(** X4.  [a * b] for two matrices returns exactly when [a.cols = b.rows],
    with the shape [(a.rows, b.cols)], and raises [ValueError] otherwise.
    A 1 x 1 right operand is no exception: it is not spread like a
    number, the product with it still needs [a.cols = 1]. *)
Theorem mul_shape_rule (a b : matrix) :
  (cols a = rows b →
     ∃ m, mul a b = Ok m ∧ shape m = (rows a, cols b)) ∧
  (cols a ≠ rows b → mul a b = Raise ValueError) ∧
  (rows b = 1%nat → cols b = 1%nat → cols a ≠ 1%nat →
     mul a b = Raise ValueError).
Proof.
  split_and!.
  - intros H. destruct (mul_ok a b H) as (m & Hm & Hr & Hc & _).
    exists m. split; [done|]. unfold shape. congruence.
  - intros H. unfold mul, np_dot.
    case_decide; [by rewrite decide_False|]. by rewrite decide_True.
  - intros Hr Hc Ha. unfold mul, np_dot.
    rewrite decide_True by done. rewrite decide_False; [done|]. congruence.
Qed.

Lemma zip_with_seq {A} (f : Qc → Qc → A) (u v : list Qc) n :
  length u = n → length v = n →
  zip_with f u v
  = (λ k, f (default 0 (u !! k)) (default 0 (v !! k))) <$> seq 0 n.
Proof.
  intros Hu Hv. apply list_eq. intros k.
  rewrite lookup_zip_with, list_lookup_fmap.
  destruct (decide (k < n)%nat) as [Hk|Hk].
  - rewrite lookup_seq_lt by done. simpl.
    destruct (lookup_lt_is_Some_2 u k) as [x ->]; [lia|].
    destruct (lookup_lt_is_Some_2 v k) as [y ->]; [lia|]. done.
  - rewrite (lookup_ge_None_2 u) by lia.
    by rewrite (lookup_ge_None_2 (seq 0 n)) by (rewrite length_seq; lia).
Qed.

Lemma np_dot_entry a b r n p i j :
  shaped a r n → shaped b n p → (i < r)%nat → (j < p)%nat →
  ∃ m, np_dot a b = Ok m ∧ shaped m r p ∧
       entry m i j = product_entry a b n i j.
Proof.
  intros [Ra Ca La Wa] [Rb Cb Lb Wb] Hi Hj. unfold np_dot.
  rewrite decide_True by congruence. eexists. split; [done|]. split.
  - split; simpl; try done.
    + by rewrite length_fmap.
    + intros k row Hrow. rewrite list_lookup_fmap in Hrow.
      destruct (data a !! k); [|done]. simpl in Hrow. injection Hrow as <-.
      by rewrite length_fmap, length_seq.
  - unfold entry at 1. simpl. rewrite list_lookup_fmap.
    destruct (lookup_lt_is_Some_2 (data a) i) as [row Hrow]; [lia|].
    rewrite Hrow. simpl. rewrite list_lookup_fmap, Cb.
    rewrite lookup_seq_lt by done. simpl.
    unfold dot, product_entry.
    rewrite (zip_with_seq _ _ _ n); [|eauto|by rewrite column_length].
    f_equal. apply list_fmap_ext. intros _ k _. simpl.
    rewrite column_lookup. unfold entry. by rewrite Hrow.
Qed.

Lemma mul_product (a b : matrix) (r n p : nat) :
  shaped a r n → shaped b n p →
  ∃ m, mul a b = Ok m ∧ shaped m r p ∧
    ∀ i j, (i < r)%nat → (j < p)%nat →
      entry m i j = product_entry a b n i j.
Proof.
  intros Ha Hb.
  assert (cols a = rows b) as Hcr.
  { rewrite (sh_cols _ _ _ Ha), (sh_rows _ _ _ Hb). done. }
  assert (mul a b = np_dot a b) as ->.
  { unfold mul. case_decide; [done|]. by rewrite decide_False by tauto. }
  destruct (np_dot_ok a b Hcr) as (m & Hm & _).
  exists m. split; [done|].
  assert (shaped m r p) as Hsh.
  { unfold np_dot in Hm. rewrite decide_True in Hm by done.
    injection Hm as <-. destruct Ha as [Ra Ca La Wa], Hb as [Rb Cb Lb Wb].
    split; simpl; try done.
    - by rewrite length_fmap.
    - intros k row Hrow. rewrite list_lookup_fmap in Hrow.
      destruct (data a !! k); [|done]. simpl in Hrow. injection Hrow as <-.
      by rewrite length_fmap, length_seq. }
  split; [done|]. intros i j Hi Hj.
  destruct (np_dot_entry a b r n p i j Ha Hb Hi Hj) as (m' & Hm' & _ & He).
  congruence.
Qed.

(** X5.  The product of an [r x n] by an [n x p] matrix is [r x p], and
    its entry [(i, j)] is the sum over [k] of [a[i,k] * b[k,j]]. *)
Theorem mul_entries (a b : matrix) (r n p : nat) :
  shaped a r n → shaped b n p →
  ∃ m, mul a b = Ok m ∧ shaped m r p ∧
    ∀ i j, (i < r)%nat → (j < p)%nat →
      entry m i j = product_entry a b n i j.
Proof.
  intros Ha Hb.
  assert (cols a = rows b) as Hcr.
  { rewrite (sh_cols _ _ _ Ha), (sh_rows _ _ _ Hb). done. }
  assert (mul a b = np_dot a b) as ->.
  { unfold mul. case_decide; [done|]. by rewrite decide_False by tauto. }
  destruct (np_dot_ok a b Hcr) as (m & Hm & _).
  exists m. split; [done|].
  assert (shaped m r p) as Hsh.
  { unfold np_dot in Hm. rewrite decide_True in Hm by done.
    injection Hm as <-. destruct Ha as [Ra Ca La Wa], Hb as [Rb Cb Lb Wb].
    split; simpl; try done.
    - by rewrite length_fmap.
    - intros k row Hrow. rewrite list_lookup_fmap in Hrow.
      destruct (data a !! k); [|done]. simpl in Hrow. injection Hrow as <-.
      by rewrite length_fmap, length_seq. }
  split; [done|]. intros i j Hi Hj.
  destruct (np_dot_entry a b r n p i j Ha Hb Hi Hj) as (m' & Hm' & _ & He).
  congruence.
Qed.

Lemma mul_entries_witness :
  shaped sample 4 3 ∧ shaped (transpose sample) 3 4 ∧
  ∃ m, mul sample (transpose sample) = Ok m ∧ shaped m 4 4 ∧
    ∀ i j, (i < 4)%nat → (j < 4)%nat →
      entry m i j = product_entry sample (transpose sample) 3 i j.
Proof.
  split; [apply sample_shaped|].
  split; [apply transpose_shaped, sample_shaped|].
  apply (mul_entries sample (transpose sample) 4 3 4 sample_shaped
           (transpose_shaped _ _ _ sample_shaped)).
Defined.

(** X6.  Transposition turns a product round: when [a * b] is [m], the
    product [b.transpose() * a.transpose()] is [m.transpose()]. *)
Theorem transpose_mul (a b m : matrix) (r n p : nat) :
  shaped a r n → shaped b n p → mul a b = Ok m →
  mul (transpose b) (transpose a) = Ok (transpose m).
Proof.
  intros Ha Hb Hm.
  destruct (mul_product a b r n p Ha Hb) as (m0 & Hm0 & Hsh & Hent).
  assert (m0 = m) as -> by congruence.
  destruct (mul_product (transpose b) (transpose a) p n r)
    as (t & Ht & Hsht & Hentt); [by apply transpose_shaped..|].
  rewrite Ht. f_equal.
  eapply matrix_ext; [done|by apply transpose_shaped|].
  intros j i Hj Hi.
  rewrite Hentt by done. rewrite (transpose_entry m r p) by done.
  rewrite Hent by done. unfold product_entry. f_equal.
  apply list_fmap_ext. intros _ k _. simpl.
  rewrite (transpose_entry b n p), (transpose_entry a r n) by done.
  apply Qcmult_comm.
Qed.

Lemma transpose_mul_witness :
  ∃ m, shaped sample 4 3 ∧ shaped (transpose sample) 3 4 ∧
    mul sample (transpose sample) = Ok m ∧
    mul (transpose (transpose sample)) (transpose sample)
    = Ok (transpose m).
Proof.
  destruct (mul sample (transpose sample)) as [m|] eqn:Hm;
    [|by vm_compute in Hm].
  exists m. split; [apply sample_shaped|].
  split; [apply transpose_shaped, sample_shaped|]. split; [done|].
  apply (transpose_mul sample (transpose sample) m 4 3 4 sample_shaped
           (transpose_shaped _ _ _ sample_shaped) Hm).
Defined.

End matrix_products.

Section matrix_elementwise.
Local Open Scope Qc_scope.

Lemma broadcast_dim_same n : broadcast_dim n n = Ok n.
Proof. unfold broadcast_dim. by rewrite decide_True. Qed.

Lemma bentry_in_range m i j :
  (i < rows m)%nat → (j < cols m)%nat → bentry m i j = entry m i j.
Proof.
  intros Hi Hj. unfold bentry.
  repeat case_decide; f_equal; lia.
Qed.

Lemma entry_table (r c i j : nat) (g : nat → nat → Qc) :
  (i < r)%nat → (j < c)%nat →
  entry (mk r c ((λ i, (λ j, g i j) <$> seq 0 c) <$> seq 0 r)) i j = g i j.
Proof.
  intros Hi Hj. unfold entry. simpl.
  rewrite list_lookup_fmap, lookup_seq_lt by done. simpl.
  by rewrite list_lookup_fmap, lookup_seq_lt.
Qed.

Lemma shaped_table (r c : nat) (g : nat → nat → Qc) :
  shaped (mk r c ((λ i, (λ j, g i j) <$> seq 0 c) <$> seq 0 r)) r c.
Proof.
  split; simpl; try done.
  - by rewrite length_fmap, length_seq.
  - intros i row Hrow. rewrite list_lookup_fmap in Hrow.
    destruct (seq 0 r !! i); [|done]. simpl in Hrow. injection Hrow as <-.
    by rewrite length_fmap, length_seq.
Qed.

(** An elementwise operation on two matrices of one shape. *)
Lemma np_elementwise_same f a b :
  shape a = shape b →
  ∃ m, np_elementwise f a b = Ok m ∧ shaped m (rows a) (cols a) ∧
    ∀ i j, (i < rows a)%nat → (j < cols a)%nat →
      entry m i j = f (entry a i j) (entry b i j).
Proof.
  unfold shape. intros [= Hr Hc]. unfold np_elementwise.
  rewrite <- Hr, <- Hc, !broadcast_dim_same. simpl.
  eexists. split; [done|]. split; [apply shaped_table|].
  intros i j Hi Hj.
  rewrite (entry_table _ _ _ _
             (λ i j, f (bentry a i j) (bentry b i j))) by done.
  rewrite !bentry_in_range by lia. done.
Qed.

Lemma np_elementwise_comm f a b :
  (∀ x y, f x y = f y x) → shape a = shape b →
  np_elementwise f a b = np_elementwise f b a.
Proof.
  unfold shape. intros Hf [= Hr Hc]. unfold np_elementwise.
  rewrite <- Hr, <- Hc. destruct (broadcast_dim (rows a) (rows a)); [|done].
  simpl. destruct (broadcast_dim (cols a) (cols a)); [|done]. simpl.
  do 2 f_equal. apply list_fmap_ext. intros _ i _.
  apply list_fmap_ext. intros _ j _. apply Hf.
Qed.

(** X7.  Matrix addition is commutative; it raises [ValueError] exactly
    when the shapes differ, and otherwise adds entry by entry. *)
Theorem add_commutes (a b : matrix) :
  add a (Mat b) = add b (Mat a) ∧
  (shape a ≠ shape b → add a (Mat b) = Raise ValueError) ∧
  (shape a = shape b →
     ∃ m, add a (Mat b) = Ok m ∧ shaped m (rows a) (cols a) ∧
       ∀ i j, (i < rows a)%nat → (j < cols a)%nat →
         entry m i j = entry a i j + entry b i j).
Proof.
  split_and!.
  - unfold add. destruct (decide (shape a = shape b)) as [He|Hne].
    + rewrite !decide_False by (intros ?; congruence).
      by apply np_elementwise_comm; [apply Qcplus_comm|].
    + by rewrite !decide_True by congruence.
  - intros Hne. unfold add. by rewrite decide_True.
  - intros He. unfold add. rewrite decide_False by (intros ?; congruence).
    by apply np_elementwise_same.
Qed.

(** X8.  Matrix subtraction raises [ValueError] exactly when the shapes
    differ and otherwise subtracts entry by entry; a well-shaped matrix
    minus itself is the zero matrix of its shape, and the reflected
    operator computes [other - self]. *)
Theorem sub_entries (a b : matrix) (r c : nat) :
  shaped a r c →
  (shape a ≠ shape b → sub a (Mat b) = Raise ValueError) ∧
  (shape a = shape b →
     ∃ m, sub a (Mat b) = Ok m ∧ shaped m r c ∧
       ∀ i j, (i < r)%nat → (j < c)%nat →
         entry m i j = entry a i j - entry b i j) ∧
  sub a (Mat a) = Ok (zeros r c) ∧
  rsub b (Mat a) = sub a (Mat b).
Proof.
  intros Hsh. pose proof Hsh as [R C _ _]. split_and!.
  - intros Hne. unfold sub. by rewrite decide_True.
  - intros He. unfold sub. rewrite decide_False by (intros ?; congruence).
    rewrite <- R, <- C. by apply np_elementwise_same.
  - unfold sub. rewrite decide_False by (intros ?; congruence).
    destruct (np_elementwise_same Qcminus a a eq_refl)
      as (m & -> & Hm & Hent).
    f_equal. rewrite R, C in Hm. eapply matrix_ext; [done|apply shaped_zeros|].
    intros i j Hi Hj. rewrite Hent, entry_zeros by lia. ring.
  - unfold rsub, sub. destruct (decide (shape a = shape b)) as [He|Hne].
    + by rewrite !decide_False by (intros ?; congruence).
    + by rewrite !decide_True by congruence.
Qed.

Lemma sub_entries_witness :
  shaped sample 4 3 ∧
  (shape sample ≠ shape sample2 → sub sample (Mat sample2) = Raise ValueError) ∧
  (shape sample = shape sample2 →
     ∃ m, sub sample (Mat sample2) = Ok m ∧ shaped m 4 3 ∧
       ∀ i j, (i < 4)%nat → (j < 3)%nat →
         entry m i j = entry sample i j - entry sample2 i j) ∧
  sub sample (Mat sample) = Ok (zeros 4 3) ∧
  rsub sample2 (Mat sample) = sub sample (Mat sample2).
Proof.
  split; [apply sample_shaped|].
  apply (sub_entries sample sample2 4 3 sample_shaped).
Defined.

(** X9.  [Matrix.multiply] is commutative, and the elementwise product
    with the matrix of ones of its shape gives a well-shaped matrix
    back. *)
Theorem multiply_commutes (a b : matrix) (r c : nat) :
  shaped a r c →
  multiply a b = multiply b a ∧
  multiply a (ones r c) = Ok a.
Proof.
  intros Hsh. pose proof Hsh as [R C _ _]. split.
  - unfold multiply, np_elementwise.
    assert (∀ n1 n2, broadcast_dim n1 n2 = broadcast_dim n2 n1) as Hb.
    { intros n1 n2. unfold broadcast_dim.
      repeat case_decide; try done; f_equal; lia. }
    rewrite (Hb (rows a)), (Hb (cols a)).
    destruct (broadcast_dim (rows b) (rows a)); [|done]. simpl.
    destruct (broadcast_dim (cols b) (cols a)); [|done]. simpl.
    do 2 f_equal. apply list_fmap_ext. intros _ i _.
    apply list_fmap_ext. intros _ j _. apply Qcmult_comm.
  - unfold multiply.
    destruct (np_elementwise_same Qcmult a (ones r c))
      as (m & -> & Hm & Hent).
    { unfold shape. simpl. congruence. }
    f_equal. rewrite R, C in Hm. eapply matrix_ext; [done..|].
    intros i j Hi Hj. rewrite Hent by lia.
    change (ones r c) with (full r c 1). rewrite entry_full.
    rewrite decide_True by done. ring.
Qed.

Lemma multiply_commutes_witness :
  shaped sample 4 3 ∧
  multiply sample sample2 = multiply sample2 sample ∧
  multiply sample (ones 4 3) = Ok sample.
Proof.
  split; [apply sample_shaped|].
  apply (multiply_commutes sample sample2 4 3 sample_shaped).
Defined.

(** X10.  Unlike the operator [*], [Matrix.multiply] spreads a 1 x 1
    operand over the other matrix: every entry is multiplied by it. *)
Theorem multiply_broadcasts (a b : matrix) (r c : nat) :
  shaped a r c → shaped b 1 1 →
  ∃ m, multiply a b = Ok m ∧ shaped m r c ∧
    ∀ i j, (i < r)%nat → (j < c)%nat →
      entry m i j = entry a i j * entry b 0 0.
Proof.
  intros [Ra Ca _ _] [Rb Cb _ _]. unfold multiply, np_elementwise.
  assert (∀ n, broadcast_dim n 1 = Ok n) as Hb.
  { intros n. unfold broadcast_dim. repeat case_decide; try done; f_equal; lia. }
  rewrite Ra, Ca, Rb, Cb, !Hb. simpl.
  eexists. split; [done|]. split; [apply shaped_table|].
  intros i j Hi Hj.
  rewrite (entry_table _ _ _ _
             (λ i j, bentry a i j * bentry b i j)) by done.
  rewrite bentry_in_range by lia. f_equal.
  unfold bentry. by rewrite Rb, Cb, !decide_True.
Qed.

Lemma multiply_broadcasts_witness :
  shaped sample 4 3 ∧ shaped (full 1 1 (Qc_of_Z 2)) 1 1 ∧
  ∃ m, multiply sample (full 1 1 (Qc_of_Z 2)) = Ok m ∧ shaped m 4 3 ∧
    ∀ i j, (i < 4)%nat → (j < 3)%nat →
      entry m i j = entry sample i j * entry (full 1 1 (Qc_of_Z 2)) 0 0.
Proof.
  split; [apply sample_shaped|]. split; [apply shaped_full|].
  apply (multiply_broadcasts sample (full 1 1 (Qc_of_Z 2)) 4 3
           sample_shaped (shaped_full 1 1 _)).
Defined.

(** *** Normalisation *)

Lemma normalize_shaped m r c : shaped m r c → shaped (normalize m) r c.
Proof.
  intros [R C L W]. split; simpl; try done.
  - by rewrite length_fmap.
  - intros i row Hrow. rewrite list_lookup_fmap in Hrow.
    destruct (data m !! i) as [r0|] eqn:E; [|done].
    simpl in Hrow. injection Hrow as <-.
    rewrite length_zip_with. unfold sum_axis0.
    rewrite length_fmap, length_seq, (W _ _ E). lia.
Qed.

Lemma normalize_entry m r c i j :
  shaped m r c → (j < c)%nat →
  entry (normalize m) i j = entry m i j / colsum m j.
Proof.
  intros [R C L W] Hj. unfold entry. simpl. rewrite list_lookup_fmap.
  destruct (data m !! i) as [row|]; simpl.
  - rewrite lookup_zip_with, sum_axis0_lookup by lia.
    destruct (row !! j); simpl; [done|]. unfold Qcdiv. ring.
  - unfold Qcdiv. ring.
Qed.

(** X11.  [Matrix.normalize] keeps the shape; in a column whose sum is
    not zero it divides every entry by that sum, and the column sums to 1
    afterwards (in exact arithmetic). *)
Theorem normalize_columns (m : matrix) (r c : nat) :
  shaped m r c →
  shaped (normalize m) r c ∧
  (∀ i j, (j < c)%nat → colsum m j ≠ 0 →
     entry (normalize m) i j = entry m i j / colsum m j) ∧
  (∀ j, (j < c)%nat → colsum m j ≠ 0 → colsum (normalize m) j = 1).
Proof.
  intros Hsh. split_and!.
  - by apply normalize_shaped.
  - intros i j Hj _. by eapply normalize_entry.
  - intros j Hj Hne. apply normalize_colsum; [|done].
    by rewrite (sh_cols _ _ _ Hsh).
Qed.

Lemma normalize_columns_witness :
  shaped sample 4 3 ∧
  shaped (normalize sample) 4 3 ∧
  (∀ i j, (j < 3)%nat → colsum sample j ≠ 0 →
     entry (normalize sample) i j = entry sample i j / colsum sample j) ∧
  (∀ j, (j < 3)%nat → colsum sample j ≠ 0 → colsum (normalize sample) j = 1).
Proof.
  split; [apply sample_shaped|].
  apply (normalize_columns sample 4 3 sample_shaped).
Defined.

End matrix_elementwise.

(** * More about the builder *)

Section builder_more.
Local Open Scope Qc_scope.
Context (mz : Maze) (Hwf : maze_wf mz).
Local Abbreviation N := (count_positions mz).

Lemma bind_inv {A B} (m : engine A) (k : A → engine B) s b s'' :
  (m ≫= k) s = (Ok b, s'') →
  ∃ a s', m s = (Ok a, s') ∧ k a s' = (Ok b, s'').
Proof.
  unfold mbind, engine_bind. destruct (m s) as [[a|e] s']; [eauto|done].
Qed.

Lemma setitem_entry m i j v m' :
  setitem m i j v = Ok m' →
  ∀ i' j', entry m' i' j' =
    if decide (i' = i ∧ j' = j) then v else entry m i' j'.
Proof.
  unfold setitem. destruct (data m !! i) as [row|] eqn:Erow; [|done].
  case_decide as Hj; [|done]. intros [= <-] i' j'.
  pose proof (lookup_lt_Some _ _ _ Erow) as Hi.
  unfold entry. simpl. destruct (decide (i' = i)) as [->|Hne].
  - rewrite list_lookup_insert_eq by done. simpl.
    destruct (decide (j' = j)) as [->|Hne'].
    + rewrite list_lookup_insert_eq by done. by rewrite decide_True.
    + rewrite list_lookup_insert_ne by done.
      rewrite decide_False by tauto. by rewrite Erow.
  - rewrite list_lookup_insert_ne by done. by rewrite decide_False by tauto.
Qed.

(** What one direction of [compute_transition_matrix] does when it
    returns. *)
Lemma move_entries s nx ny j st st' s' :
  maze s = mz →
  move nx ny j MOVE_PROBABILITY st s = (Ok st', s') →
  maze s' = mz ∧ st' = st + blocked mz nx ny ∧
  ∀ i j', entry (transitions s') i j' =
    if decide (traversable mz nx ny ∧ i = index mz nx ny ∧ j' = j)
    then MOVE_PROBABILITY else entry (transitions s) i j'.
Proof.
  intros Hmz. unfold move, blocked.
  rewrite bind_get_self, Hmz.
  destruct (decide (traversable mz nx ny)) as [Htr|Hntr].
  - assert (open_char (get_char mz nx ny) = true) as -> by done.
    intros (t & s1 & Hset & Hrest)%bind_inv.
    unfold lift in Hset. injection Hset as Hset <-.
    injection Hrest as <- <-. split; [done|]. split; [ring|].
    intros i j'. simpl. rewrite (setitem_entry _ _ _ _ _ Hset).
    apply decide_ext. tauto.
  - assert (open_char (get_char mz nx ny) = false) as ->.
    { unfold traversable in Hntr. by destruct (open_char _). }
    intros [= <- <-]. split; [done|]. split; [done|].
    intros i j'. rewrite decide_False; [done|]. tauto.
Qed.

(** The column that [compute_transition_matrix] leaves for a traversable
    cell whose column was still empty. *)
Lemma compute_transition_matrix_entries s x y s' :
  maze s = mz → traversable mz x y →
  (∀ i, entry (transitions s) i (index mz x y) = 0) →
  compute_transition_matrix x y s = (Ok (), s') →
  (∀ i j', j' ≠ index mz x y →
     entry (transitions s') i j' = entry (transitions s) i j') ∧
  ∀ x' y', traversable mz x' y' →
    entry (transitions s') (index mz x' y') (index mz x y)
    = transition_entry mz x' y' x y.
Proof.
  intros Hmz Htr Hzero. unfold compute_transition_matrix.
  rewrite bind_get_self, Hmz.
  pose proof Htr as Hopen. unfold traversable in Hopen. rewrite Hopen.
  unfold NORTH_PROBABILITY, SOUTH_PROBABILITY, EAST_PROBABILITY,
    WEST_PROBABILITY.
  intros (st1 & s1 & Hm1 & Hrun)%bind_inv.
  apply bind_inv in Hrun as (st2 & s2 & Hm2 & Hrun).
  apply bind_inv in Hrun as (st3 & s3 & Hm3 & Hrun).
  apply bind_inv in Hrun as (st4 & s4 & Hm4 & Hrun).
  rewrite bind_get_self in Hrun.
  apply bind_inv in Hrun as (t & s5 & Hset & Hrun).
  unfold lift in Hset. injection Hset as Hset <-.
  injection Hrun as <-.
  apply (move_entries _ _ _ _ _ _ _ Hmz) in Hm1 as (Hmz1 & -> & He1).
  apply (move_entries _ _ _ _ _ _ _ Hmz1) in Hm2 as (Hmz2 & -> & He2).
  apply (move_entries _ _ _ _ _ _ _ Hmz2) in Hm3 as (Hmz3 & -> & He3).
  apply (move_entries _ _ _ _ _ _ _ Hmz3) in Hm4 as (Hmz4 & -> & He4).
  pose proof (setitem_entry _ _ _ _ _ Hset) as He5. simpl.
  split.
  - intros i j' Hne.
    rewrite He5, decide_False by tauto.
    rewrite He4, decide_False by tauto.
    rewrite He3, decide_False by tauto.
    rewrite He2, decide_False by tauto.
    rewrite He1, decide_False by tauto. done.
  - intros x' y' Htr'.
    assert (∀ nx ny,
              (traversable mz nx ny ∧ index mz x' y' = index mz nx ny
               ∧ index mz x y = index mz x y) ↔ (x' = nx ∧ y' = ny)) as Hiff.
    { intros nx ny. split.
      - intros (Hn & He & _). by apply (wf_index_inj _ Hwf).
      - by intros [-> ->]. }
    unfold transition_entry, stay_mass.
    rewrite He5. destruct (decide (x' = x ∧ y' = y)) as [[-> ->]|Hne].
    { by rewrite decide_True. }
    rewrite decide_False.
    2: { intros [He _]. apply Hne. by apply (wf_index_inj _ Hwf). }
    rewrite He4, He3, He2, He1, Hzero.
    rewrite !(decide_ext _ _ _ _ (Hiff _ _)).
    unfold adjacent. repeat case_decide; try done; exfalso; intuition lia.
Qed.

Lemma entries_inv_ext (P Q : Z → Z → Prop) s :
  (∀ x y, traversable mz x y → (P x y ↔ Q x y)) →
  entries_inv mz P s → entries_inv mz Q s.
Proof.
  intros HPQ H x y x' y' Htr HQ Htr'. apply H; [done| |done]. by apply HPQ.
Qed.

Lemma initialize_cell_entries s x y (visited : Z → Z → Prop) :
  build_inv mz visited s → entries_inv mz visited s →
  traversable mz x y → ¬ visited x y →
  ∃ s', initialize_cell x y s = (Ok (), s') ∧
    build_inv mz (λ x' y', visited x' y' ∨ (x' = x ∧ y' = y)) s' ∧
    entries_inv mz (λ x' y', visited x' y' ∨ (x' = x ∧ y' = y)) s'.
Proof.
  intros Hinv Hent Htr Hnv.
  destruct (initialize_cell_spec mz Hwf s x y visited Hinv Htr Hnv)
    as (s' & Hrun & Hinv').
  exists s'. split; [done|]. split; [done|].
  pose proof (bi_maze _ _ _ Hinv) as Hmz.
  unfold initialize_cell in Hrun. rewrite bind_get_self, Hmz in Hrun.
  pose proof Htr as Hopen. unfold traversable in Hopen. rewrite Hopen in Hrun.
  apply bind_inv in Hrun as (u1 & s1 & Hrun1 & Hrun).
  apply bind_inv in Hrun as (u2 & s2 & Hrun2 & Hrun).
  rewrite bind_get_self in Hrun.
  apply bind_inv in Hrun as (p & s3 & Hset & Hrun).
  unfold lift in Hset. injection Hset as _ <-. injection Hrun as <-.
  destruct (compute_sensor_values_spec mz Hwf s x y Hmz Htr)
    as (sp & Hrun1' & _).
  { intros color Hcol.
    destruct (bi_sensor _ _ _ Hinv color Hcol) as (m & ? & ? & _). eauto. }
  rewrite Hrun1' in Hrun1. destruct u1, u2. injection Hrun1 as <-.
  destruct (compute_transition_matrix_entries (with_sensor sp s) x y s2
              Hmz Htr) as [Hother Hcol]; [|done|].
  { by apply (bi_t_todo _ _ _ Hinv). }
  intros bx by_ ax ay Hb [Hv|[-> ->]] Ha; simpl.
  - rewrite Hother; [by apply Hent|].
    intros Heq. destruct (wf_index_inj _ Hwf _ _ _ _ Hb Htr Heq). by subst.
  - by apply Hcol.
Qed.

(** The double loop, with the entries of the transition matrix. *)
Lemma cell_loop_entries s :
  build_inv mz (λ _ _, False) s →
  ∃ s', for_each (zrange (width mz)) (λ x,
          for_each (zrange (height mz)) (λ y, initialize_cell x y)) s
        = (Ok (), s') ∧
    build_inv mz (λ _ _, True) s' ∧ entries_inv mz (λ _ _, True) s'.
Proof.
  intros H0.
  set (I2 := λ (P : Z → Z → Prop) s, build_inv mz P s ∧ entries_inv mz P s).
  assert (∀ P Q s, (∀ x y, traversable mz x y → (P x y ↔ Q x y)) →
            I2 P s → I2 Q s) as Hext.
  { intros P Q s0 HPQ [? ?]. split;
      [by eapply build_inv_ext|by eapply entries_inv_ext]. }
  destruct (for_each_inv
    (λ pre s, I2 (λ x y, x ∈ pre ∧ y ∈ zrange (height mz)) s)
    (zrange (width mz))
    (λ x, for_each (zrange (height mz)) (λ y, initialize_cell x y))) with s
    as (s' & Hrun & Hfin).
  - intros pre x post s1 Hl HI.
    pose proof (not_in_prefix mz Hwf _ _ _ _ (NoDup_zrange _) Hl) as Hx.
    destruct (for_each_inv
      (λ pre_y s, I2 (λ x' y',
         (x' ∈ pre ∧ y' ∈ zrange (height mz)) ∨ (x' = x ∧ y' ∈ pre_y)) s)
      (zrange (height mz)) (λ y, initialize_cell x y)) with s1
      as (s2 & Hrun2 & Hfin2).
    + intros pre_y y post_y s3 Hly [HIy HEy].
      pose proof (not_in_prefix mz Hwf _ _ _ _ (NoDup_zrange _) Hly) as Hy.
      destruct (decide (traversable mz x y)) as [Htr|Hntr].
      * destruct (initialize_cell_entries s3 x y _ HIy HEy Htr)
          as (s4 & Hrun4 & HI4 & HE4).
        { intros [[? _]|[_ ?]]; done. }
        exists s4. split; [done|].
        eapply Hext; [|exact (conj HI4 HE4)]. intros x' y' _. simpl.
        rewrite elem_of_app, list_elem_of_singleton. naive_solver.
      * exists s3.
        split; [apply (initialize_cell_closed mz); [apply HIy|done]|].
        eapply Hext; [|exact (conj HIy HEy)]. intros x' y' Htr'. simpl.
        rewrite elem_of_app, list_elem_of_singleton.
        split; [tauto|]. intros [?|[-> [?| ->]]]; tauto.
    + revert HI. apply Hext. intros x' y' _. rewrite elem_of_nil. tauto.
    + exists s2. split; [done|].
      revert Hfin2. apply Hext. intros x' y' _.
      rewrite elem_of_app, list_elem_of_singleton. naive_solver.
  - split; [|intros x y x' y' _ [Hin _]; by apply elem_of_nil in Hin].
    revert H0. apply build_inv_ext. intros x y _. rewrite elem_of_nil. tauto.
  - exists s'. split; [done|].
    eapply Hext; [|exact Hfin]. intros x y Htr. simpl.
    rewrite !elem_of_zrange. pose proof (wf_bounds _ Hwf _ _ Htr). tauto.
Qed.

Lemma init_entries e :
  init mz = Ok e →
  build_inv mz (λ _ _, True) e ∧ entries_inv mz (λ _ _, True) e.
Proof.
  intros He. unfold init in He. case_decide as HN; [done|].
  assert (∃ x y, traversable mz x y) as (x0 & y0 & Htr0).
  { destruct (wf_index_surj _ Hwf 0%nat) as (x & y & Htr & _); [lia|eauto]. }
  pose proof (wf_bounds _ Hwf _ _ Htr0) as [Hw Hh].
  destruct (sensor_init_spec mz (colors mz) ∅) as (sp & Hsp & Hin & _); [lia|].
  rewrite Hsp in He. simpl in He. rewrite !new_ok in He by lia.
  simpl in He. unfold initialize_probabilities in He.
  rewrite bind_get_self in He. simpl in He.
  rewrite new_ok in He by lia.
  rewrite (bind_lift_ok _ _ _ (zeros N 1)) in He by done.
  rewrite (bind_ok _ _ _ () (with_position_distribution (zeros N 1)
     (mkHmm mz N sp (zeros N N) (zeros (width mz) (height mz)) []))) in He
    by done.
  edestruct cell_loop_entries as (s' & Hrun & Hfin).
  2: { rewrite Hrun in He. by injection He as <-. }
  split; simpl; try done.
  - apply shaped_zeros.
  - intros x y _ _ i. apply entry_zeros.
  - intros color Hcol. exists (zeros N N). split_and!; try done.
    + by apply Hin.
    + apply shaped_zeros.
    + intros i j _. apply entry_zeros.
  - apply shaped_zeros.
Qed.

End builder_more.


Section builder_extras.
Local Open Scope Qc_scope.

(** X12.  On a well-formed grid the constructor returns an engine when
    some cell is traversable, and raises [ValueError] when none is. *)
Theorem init_empty_grid (mz : Maze) :
  maze_wf mz →
  ((∃ x y, traversable mz x y) → ∃ e, init mz = Ok e) ∧
  ((¬ ∃ x y, traversable mz x y) → init mz = Raise ValueError).
Proof.
  intros Hwf. split.
  - intros Hex. destruct (init_spec mz Hwf Hex) as (e & He & _). eauto.
  - intros Hno. unfold init. rewrite decide_True; [done|].
    destruct (count_positions mz) as [|n] eqn:E; [done|].
    destruct (wf_index_surj _ Hwf 0%nat) as (x & y & Htr & _); [lia|].
    destruct Hno. eauto.
Qed.

Lemma init_empty_grid_witness :
  maze_wf (corridor []) ∧
  ((∃ x y, traversable (corridor []) x y) → ∃ e, init (corridor []) = Ok e) ∧
  ((¬ ∃ x y, traversable (corridor []) x y) →
     init (corridor []) = Raise ValueError).
Proof.
  assert (maze_wf (corridor [])) as Hwf.
  { apply corridor_wf. apply not_elem_of_nil. }
  split; [done|]. apply (init_empty_grid (corridor []) Hwf).
Defined.

(** X13.  In a built engine the transition matrix holds, in the column of
    a traversable cell and the row of another, the move probability 1/4
    when the two cells are neighbours and 0 when they are not; on the
    diagonal it holds the stay-put mass of the cell, 1/4 for every wall or
    border next to it. *)
Theorem transition_entries (mz : Maze) (e : hmm) :
  maze_wf mz → init mz = Ok e →
  ∀ x y x' y', traversable mz x y → traversable mz x' y' →
    entry (transitions e) (index mz x' y') (index mz x y)
    = transition_entry mz x' y' x y.
Proof.
  intros Hwf He x y x' y' Htr Htr'.
  destruct (init_entries mz Hwf e He) as [_ Hent]. by apply Hent.
Qed.

Lemma transition_entries_witness :
  maze_wf rgb ∧ init rgb = Ok rgb_engine ∧
  ∀ x y x' y', traversable rgb x y → traversable rgb x' y' →
    entry (transitions rgb_engine) (index rgb x' y') (index rgb x y)
    = transition_entry rgb x' y' x y.
Proof.
  split; [apply rgb_wf|]. split; [apply rgb_engine_built|].
  apply (transition_entries rgb rgb_engine rgb_wf rgb_engine_built).
Defined.

Lemma adjacent_sym x y x' y' : adjacent x y x' y' ↔ adjacent x' y' x y.
Proof. unfold adjacent. lia. Qed.

Lemma transition_entry_sym mz x y x' y' :
  transition_entry mz x' y' x y = transition_entry mz x y x' y'.
Proof.
  unfold transition_entry.
  destruct (decide (x' = x ∧ y' = y)) as [[-> ->]|Hne].
  - by rewrite decide_True.
  - rewrite (decide_False (P := x = x' ∧ y = y')) by (intros [-> ->]; by destruct Hne).
    apply decide_ext, adjacent_sym.
Qed.

Lemma blocked_range mz x y : 0 ≤ blocked mz x y ∧ blocked mz x y ≤ MOVE_PROBABILITY.
Proof. unfold blocked. by destruct (open_char _). Qed.

Lemma transition_entry_range mz x y x' y' :
  0 ≤ transition_entry mz x' y' x y ∧ transition_entry mz x' y' x y ≤ 1.
Proof.
  unfold transition_entry, stay_mass, blocked.
  repeat case_decide; repeat destruct (open_char _); done.
Qed.

Lemma transitions_cell (mz : Maze) (e : hmm) i j :
  maze_wf mz → init mz = Ok e →
  (i < count_positions mz)%nat → (j < count_positions mz)%nat →
  ∃ x y x' y', traversable mz x y ∧ traversable mz x' y' ∧
    i = index mz x' y' ∧ j = index mz x y ∧
    entry (transitions e) i j = transition_entry mz x' y' x y.
Proof.
  intros Hwf He Hi Hj. destruct (init_entries mz Hwf e He) as [_ Hent].
  destruct (wf_index_surj _ Hwf i Hi) as (x' & y' & Htr' & <-).
  destruct (wf_index_surj _ Hwf j Hj) as (x & y & Htr & <-).
  exists x, y, x', y'. split_and!; try done. by apply Hent.
Qed.

Lemma transitions_range (mz : Maze) (e : hmm) i j :
  maze_wf mz → init mz = Ok e →
  0 ≤ entry (transitions e) i j ∧ entry (transitions e) i j ≤ 1.
Proof.
  intros Hwf He. destruct (init_entries mz Hwf e He) as [Hinv _].
  pose proof (bi_t_shaped _ _ _ Hinv) as Hsh.
  destruct (decide (i < count_positions mz ∧ j < count_positions mz)%nat)
    as [[Hi Hj]|Hn].
  - destruct (transitions_cell mz e i j Hwf He Hi Hj)
      as (x & y & x' & y' & _ & _ & _ & _ & ->).
    apply transition_entry_range.
  - by rewrite (entry_out_of_range _ _ _ _ _ Hsh Hn).
Qed.

Lemma transitions_colsum (mz : Maze) (e : hmm) i :
  maze_wf mz → init mz = Ok e → (i < count_positions mz)%nat →
  colsum (transitions e) i = 1.
Proof.
  intros Hwf He Hi. destruct (init_entries mz Hwf e He) as [Hinv _].
  destruct (wf_index_surj _ Hwf i Hi) as (x & y & Htr & <-).
  by apply (bi_t_done _ _ _ Hinv).
Qed.

Lemma transitions_transpose (mz : Maze) (e : hmm) :
  maze_wf mz → init mz = Ok e → transpose (transitions e) = transitions e.
Proof.
  intros Hwf He. destruct (init_entries mz Hwf e He) as [Hinv Hent].
  pose proof (bi_t_shaped _ _ _ Hinv) as Hsh.
  eapply matrix_ext; [by apply transpose_shaped|done|].
  intros i j Hi Hj. rewrite (transpose_entry _ _ _ _ _ Hsh).
  destruct (transitions_cell mz e j i Hwf He Hj Hi)
    as (x & y & x' & y' & Htr & Htr' & -> & -> & ->).
  rewrite Hent by done. apply transition_entry_sym.
Qed.

(** X14.  The transition matrix of a built engine is symmetric, so
    [transitions.transpose()] in [forward] is [transitions] itself; its
    entries lie between 0 and 1, and with every column every row sums to
    1. *)
Theorem transitions_symmetric (mz : Maze) (e : hmm) :
  maze_wf mz → init mz = Ok e →
  transpose (transitions e) = transitions e ∧
  (∀ i j, 0 ≤ entry (transitions e) i j ∧ entry (transitions e) i j ≤ 1) ∧
  (∀ i, (i < count_positions mz)%nat →
     colsum (transitions e) i = 1 ∧ colsum (transpose (transitions e)) i = 1).
Proof.
  intros Hwf He. split; [by apply (transitions_transpose mz)|]. split.
  - intros i j. by apply (transitions_range mz).
  - intros i Hi. rewrite (transitions_transpose mz) by done.
    split; by apply (transitions_colsum mz).
Qed.

Lemma transitions_symmetric_witness :
  maze_wf rgb ∧ init rgb = Ok rgb_engine ∧
  transpose (transitions rgb_engine) = transitions rgb_engine ∧
  (∀ i j, 0 ≤ entry (transitions rgb_engine) i j
          ∧ entry (transitions rgb_engine) i j ≤ 1) ∧
  (∀ i, (i < count_positions rgb)%nat →
     colsum (transitions rgb_engine) i = 1
     ∧ colsum (transpose (transitions rgb_engine)) i = 1).
Proof.
  split; [apply rgb_wf|]. split; [apply rgb_engine_built|].
  apply (transitions_symmetric rgb rgb_engine rgb_wf rgb_engine_built).
Defined.

End builder_extras.

Section order_facts.
Local Open Scope Qc_scope.

Lemma Qcmult_pos x y : 0 < x → 0 < y → 0 < x * y.
Proof.
  intros Hx Hy. replace 0 with (0 * y) by ring. by apply Qcmult_lt_compat_r.
Qed.

Lemma Qcmult_nonneg x y : 0 ≤ x → 0 ≤ y → 0 ≤ x * y.
Proof.
  intros Hx Hy. replace 0 with (0 * y) by ring. by apply Qcmult_le_compat_r.
Qed.

Lemma Qcinv_pos x : 0 < x → 0 < / x.
Proof.
  intros H. unfold Qclt in *.
  assert (this (/ x) == / this x)%Q as Heq.
  { unfold Qcinv. simpl. apply Qred_correct. }
  rewrite Heq. by apply Qinv_lt_0_compat.
Qed.

Lemma Qcdiv_pos x y : 0 < x → 0 < y → 0 < x / y.
Proof. intros Hx Hy. apply Qcmult_pos; [done|by apply Qcinv_pos]. Qed.

Lemma Qcpos_ne x : 0 < x → x ≠ 0.
Proof. intros H ->. by apply (Qclt_not_le _ _ H), Qcle_refl. Qed.

Lemma Qcplus_pos_nonneg x y : 0 < x → 0 ≤ y → 0 < x + y.
Proof.
  intros Hx Hy. apply Qclt_le_trans with (x + 0).
  - by replace (x + 0) with x by ring.
  - apply Qcplus_le_compat; [apply Qcle_refl|done].
Qed.

Lemma Qcplus_nonneg_pos x y : 0 ≤ x → 0 < y → 0 < x + y.
Proof. intros Hx Hy. rewrite Qcplus_comm. by apply Qcplus_pos_nonneg. Qed.

Lemma Qc_of_Z_pos z : (0 < z)%Z → 0 < Qc_of_Z z.
Proof.
  intros Hz. unfold Qclt, Qc_of_Z. simpl. unfold Qlt. simpl. lia.
Qed.

Lemma sumQc_nonneg l : Forall (λ x, 0 ≤ x) l → 0 ≤ sumQc l.
Proof.
  induction 1 as [|x l Hx _ IH]; [rewrite sumQc_nil; apply Qcle_refl|].
  rewrite sumQc_cons. replace 0 with (0 + 0) by ring.
  by apply Qcplus_le_compat.
Qed.

Lemma sumQc_pos l : l ≠ [] → Forall (λ x, 0 < x) l → 0 < sumQc l.
Proof.
  intros Hne Hall. destruct Hall as [|x l Hx Hl]; [done|].
  rewrite sumQc_cons. apply Qcplus_pos_nonneg; [done|].
  apply sumQc_nonneg. eapply Forall_impl; [exact Hl|].
  intros ??. by apply Qclt_le_weak.
Qed.

Lemma weighted_pos (w b : nat → Qc) (l : list nat) :
  (∀ k, k ∈ l → 0 ≤ w k ∧ 0 < b k) →
  sumQc (w <$> l) ≠ 0 → 0 < sumQc ((λ k, w k * b k) <$> l).
Proof.
  induction l as [|k l IH]; intros Hall Hsum.
  - by rewrite fmap_nil, sumQc_nil in Hsum.
  - rewrite fmap_cons, sumQc_cons in Hsum. rewrite fmap_cons, sumQc_cons.
    destruct (Hall k) as [Hw Hb]; [by left|].
    assert (0 ≤ sumQc ((λ k, w k * b k) <$> l)) as Hrest.
    { apply sumQc_nonneg, Forall_fmap, Forall_forall. intros k' Hk'. simpl.
      destruct (Hall k') as [Hw' Hb']; [by right|].
      apply Qcmult_nonneg; [done|by apply Qclt_le_weak]. }
    destruct (Qcle_lt_or_eq _ _ Hw) as [Hpos|Heq].
    + apply Qcplus_pos_nonneg; [by apply Qcmult_pos|done].
    + rewrite <- Heq in Hsum |- *.
      replace (0 * b k) with 0 by ring. rewrite Qcplus_0_l.
      apply IH; [intros k' Hk'; apply Hall; by right|].
      by rewrite Qcplus_0_l in Hsum.
Qed.

Lemma sumQc_single (f : nat → Qc) (s n i : nat) :
  (∀ k, k ≠ i → f k = 0) →
  sumQc (f <$> seq s n) = if decide (s ≤ i < s + n)%nat then f i else 0.
Proof.
  intros Hz. revert s. induction n as [|n IH]; intros s.
  - simpl. rewrite decide_False by lia. apply sumQc_nil.
  - simpl seq. rewrite fmap_cons, sumQc_cons, IH.
    destruct (decide (s = i)) as [->|Hne].
    + rewrite decide_False by lia. rewrite decide_True by lia. ring.
    + rewrite (Hz s Hne). rewrite Qcplus_0_l. apply decide_ext. lia.
Qed.

Lemma sumQc_const (v : Qc) (s n : nat) :
  sumQc ((λ _, v) <$> seq s n) = Qc_of_Z (Z.of_nat n) * v.
Proof.
  revert s. induction n as [|n IH]; intros s.
  - simpl. rewrite sumQc_nil.
    assert (Qc_of_Z (Z.of_nat 0) = 0) as -> by (apply Qc_is_canon; reflexivity).
    ring.
  - simpl seq. rewrite fmap_cons, sumQc_cons, IH.
    replace (Z.of_nat n) with (Z.of_nat (S n) - 1)%Z by lia.
    rewrite Qc_of_Z_minus_1. ring.
Qed.

Lemma colsum_entries m r c j :
  shaped m r c → colsum m j = sumQc ((λ k, entry m k j) <$> seq 0 r).
Proof.
  intros [_ _ Hlen _]. unfold colsum. f_equal.
  apply list_eq. intros i. rewrite list_lookup_fmap.
  destruct (decide (i < r)%nat) as [Hi|Hi].
  - rewrite lookup_seq_lt by done. simpl.
    pose proof (column_lookup (data m) j i) as Hc.
    destruct (lookup_lt_is_Some_2 (column (data m) j) i) as [v Hv].
    { rewrite column_length. lia. }
    rewrite Hv in Hc |- *. simpl in Hc. by rewrite Hc.
  - rewrite (lookup_ge_None_2 (seq 0 r)) by (rewrite length_seq; lia).
    rewrite lookup_ge_None_2; [done|]. rewrite column_length. lia.
Qed.

Lemma mul_np_dot a b : cols a = rows b → mul a b = np_dot a b.
Proof.
  intros H. unfold mul. case_decide; [done|]. by rewrite decide_False by tauto.
Qed.

End order_facts.

Section forward_more.
Local Open Scope Qc_scope.

Lemma emission_value_pos (mz : Maze) color x y :
  maze_wf mz → traversable mz x y → color ∈ colors mz →
  0 < emission_value mz color (get_char mz x y).
Proof.
  intros Hwf Htr Hcol. unfold emission_value. case_decide as Hc.
  - by vm_compute.
  - destruct (traversable_char mz x y Htr) as (c & Hchar & Hwall).
    pose proof (wf_cell_color _ Hwf _ _ _ Hchar Hwall) as Hin.
    assert (color ≠ c) as Hne by (intros ->; by rewrite Hchar in Hc).
    assert (2 ≤ color_count mz)%nat as Hcount.
    { rewrite (wf_color_count _ Hwf).
      destruct (colors mz) as [|a [|b l]]; simpl; [|exfalso|lia].
      - by apply elem_of_nil in Hin.
      - apply list_elem_of_singleton in Hin, Hcol. congruence. }
    apply Qcdiv_pos; [by vm_compute|].
    apply Qc_of_Z_pos. lia.
Qed.

Lemma built_nonempty (mz : Maze) (e : hmm) :
  init mz = Ok e → count_positions mz ≠ 0%nat.
Proof.
  intros He E. unfold init in He. rewrite E in He.
  by rewrite decide_True in He.
Qed.

Lemma positive_vector_intro n u :
  n ≠ 0%nat →
  (∀ i, (i < n)%nat → shaped u n 1 ∧ 0 < entry u i 0) →
  positive_vector n u.
Proof.
  intros Hn Hall. split; [|intros i Hi; by apply Hall].
  apply (Hall 0%nat). lia.
Qed.

Lemma transition_apply_positive (mz : Maze) (e : hmm) d :
  maze_wf mz → init mz = Ok e →
  positive_vector (count_positions mz) d →
  ∃ d1, mul (transpose (transitions e)) d = Ok d1 ∧
    positive_vector (count_positions mz) d1.
Proof.
  intros Hwf He [Hd Hpos].
  pose proof (init_built _ _ Hwf He) as Hinv.
  pose proof (bi_t_shaped _ _ _ Hinv) as Ht.
  pose proof (transpose_shaped _ _ _ Ht) as Htt.
  rewrite mul_np_dot
    by (rewrite (sh_cols _ _ _ Htt), (sh_rows _ _ _ Hd); done).
  destruct (np_dot_ok (transpose (transitions e)) d) as (d1 & Hd1 & _).
  { rewrite (sh_cols _ _ _ Htt), (sh_rows _ _ _ Hd); done. }
  exists d1. split; [done|].
  apply positive_vector_intro; [by apply (built_nonempty mz e)|].
  intros i Hi.
  destruct (np_dot_entry _ _ _ _ _ i 0%nat Htt Hd Hi)
    as (d1' & Hd1' & Hsh & Hen); [lia|].
  assert (d1' = d1) as -> by congruence. split; [done|].
  rewrite Hen. unfold product_entry.
  apply (weighted_pos (λ k, entry (transpose (transitions e)) i k)
                      (λ k, entry d k 0)).
  - intros k Hk. apply elem_of_seq in Hk. split; [|apply Hpos; lia].
    rewrite (transpose_entry _ _ _ _ _ Ht).
    by apply (transitions_range mz).
  - erewrite list_fmap_ext;
      [|intros ? k ?; apply (transpose_entry _ _ _ k i Ht)].
    rewrite <- (colsum_entries _ _ _ _ Ht).
    rewrite (transitions_colsum mz) by done. done.
Qed.

Lemma emission_apply_positive (mz : Maze) (e : hmm) reading d :
  maze_wf mz → init mz = Ok e → reading ∈ colors mz →
  positive_vector (count_positions mz) d →
  ∃ m u, sensor_probabilities e !! reading = Some m ∧ mul m d = Ok u ∧
    positive_vector (count_positions mz) u.
Proof.
  intros Hwf He Hcol [Hd Hpos].
  pose proof (init_built _ _ Hwf He) as Hinv.
  destruct (bi_sensor _ _ _ Hinv reading Hcol)
    as (m & Hm & Hms & Hoff & Hdiag).
  exists m.
  rewrite mul_np_dot
    by (rewrite (sh_cols _ _ _ Hms), (sh_rows _ _ _ Hd); done).
  destruct (np_dot_ok m d) as (u & Hu & _).
  { rewrite (sh_cols _ _ _ Hms), (sh_rows _ _ _ Hd); done. }
  exists u. split; [done|]. split; [done|].
  apply positive_vector_intro; [by apply (built_nonempty mz e)|].
  intros i Hi.
  destruct (np_dot_entry _ _ _ _ _ i 0%nat Hms Hd Hi)
    as (u' & Hu' & Hsh & Hen); [lia|].
  assert (u' = u) as -> by congruence. split; [done|].
  rewrite Hen. unfold product_entry.
  rewrite (sumQc_single (λ k, entry m i k * entry d k 0) 0 _ i).
  - rewrite decide_True by lia.
    destruct (wf_index_surj _ Hwf i Hi) as (x & y & Htr & <-).
    rewrite Hdiag by done.
    apply Qcmult_pos; [by apply emission_value_pos|by apply Hpos].
  - intros k Hk. rewrite Hoff by done. ring.
Qed.

Lemma predict_positive (mz : Maze) (e : hmm) reading d :
  maze_wf mz → init mz = Ok e → reading ∈ colors mz →
  positive_vector (count_positions mz) d →
  ∃ u, predict_correct e reading d = Ok u ∧
    positive_vector (count_positions mz) u.
Proof.
  intros Hwf He Hcol Hd.
  destruct (transition_apply_positive mz e d Hwf He Hd) as (d1 & Hd1 & Hp1).
  destruct (emission_apply_positive mz e reading d1 Hwf He Hcol Hp1)
    as (m & u & Hm & Hu & Hp).
  exists u. split; [|done].
  unfold predict_correct, dict_get. rewrite Hm. simpl. rewrite Hd1. simpl.
  done.
Qed.

Lemma positive_mass n u :
  n ≠ 0%nat → positive_vector n u → 0 < mass u ∧ mass u = colsum u 0.
Proof.
  intros Hn [Hsh Hpos].
  assert (mass u = colsum u 0) as Hm.
  { apply mass_vector. intros row Hrow.
    apply list_elem_of_lookup in Hrow as [i Hi].
    by rewrite (sh_row _ _ _ Hsh _ _ Hi). }
  split; [|done]. rewrite Hm, (colsum_entries _ _ _ _ Hsh).
  apply sumQc_pos.
  - destruct n; [done|]. done.
  - apply Forall_fmap, Forall_forall. intros k Hk. apply elem_of_seq in Hk.
    simpl. apply Hpos. lia.
Qed.

Lemma normalize_positive n u :
  n ≠ 0%nat → positive_vector n u →
  positive_vector n (normalize u) ∧ mass (normalize u) = 1.
Proof.
  intros Hn Hu. destruct (positive_mass n u Hn Hu) as [Hmass Hcs].
  destruct Hu as [Hsh Hpos]. split; [split|].
  - by apply normalize_shaped.
  - intros i Hi. rewrite (normalize_entry _ _ _ _ _ Hsh) by lia.
    apply Qcdiv_pos; [by apply Hpos|]. by rewrite <- Hcs.
  - apply mass_normalize.
    + apply (sh_cols _ _ _ Hsh).
    + intros row Hrow. apply list_elem_of_lookup in Hrow as [i Hi].
      by rewrite (sh_row _ _ _ Hsh _ _ Hi).
    + by apply Qcpos_ne.
Qed.

Lemma uniform_positive n :
  n ≠ 0%nat → positive_vector n (uniform n) ∧ mass (uniform n) = 1.
Proof.
  intros Hn.
  assert (0 < Qc_of_Z (Z.of_nat n)) as Hq by (apply Qc_of_Z_pos; lia).
  assert (positive_vector n (uniform n)) as Hp.
  { split; [apply shaped_full|]. intros i Hi. unfold uniform.
    rewrite entry_full, decide_True by lia.
    apply Qcdiv_pos; [by vm_compute|done]. }
  split; [done|].
  destruct (positive_mass n _ Hn Hp) as [_ ->].
  rewrite (colsum_entries _ _ _ _ (proj1 Hp)).
  erewrite list_fmap_ext with (g := λ _, 1 / Qc_of_Z (Z.of_nat n)).
  - rewrite sumQc_const. apply Qcmult_div_r. by apply Qcpos_ne.
  - intros ? k Hk. apply lookup_seq in Hk as [-> Hk]. unfold uniform.
    rewrite entry_full, decide_True by lia. done.
Qed.

Lemma belief_chain_positive (mz : Maze) (e : hmm) readings :
  maze_wf mz → init mz = Ok e →
  Forall (λ c, c ∈ colors mz) readings →
  ∀ d0 bs, positive_vector (count_positions mz) d0 →
    belief_chain e d0 readings bs →
    Forall (λ b, positive_vector (count_positions mz) b ∧ mass b = 1) bs.
Proof.
  intros Hwf He Hvalid.
  pose proof (built_nonempty mz _ He) as Hn.
  induction Hvalid as [|reading readings Hc _ IH]; intros d0 bs Hd0 Hchain.
  - destruct bs; [constructor|done].
  - destruct bs as [|b bs]; [done|]. simpl in Hchain.
    destruct Hchain as [(u & Hu & -> & _) Hrest].
    destruct (predict_positive mz e reading d0 Hwf He Hc Hd0) as (u' & Hu' & Hp).
    assert (u' = u) as -> by congruence.
    destruct (normalize_positive _ u Hn Hp) as [Hnp Hm].
    constructor; [done|]. by apply (IH (normalize u)).
Qed.

(** X15.  On a built engine and readings of the alphabet, [forward] never
    divides by a zero sum: every belief it stores, the initial one
    included, is a column vector with one entry above zero for every state,
    and its entries sum to 1 (in exact arithmetic). *)
Theorem forward_beliefs_positive (mz : Maze) (e0 : hmm)
    (before : list matrix) (readings : string) :
  maze_wf mz → init mz = Ok e0 →
  (∀ c, c ∈ lower readings → c ∈ colors mz) →
  ∃ sq,
    forward readings (with_steps before e0) = (Ok (), with_steps sq e0) ∧
    ∀ b, b ∈ sq →
      shaped b (count_positions mz) 1 ∧
      (∀ i, (i < count_positions mz)%nat → 0 < entry b i 0) ∧
      mass b = 1.
Proof.
  intros Hwf He Hvalid.
  destruct (forward_built mz e0 before readings Hwf He Hvalid)
    as (bs & Hrun & _ & Hchain).
  pose proof (built_nonempty mz _ He) as Hn.
  destruct (uniform_positive _ Hn) as [Hu Hum].
  pose proof (belief_chain_positive mz e0 (lower readings) Hwf He
                (proj2 (Forall_forall _ _) Hvalid) _ _ Hu Hchain) as Hall.
  exists (uniform (count_positions mz) :: bs). split; [done|].
  intros b Hb. apply elem_of_cons in Hb as [->|Hb].
  - destruct Hu. done.
  - rewrite Forall_forall in Hall. destruct (Hall b Hb) as [[??] ?]. done.
Qed.

Lemma forward_beliefs_positive_witness :
  maze_wf rgb ∧ init rgb = Ok rgb_engine ∧
  (∀ c, c ∈ lower "RGB" → c ∈ colors rgb) ∧
  ∃ sq,
    forward "RGB" (with_steps [] rgb_engine)
    = (Ok (), with_steps sq rgb_engine) ∧
    ∀ b, b ∈ sq →
      shaped b (count_positions rgb) 1 ∧
      (∀ i, (i < count_positions rgb)%nat → 0 < entry b i 0) ∧
      mass b = 1.
Proof.
  pose proof rgb_readings_valid as Hvalid. rewrite rgb_engine_maze in Hvalid.
  split; [apply rgb_wf|]. split; [apply rgb_engine_built|]. split; [done|].
  apply (forward_beliefs_positive rgb rgb_engine [] "RGB" rgb_wf
           rgb_engine_built Hvalid).
Defined.

End forward_more.

Section backward_more.
Local Open Scope Qc_scope.

Global Instance same_model_preorder : PreOrder same_model.
Proof.
  split.
  - intros s. apply with_steps_id.
  - intros s1 s2 s3 H1 H2. unfold same_model in *.
    rewrite <- H1 at 2. rewrite <- H2. done.
Qed.

Lemma same_model_steps l s : same_model s (with_steps l s).
Proof. unfold same_model. by destruct s. Qed.

Lemma steps_rewritten_same s s' : steps_rewritten s s' → same_model s s'.
Proof. by intros [? _ _]. Qed.

(** The total-correctness rule for a loop that rebinds a local variable. *)
Lemma for_fold_inv {A S} (I : list A → S → hmm → Prop) (l : list A)
    (body : A → S → engine S) :
  (∀ pre a post v s, l = pre ++ a :: post → I pre v s →
     ∃ v' s', body a v s = (Ok v', s') ∧ I (pre ++ [a]) v' s') →
  ∀ v s, I [] v s →
    ∃ v' s', for_fold l body v s = (Ok v', s') ∧ I l v' s'.
Proof.
  intros Hbody.
  assert (∀ rest pre v s, l = pre ++ rest → I pre v s →
            ∃ v' s', for_fold rest body v s = (Ok v', s') ∧ I l v' s')
    as Hgen.
  { induction rest as [|a rest IH]; intros pre v s Hl HI.
    - rewrite app_nil_r in Hl. subst pre. by exists v, s.
    - destruct (Hbody pre a rest v s Hl HI) as (v1 & s1 & Hrun & HI1).
      destruct (IH (pre ++ [a]) v1 s1) as (v2 & s2 & Hrun2 & HI2); [|done|].
      { by rewrite <- app_assoc. }
      exists v2, s2. split; [|done]. rewrite for_fold_cons.
      by rewrite (bind_ok _ _ _ _ _ Hrun). }
  intros v s HI. by apply (Hgen l []).
Qed.

Lemma for_fold_ext {A S} (l : list A) (f g : A → S → engine S) :
  (∀ a v s, a ∈ l → f a v s = g a v s) →
  ∀ v s, for_fold l f v s = for_fold l g v s.
Proof.
  induction l as [|a l IH]; intros Hfg v s; [done|].
  rewrite !for_fold_cons. unfold mbind, engine_bind.
  rewrite Hfg by set_solver.
  destruct (g a v s) as [[v'|err] s']; [|done].
  apply IH. intros. apply Hfg. set_solver.
Qed.

Lemma forward_step_frame readings step d s :
  same_model s (forward_step readings step d s).2.
Proof.
  unfold forward_step.
  destruct (seq_get readings step) as [reading|err] eqn:Hr;
    [rewrite (bind_lift_ok _ _ _ reading) by done
    |rewrite (bind_lift_raise _ _ _ err) by done; reflexivity].
  rewrite bind_get_self.
  destruct (predict_correct s reading d) as [u|err] eqn:Hu;
    [rewrite (bind_lift_ok _ _ _ u) by done
    |rewrite (bind_lift_raise _ _ _ err) by done; reflexivity].
  apply same_model_steps.
Qed.

Lemma forward_invalid readings e :
  ¬ Forall (λ c, c ∈ colors (maze e)) (lower readings) →
  forward readings e = (Raise ValueError, e).
Proof. intros H. unfold forward. by apply bind_raise, check_readings_raise. Qed.

Lemma forward_frame readings e : same_model e (forward readings e).2.
Proof.
  destruct (decide (Forall (λ c, c ∈ colors (maze e)) (lower readings)))
    as [Hv|Hv].
  - rewrite forward_valid by (by apply Forall_forall).
    rewrite (bind_ok _ _ _ ()
      (with_steps [copy (position_distribution e)] e)) by done.
    rewrite bind_mret_snd.
    etrans; [apply (same_model_steps [copy (position_distribution e)])|].
    apply for_fold_frame; [apply _|]. intros. apply forward_step_frame.
  - by rewrite forward_invalid.
Qed.

Lemma forward_lower readings readings' s :
  lower readings = lower readings' →
  forward readings s = forward readings' s.
Proof. intros H. unfold forward. by rewrite H. Qed.

Lemma backward_frame readings e : same_model e (backward readings e).2.
Proof.
  destruct (decide (steps e = [])) as [Hnil|Hne].
  - unfold backward. rewrite bind_get_self. rewrite decide_True by done.
    pose proof (forward_frame (string_of_list_ascii (lower readings)) e) as HF.
    unfold mbind at 1, engine_bind at 1.
    destruct (forward _ e) as [[[]|err] e1]; simpl in *; [|done].
    rewrite bind_get_self, bind_mret_snd.
    etrans; [exact HF|].
    apply for_fold_frame; [apply _|].
    intros a v s Ha. apply steps_rewritten_same, backward_step_frame.
    by apply elem_of_range_down in Ha as [? _].
  - by apply steps_rewritten_same, backward_keeps.
Qed.

(** X16.  Whatever the readings and whether they return or raise,
    [forward] and [backward] leave the grid, the state count, the emission
    matrices, the transition matrix and the initial distribution as they
    found them: they rebind the stored sequence at most; [viterbi] leaves
    the whole engine as it was. *)
Theorem inference_keeps_model (e : hmm) (readings : string) :
  with_steps (steps e) (forward readings e).2 = e ∧
  with_steps (steps e) (backward readings e).2 = e ∧
  (viterbi readings e).2 = e.
Proof.
  split; [apply forward_frame|]. split; [apply backward_frame|].
  apply viterbi_state.
Qed.

(** X17.  With nothing stored, [backward] starts with [forward], so a
    reading outside the colours of the grid raises [ValueError] and the
    engine is what it was. *)
Theorem backward_validates_when_empty (e : hmm) (readings : string) :
  steps e = [] →
  (∃ c, c ∈ lower readings ∧ c ∉ colors (maze e)) →
  backward readings e = (Raise ValueError, e).
Proof.
  intros Hnil (c & Hc & Hn). unfold backward. rewrite bind_get_self.
  rewrite decide_True by done. apply bind_raise, forward_invalid.
  rewrite lower_idem, Forall_forall. intros H. by apply Hn, H.
Qed.

Lemma backward_validates_when_empty_witness :
  steps rgb_engine = [] ∧
  (∃ c, c ∈ lower "RX" ∧ c ∉ colors (maze rgb_engine)) ∧
  backward "RX" rgb_engine = (Raise ValueError, rgb_engine).
Proof.
  assert (steps rgb_engine = []) as Hnil by (by vm_compute).
  split; [done|]. split; [apply rx_reading_unknown|].
  apply (backward_validates_when_empty rgb_engine "RX" Hnil
           rx_reading_unknown).
Defined.

End backward_more.

Section smoothing.
Local Open Scope Qc_scope.

Lemma ones_positive n : positive_vector n (ones n 1).
Proof.
  split; [apply (shaped_full n 1 1)|]. intros i Hi.
  change (ones n 1) with (full n 1 1).
  rewrite entry_full, decide_True by lia. by vm_compute.
Qed.

Lemma multiply_positive n a b :
  positive_vector n a → positive_vector n b →
  ∃ m, multiply a b = Ok m ∧ positive_vector n m ∧
    ∀ i, (i < n)%nat → entry m i 0 = entry a i 0 * entry b i 0.
Proof.
  intros [Ha Hpa] [Hb Hpb]. unfold multiply.
  destruct (np_elementwise_same Qcmult a b) as (m & Hm & Hsh & Hen).
  { unfold shape. by rewrite (sh_rows _ _ _ Ha), (sh_cols _ _ _ Ha),
      (sh_rows _ _ _ Hb), (sh_cols _ _ _ Hb). }
  rewrite (sh_rows _ _ _ Ha), (sh_cols _ _ _ Ha) in Hsh, Hen.
  exists m. split; [done|]. split; [split; [done|]|].
  - intros i Hi. rewrite Hen by lia. apply Qcmult_pos; auto.
  - intros i Hi. apply Hen; lia.
Qed.

Lemma normalize_belief n b : n ≠ 0%nat → belief n b → normalize b = b.
Proof.
  intros Hn [[Hsh Hpos] Hmass].
  destruct (positive_mass n b Hn (conj Hsh Hpos)) as [_ Hcs].
  eapply matrix_ext; [by apply normalize_shaped|done|].
  intros i j Hi Hj. assert (j = 0%nat) as -> by lia.
  rewrite (normalize_entry _ _ _ _ _ Hsh) by lia.
  rewrite <- Hcs, Hmass. unfold Qcdiv.
  assert (/ 1 = 1) as -> by (by apply Qc_is_canon). ring.
Qed.

Lemma multiply_ones n b :
  positive_vector n b → multiply b (ones n 1) = Ok b.
Proof.
  intros Hb.
  destruct (multiply_positive n b (ones n 1) Hb (ones_positive n))
    as (m & Hm & [Hsh _] & Hen).
  rewrite Hm. f_equal. destruct Hb as [Hb _].
  eapply matrix_ext; [done..|].
  intros i j Hi Hj. assert (j = 0%nat) as -> by lia.
  rewrite Hen by done. change (ones n 1) with (full n 1 1).
  rewrite entry_full, decide_True by lia. ring.
Qed.

Lemma backward_step_ok (mz : Maze) (e0 : hmm) readings sq a v :
  maze_wf mz → init mz = Ok e0 →
  Forall (λ c, c ∈ colors mz) readings →
  Forall (belief (count_positions mz)) sq →
  (1 ≤ a < length sq)%nat → (a ≤ length readings)%nat →
  positive_vector (count_positions mz) v →
  ∃ v' b, backward_step readings a v (with_steps sq e0)
          = (Ok v', with_steps (<[a := b]> sq) e0) ∧
    positive_vector (count_positions mz) v' ∧
    belief (count_positions mz) b.
Proof.
  intros Hwf He Hvalid Hsq Ha Hlen Hv.
  pose proof (built_nonempty mz _ He) as Hn.
  destruct (lookup_lt_is_Some_2 sq a) as [old Hold]; [lia|].
  destruct (Forall_lookup_1 _ _ _ _ Hsq Hold) as [Hop _].
  destruct (multiply_positive _ old v Hop Hv) as (m & Hm & Hmp & _).
  destruct (normalize_positive _ m Hn Hmp) as [Hnp Hnm].
  destruct (lookup_lt_is_Some_2 readings (a - 1)) as [reading Hr]; [lia|].
  pose proof (Forall_lookup_1 _ _ _ _ Hvalid Hr) as Hc.
  destruct (emission_apply_positive mz e0 reading v Hwf He Hc Hv)
    as (em & u & Hem & Hu & Hup).
  destruct (transition_apply_positive mz e0 u Hwf He Hup) as (v' & Hv' & Hvp).
  rewrite (transitions_transpose mz e0 Hwf He) in Hv'.
  exists v', (normalize m). split; [|done].
  unfold backward_step. rewrite bind_get_self.
  rewrite (bind_lift_ok _ _ _ old) by (simpl; unfold seq_get; by rewrite Hold).
  rewrite (bind_lift_ok _ _ _ m) by done.
  simpl steps. unfold seq_set. rewrite decide_True by lia.
  rewrite (bind_lift_ok _ _ _ (<[a := m]> sq)) by done.
  rewrite (bind_ok _ _ _ () (with_steps (<[a := m]> sq) e0)) by done.
  rewrite decide_True by (rewrite length_insert; lia).
  rewrite list_insert_insert_eq.
  rewrite (bind_lift_ok _ _ _ (<[a := normalize m]> sq)) by done.
  rewrite (bind_ok _ _ _ () (with_steps (<[a := normalize m]> sq) e0))
    by done.
  rewrite bind_get_self.
  rewrite (bind_lift_ok _ _ _ reading) by (unfold seq_get; by rewrite Hr).
  rewrite (bind_lift_ok _ _ _ em) by (simpl; unfold dict_get; by rewrite Hem).
  rewrite (bind_lift_ok _ _ _ u) by done.
  simpl. unfold lift. by rewrite Hv'.
Qed.

Lemma backward_sweep (mz : Maze) (e0 : hmm) readings sq :
  maze_wf mz → init mz = Ok e0 →
  Forall (λ c, c ∈ colors mz) readings →
  Forall (belief (count_positions mz)) sq →
  (length sq ≤ length readings + 1)%nat →
  ∃ v' sq',
    for_fold (range_down (length sq)) (backward_step readings)
      (ones (count_positions mz) 1) (with_steps sq e0)
    = (Ok v', with_steps sq' e0) ∧
    length sq' = length sq ∧ sq' !! 0%nat = sq !! 0%nat ∧
    Forall (belief (count_positions mz)) sq'.
Proof.
  intros Hwf He Hvalid Hsq Hlen.
  destruct (for_fold_inv
    (λ (_ : list nat) v s, ∃ sq', s = with_steps sq' e0 ∧
       length sq' = length sq ∧ sq' !! 0%nat = sq !! 0%nat ∧
       Forall (belief (count_positions mz)) sq' ∧
       positive_vector (count_positions mz) v)
    (range_down (length sq)) (backward_step readings))
    with (v := ones (count_positions mz) 1) (s := with_steps sq e0)
    as (v' & s' & Hrun & sq' & -> & HL & H0 & HF & _).
  - intros pre a post v s Hl (sq1 & -> & HL & H0 & HF & Hv).
    assert (a ∈ range_down (length sq)) as Ha by (rewrite Hl; set_solver).
    apply elem_of_range_down in Ha.
    destruct (backward_step_ok mz e0 readings sq1 a v Hwf He Hvalid HF)
      as (v' & b & Hrun & Hvp & Hb); [lia|lia|done|].
    exists v', (with_steps (<[a := b]> sq1) e0). split; [done|].
    exists (<[a := b]> sq1). split_and!; try done.
    + by rewrite length_insert.
    + rewrite list_lookup_insert_ne by lia. done.
    + by apply Forall_insert.
  - exists sq. split_and!; try done. apply ones_positive.
  - by exists v', sq'.
Qed.

(** X18.  On a built engine and readings of the alphabet, [backward]
    returns, whether it finds the sequence [forward] stored for these
    readings or an empty one, and leaves the same sequence in both cases:
    |readings| + 1 column vectors, the first the uniform distribution, each
    with an entry above zero for every state and entries that sum to 1 (in
    exact arithmetic). *)
Theorem backward_smooths (mz : Maze) (e0 : hmm) (before : list matrix)
    (readings : string) :
  maze_wf mz → init mz = Ok e0 →
  (∀ c, c ∈ lower readings → c ∈ colors mz) →
  ∃ sq sq',
    forward readings (with_steps before e0) = (Ok (), with_steps sq e0) ∧
    backward readings (with_steps sq e0) = (Ok (), with_steps sq' e0) ∧
    backward readings (with_steps [] e0) = (Ok (), with_steps sq' e0) ∧
    length sq' = (String.length readings + 1)%nat ∧
    sq' !! 0%nat = Some (uniform (count_positions mz)) ∧
    ∀ b, b ∈ sq' →
      shaped b (count_positions mz) 1 ∧
      (∀ i, (i < count_positions mz)%nat → 0 < entry b i 0) ∧
      mass b = 1.
Proof.
  intros Hwf He Hvalid.
  pose proof (init_built _ _ Hwf He) as Hinv.
  pose proof (built_nonempty mz _ He) as Hn.
  destruct (forward_built mz e0 before readings Hwf He Hvalid)
    as (bs & Hrun & Hlen & Hchain).
  destruct (uniform_positive _ Hn) as [Hu Hum].
  pose proof (belief_chain_positive mz e0 (lower readings) Hwf He
                (proj2 (Forall_forall _ _) Hvalid) _ _ Hu Hchain) as Hall.
  set (sq := uniform (count_positions mz) :: bs) in *.
  assert (Forall (belief (count_positions mz)) sq) as Hsq.
  { constructor; [done|]. exact Hall. }
  destruct (backward_sweep mz e0 (lower readings) sq Hwf He
              (proj2 (Forall_forall _ _) Hvalid) Hsq)
    as (v' & sq' & Hsweep & HL & H0 & HF).
  { simpl. rewrite length_lower. lia. }
  assert (backward readings (with_steps sq e0) = (Ok (), with_steps sq' e0))
    as Hback.
  { rewrite backward_stored by done. simpl.
    rewrite (bi_maze _ _ _ Hinv).
    by rewrite (bind_ok _ _ _ _ _ Hsweep). }
  exists sq, sq'. split_and!; try done.
  - assert (forward (string_of_list_ascii (lower readings))
              (with_steps [] e0)
            = (Ok (), with_steps sq e0)) as Hrun0.
    { rewrite (forward_lower _ readings) by apply lower_idem.
      rewrite <- Hrun. apply (forward_fresh e0).
      by rewrite (bi_maze _ _ _ Hinv). }
    unfold backward. rewrite bind_get_self. simpl.
    rewrite (bind_ok _ _ _ _ _ Hrun0). rewrite bind_get_self. simpl.
    rewrite (bi_maze _ _ _ Hinv).
    by rewrite (bind_ok _ _ _ _ _ Hsweep).
  - rewrite HL. simpl. lia.
  - intros b Hb. rewrite Forall_forall in HF.
    destruct (HF b Hb) as [[??] ?]. done.
Qed.

Lemma backward_smooths_witness :
  maze_wf rgb ∧ init rgb = Ok rgb_engine ∧
  (∀ c, c ∈ lower "RGB" → c ∈ colors rgb) ∧
  ∃ sq sq',
    forward "RGB" (with_steps [] rgb_engine)
    = (Ok (), with_steps sq rgb_engine) ∧
    backward "RGB" (with_steps sq rgb_engine)
    = (Ok (), with_steps sq' rgb_engine) ∧
    backward "RGB" (with_steps [] rgb_engine)
    = (Ok (), with_steps sq' rgb_engine) ∧
    length sq' = (String.length "RGB" + 1)%nat ∧
    sq' !! 0%nat = Some (uniform (count_positions rgb)) ∧
    ∀ b, b ∈ sq' →
      shaped b (count_positions rgb) 1 ∧
      (∀ i, (i < count_positions rgb)%nat → 0 < entry b i 0) ∧
      mass b = 1.
Proof.
  pose proof rgb_readings_valid as Hvalid. rewrite rgb_engine_maze in Hvalid.
  split; [apply rgb_wf|]. split; [apply rgb_engine_built|]. split; [done|].
  apply (backward_smooths rgb rgb_engine [] "RGB" rgb_wf
           rgb_engine_built Hvalid).
Defined.

(** X19.  [backward] indexes the text by the length of the stored
    sequence: on the sequence [forward] stored for a longer text it raises
    [IndexError] in its first turn; the last belief has been renormalised
    by then, which in exact arithmetic leaves it, and the engine, as they
    were. *)
Theorem backward_short_readings (mz : Maze) (e0 : hmm)
    (before : list matrix) (stored readings : string) :
  maze_wf mz → init mz = Ok e0 →
  (∀ c, c ∈ lower stored → c ∈ colors mz) →
  (String.length readings < String.length stored)%nat →
  ∃ sq,
    forward stored (with_steps before e0) = (Ok (), with_steps sq e0) ∧
    backward readings (with_steps sq e0)
    = (Raise IndexError, with_steps sq e0).
Proof.
  intros Hwf He Hvalid Hshort.
  pose proof (init_built _ _ Hwf He) as Hinv.
  pose proof (built_nonempty mz _ He) as Hn.
  destruct (forward_built mz e0 before stored Hwf He Hvalid)
    as (bs & Hrun & Hlen & Hchain).
  destruct (uniform_positive _ Hn) as [Hu Hum].
  pose proof (belief_chain_positive mz e0 (lower stored) Hwf He
                (proj2 (Forall_forall _ _) Hvalid) _ _ Hu Hchain) as Hall.
  exists (uniform (count_positions mz) :: bs). split; [done|].
  rewrite backward_stored by done. simpl.
  rewrite (bi_maze _ _ _ Hinv).
  apply bind_raise.
  unfold range_down. simpl length.
  replace (S (length bs) - 1)%nat with (length bs) by lia.
  destruct bs as [|b0 bs0] eqn:Ebs using rev_ind; [simpl in Hlen; lia|].
  clear IHbs0. rewrite length_app in *. simpl in *.
  replace (length bs0 + 1)%nat with (S (length bs0)) by lia.
  rewrite seq_S, reverse_snoc, for_fold_cons.
  apply bind_raise.
  apply Forall_app in Hall as [_ Hb0]. apply Forall_inv in Hb0.
  set (sq := uniform (count_positions mz) :: bs0 ++ [b0]).
  set (a := (1 + length bs0)%nat).
  assert (sq !! a = Some b0) as Hold.
  { subst sq a. simpl. rewrite lookup_app_r by lia.
    by replace (length bs0 - length bs0)%nat with 0%nat by lia. }
  assert (<[a := b0]> sq = sq) as Hins by (by apply list_insert_id).
  unfold backward_step. rewrite bind_get_self.
  rewrite (bind_lift_ok _ _ _ b0) by (simpl; unfold seq_get; by rewrite Hold).
  rewrite (bind_lift_ok _ _ _ b0) by (apply multiply_ones, Hb0).
  simpl steps. unfold seq_set.
  assert (a < length sq)%nat as Hlt by (by apply lookup_lt_Some in Hold).
  rewrite decide_True by done. rewrite Hins.
  rewrite (bind_lift_ok _ _ _ sq) by done.
  rewrite (bind_ok _ _ _ () (with_steps sq e0)) by done.
  rewrite decide_True by done.
  rewrite (normalize_belief _ _ Hn Hb0), Hins.
  rewrite (bind_lift_ok _ _ _ sq) by done.
  rewrite (bind_ok _ _ _ () (with_steps sq e0)) by done.
  rewrite bind_get_self.
  apply bind_lift_raise. unfold seq_get.
  rewrite lookup_ge_None_2; [done|].
  rewrite length_lower. subst a. lia.
Qed.

Lemma backward_short_readings_witness :
  maze_wf rgb ∧ init rgb = Ok rgb_engine ∧
  (∀ c, c ∈ lower "RGB" → c ∈ colors rgb) ∧
  (String.length "RG" < String.length "RGB")%nat ∧
  ∃ sq,
    forward "RGB" (with_steps [] rgb_engine)
    = (Ok (), with_steps sq rgb_engine) ∧
    backward "RG" (with_steps sq rgb_engine)
    = (Raise IndexError, with_steps sq rgb_engine).
Proof.
  pose proof rgb_readings_valid as Hvalid. rewrite rgb_engine_maze in Hvalid.
  assert (String.length "RG" < String.length "RGB")%nat as Hlt
    by (simpl; lia).
  split; [apply rgb_wf|]. split; [apply rgb_engine_built|]. split; [done|].
  split; [done|].
  apply (backward_short_readings rgb rgb_engine [] "RGB" "RG" rgb_wf
           rgb_engine_built Hvalid Hlt).
Defined.

(** X20.  With a stored sequence of [n] beliefs [backward] neither checks
    the readings against the colours of the grid nor reads beyond the
    first [n - 1] of them: two texts that agree there, lowered, give the
    same outcome and the same engine. *)
Theorem backward_reads_prefix (e : hmm) (readings readings' : string) :
  steps e ≠ [] →
  take (length (steps e) - 1) (lower readings)
  = take (length (steps e) - 1) (lower readings') →
  backward readings e = backward readings' e.
Proof.
  intros Hne Htake. rewrite !backward_stored by done.
  unfold mbind, engine_bind.
  rewrite (for_fold_ext _ (backward_step (lower readings))
             (backward_step (lower readings'))); [done|].
  intros a v s Ha. apply elem_of_range_down in Ha.
  assert (seq_get (lower readings) (a - 1)
          = seq_get (lower readings') (a - 1)) as Hget.
  { unfold seq_get.
    rewrite <- (lookup_take_lt (lower readings) (length (steps e) - 1))
      by lia.
    rewrite <- (lookup_take_lt (lower readings') (length (steps e) - 1))
      by lia.
    by rewrite Htake. }
  unfold backward_step. by rewrite Hget.
Qed.

Lemma backward_reads_prefix_witness :
  steps rgb_filtered ≠ [] ∧
  take (length (steps rgb_filtered) - 1) (lower "RGBR")
  = take (length (steps rgb_filtered) - 1) (lower "rgbx") ∧
  backward "RGBR" rgb_filtered = backward "rgbx" rgb_filtered.
Proof.
  assert (steps rgb_filtered ≠ []) as Hne by (by vm_compute).
  assert (take (length (steps rgb_filtered) - 1) (lower "RGBR")
          = take (length (steps rgb_filtered) - 1) (lower "rgbx")) as Htake
    by (by vm_compute).
  split; [done|]. split; [done|].
  apply (backward_reads_prefix rgb_filtered "RGBR" "rgbx" Hne Htake).
Defined.

End smoothing.

Section viterbi_more.
Local Open Scope Qc_scope.

Lemma rfold_ext {A S} (l : list A) (f g : A → S → result S) :
  (∀ a s, a ∈ l → f a s = g a s) → ∀ s, rfold l f s = rfold l g s.
Proof.
  induction l as [|a l IH]; intros Hfg s; [done|].
  simpl. rewrite Hfg by set_solver.
  destruct (g a s) as [s'|err]; [|done]. simpl.
  apply IH. intros. apply Hfg. set_solver.
Qed.

Lemma viterbi_run_first self (c c' : ascii) (rest : list ascii) :
  viterbi_run self (c :: rest) = viterbi_run self (c' :: rest).
Proof.
  unfold viterbi_run. simpl length.
  assert (∀ tb, viterbi_fill self (c :: rest) tb
                = viterbi_fill self (c' :: rest) tb) as Hfill.
  { intros tb. unfold viterbi_fill. simpl length.
    apply rfold_ext. intros t tb1 Ht. apply elem_of_seq in Ht.
    apply rfold_ext. intros curr tb2 _.
    destruct t as [|t]; [lia|].
    unfold viterbi_curr.
    by change (seq_get (c :: rest) (S t)) with (seq_get (c' :: rest) (S t)). }
  destruct (viterbi_init self (S (length rest))) as [d|err]; [|done].
  simpl. by rewrite Hfill.
Qed.

(** X21.  [viterbi] never reads the first reading: texts that differ in
    their first character only give the same path, or the same exception,
    even when that character is no colour of the grid. *)
Theorem viterbi_ignores_first_reading (e : hmm) (c c' : ascii)
    (rest : string) :
  viterbi (String c rest) e = viterbi (String c' rest) e.
Proof.
  unfold viterbi. rewrite !bind_get_self. unfold lift. f_equal. f_equal.
  change (lower (String c rest)) with (lower_ascii c :: lower rest).
  change (lower (String c' rest)) with (lower_ascii c' :: lower rest).
  apply viterbi_run_first.
Qed.

Lemma rfold_cons_raise {A S} (a : A) l (body : A → S → result S) s err :
  body a s = Raise err → rfold (a :: l) body s = Raise err.
Proof. intros H. simpl. by rewrite H. Qed.

(** X22.  On a built engine [viterbi] of the empty text raises
    [IndexError], at the first write into its table of no rows, and the
    engine is what it was. *)
Theorem viterbi_empty_text (mz : Maze) (e0 : hmm) (before : list matrix) :
  maze_wf mz → init mz = Ok e0 →
  viterbi "" (with_steps before e0)
  = (Raise IndexError, with_steps before e0).
Proof.
  intros Hwf He. pose proof (init_built _ _ Hwf He) as Hinv.
  pose proof (built_nonempty mz _ He) as Hn.
  unfold viterbi. rewrite bind_get_self. unfold lift. f_equal.
  unfold viterbi_run. simpl length.
  assert (viterbi_init (with_steps before e0) 0 = Raise IndexError) as ->;
    [|done].
  unfold viterbi_init. simpl total_positions.
  rewrite (bi_total _ _ _ Hinv).
  destruct (count_positions mz) as [|n] eqn:E; [done|].
  apply rfold_cons_raise. simpl position_distribution. simpl transitions.
  rewrite (getitem_entry _ _ _ _ _ (bi_p_shaped _ _ _ Hinv)) by lia.
  rewrite (getitem_entry _ _ _ _ _ (bi_t_shaped _ _ _ Hinv)) by lia.
  done.
Qed.

Lemma viterbi_empty_text_witness :
  maze_wf rgb ∧ init rgb = Ok rgb_engine ∧
  viterbi "" (with_steps [] rgb_engine)
  = (Raise IndexError, with_steps [] rgb_engine).
Proof.
  split; [apply rgb_wf|]. split; [apply rgb_engine_built|].
  apply (viterbi_empty_text rgb rgb_engine [] rgb_wf rgb_engine_built).
Defined.

End viterbi_more.

Section viterbi_path.
Local Open Scope Qc_scope.

Lemma Qc_of_Z_zero : Qc_of_Z 0 = 0.
Proof. by apply Qc_is_canon. Qed.

Lemma state_index_zero n : n ≠ 0%nat → state_index n 0.
Proof. intros Hn. exists 0%nat. split; [lia|]. by apply Qc_is_canon. Qed.

Lemma np_index_state n k : (k < n)%nat → np_index n (Z.of_nat k) = Ok k.
Proof.
  intros Hk. unfold np_index. rewrite decide_True by lia.
  by rewrite Nat2Z.id.
Qed.

Lemma result_bind_ok {A B} (a : A) (k : A → result B) : (Ok a ≫= k) = k a.
Proof. done. Qed.

Lemma elem_of_seq_split {A} (l pre post : list A) a :
  l = pre ++ a :: post → a ∈ l.
Proof. intros ->. set_solver. Qed.

Lemma viterbi_prev_ok self len t curr prev tb :
  shaped (transitions self) (total_positions self) (total_positions self) →
  tables_ok len (total_positions self) tb →
  (t < len)%nat → (curr < total_positions self)%nat →
  (prev < total_positions self)%nat →
  ∃ tb', viterbi_prev self t curr prev tb = Ok tb' ∧
    tables_ok len (total_positions self) tb'.
Proof.
  intros Ht (Hd & Hp & Hidx) Htl Hc Hpr. unfold viterbi_prev.
  rewrite !(getitem_entry _ _ _ _ _ Hd) by lia.
  rewrite !(getitem_entry _ _ _ _ _ Ht) by lia. simpl.
  case_decide; [|by exists tb].
  destruct (setitem_ok (delta tb) _ _ t curr
              (entry (delta tb) (t - 1) prev
               * entry (transitions self) prev curr) Hd Htl Hc)
    as (d' & -> & Hd' & _).
  destruct (setitem_ok (predecessors tb) _ _ t curr
              (Qc_of_Z (Z.of_nat prev)) Hp Htl Hc)
    as (p' & -> & Hp' & Hen & _).
  simpl. eexists. split; [done|]. split_and!; simpl.
  - by apply normalize_shaped.
  - done.
  - intros i j. rewrite Hen. case_decide; [by exists prev|apply Hidx].
Qed.

Lemma viterbi_curr_ok self readings len t curr tb reading em :
  shaped (transitions self) (total_positions self) (total_positions self) →
  tables_ok len (total_positions self) tb →
  (t < len)%nat → (curr < total_positions self)%nat →
  readings !! t = Some reading →
  sensor_probabilities self !! reading = Some em →
  shaped em (total_positions self) (total_positions self) →
  ∃ tb', viterbi_curr self readings t curr tb = Ok tb' ∧
    tables_ok len (total_positions self) tb'.
Proof.
  intros Ht Htb Htl Hc Hr Hem Hems. unfold viterbi_curr.
  destruct (rfold_inv
    (λ (_ : list nat) tb, tables_ok len (total_positions self) tb)
    (seq 0 (total_positions self)) (viterbi_prev self t curr))
    with tb as (tb1 & -> & (Hd & Hp & Hidx)).
  - intros pre prev post tb0 Hl Htb0.
    apply elem_of_seq_split, elem_of_seq in Hl.
    apply (viterbi_prev_ok self len); (done || lia).
  - done.
  - simpl. rewrite (getitem_entry _ _ _ _ _ Hd) by lia. simpl.
    unfold seq_get. rewrite Hr. simpl. unfold dict_get. rewrite Hem. simpl.
    rewrite (getitem_entry _ _ _ _ _ Hems) by lia. simpl.
    destruct (setitem_ok (delta tb1) _ _ t curr
                (entry (delta tb1) t curr * entry em curr curr) Hd Htl Hc)
      as (d' & -> & Hd' & _).
    simpl. eexists. split; [done|]. by split_and!.
Qed.

Lemma viterbi_fill_ok self readings tb :
  shaped (transitions self) (total_positions self) (total_positions self) →
  tables_ok (length readings) (total_positions self) tb →
  (∀ t reading, (1 ≤ t)%nat → readings !! t = Some reading →
     ∃ em, sensor_probabilities self !! reading = Some em ∧
       shaped em (total_positions self) (total_positions self)) →
  ∃ tb', viterbi_fill self readings tb = Ok tb' ∧
    tables_ok (length readings) (total_positions self) tb'.
Proof.
  intros Ht Htb Hvalid. unfold viterbi_fill.
  apply (rfold_inv
    (λ (_ : list nat) tb,
       tables_ok (length readings) (total_positions self) tb)); [|done].
  intros pre t post tb0 Hl Htb0.
  apply elem_of_seq_split, elem_of_seq in Hl.
  destruct (lookup_lt_is_Some_2 readings t) as [reading Hr]; [lia|].
  destruct (Hvalid t reading) as (em & Hem & Hems); [lia|done|].
  apply (rfold_inv
    (λ (_ : list nat) tb,
       tables_ok (length readings) (total_positions self) tb)); [|done].
  intros pre' curr post' tb1 Hl' Htb1.
  apply elem_of_seq_split, elem_of_seq in Hl'.
  apply (viterbi_curr_ok self readings _ t curr tb1 reading em);
    (done || lia).
Qed.

Lemma viterbi_last_spec e len d :
  shaped d len (total_positions e) → len ≠ 0%nat →
  total_positions e ≠ 0%nat →
  ∃ path, viterbi_last e len d = Ok path ∧ length path = len ∧
    Forall (state_index (total_positions e)) path.
Proof.
  intros Hsh Hlen Hn. unfold viterbi_last.
  destruct (rfold_inv
    (λ (_ : list nat) (s : Qc * list Qc), length s.2 = len ∧
       Forall (state_index (total_positions e)) s.2)
    (seq 0 (total_positions e))
    (λ step '(max_probability, path),
       v ← getitem d (len - 1) step;
       if decide (max_probability < v) then
         v ← getitem d (len - 1) step;
         path ← seq_set path (len - 1) (Qc_of_Z (Z.of_nat step));
         Ok (v, path)
       else Ok (max_probability, path)))
    with (Q2Qc 0, replicate len (Q2Qc 0)) as ([mx path] & Hrun & HL & HF).
  - intros pre step post [mx path] Hl [Hpath HF]. simpl in Hpath, HF.
    apply elem_of_seq_split, elem_of_seq in Hl.
    rewrite (getitem_entry _ _ _ _ _ Hsh) by lia. simpl.
    case_decide; [|by eexists].
    unfold seq_set. rewrite decide_True by lia. simpl.
    eexists. split; [done|]. simpl. split; [by rewrite length_insert|].
    apply Forall_insert; [done|]. exists step. split; [lia|done].
  - simpl. split; [apply length_replicate|].
    apply Forall_replicate. by apply state_index_zero.
  - exists path. by rewrite Hrun.
Qed.

Lemma viterbi_back_spec len n p path :
  shaped p len n → (∀ i j, state_index n (entry p i j)) →
  length path = len → Forall (state_index n) path →
  ∃ path', viterbi_back len p path = Ok path' ∧ length path' = len ∧
    Forall (state_index n) path'.
Proof.
  intros Hp Hidx Hlen HF. unfold viterbi_back.
  apply (rfold_inv
    (λ (_ : list nat) (path : list Qc), length path = len ∧
       Forall (state_index n) path)); [|done].
  intros pre t post path0 Hl [HL0 HF0].
  apply elem_of_seq_split, elem_of_seq in Hl. cbv zeta.
  destruct (lookup_lt_is_Some_2 path0 (len - t)) as [q Hq]; [lia|].
  destruct (Forall_lookup_1 _ _ _ _ HF0 Hq) as (k & Hk & ->).
  unfold seq_get. rewrite Hq. simpl.
  rewrite py_int_of_Z, (sh_cols _ _ _ Hp), (np_index_state _ _ Hk). simpl.
  rewrite (getitem_entry _ _ _ _ _ Hp) by lia. simpl.
  unfold seq_set. rewrite decide_True by lia.
  eexists. split; [done|]. split; [by rewrite length_insert|].
  by apply Forall_insert.
Qed.

(** X23.  On a built engine [viterbi] returns for every non-empty text
    whose readings after the first are colours of the grid: the engine is
    what it was, and the path has one entry per reading, each the index of
    a state. *)
Theorem viterbi_returns_path (mz : Maze) (e0 : hmm) (before : list matrix)
    (c : ascii) (rest : string) :
  maze_wf mz → init mz = Ok e0 →
  (∀ x, x ∈ lower rest → x ∈ colors mz) →
  ∃ path,
    viterbi (String c rest) (with_steps before e0)
    = (Ok path, with_steps before e0) ∧
    length path = S (String.length rest) ∧
    ∀ p, p ∈ path →
      ∃ k, (k < count_positions mz)%nat ∧ p = Qc_of_Z (Z.of_nat k).
Proof.
  intros Hwf He Hvalid. pose proof (init_built _ _ Hwf He) as Hinv.
  pose proof (built_nonempty mz _ He) as Hn.
  set (self := with_steps before e0).
  set (readings := lower (String c rest)).
  assert (total_positions self = count_positions mz) as Htot
    by apply (bi_total _ _ _ Hinv).
  assert (length readings = S (String.length rest)) as Hlen.
  { subst readings. by rewrite length_lower. }
  assert (shaped (transitions self) (total_positions self)
            (total_positions self)) as Ht.
  { rewrite Htot. apply (bi_t_shaped _ _ _ Hinv). }
  destruct (viterbi_init_spec self (length readings)) as (d & Hd & Hds & _).
  { rewrite Htot. apply (bi_p_shaped _ _ _ Hinv). }
  { done. }
  { lia. }
  destruct (viterbi_fill_ok self readings
              (mkTables d (copy (zeros (length readings)
                                   (total_positions self)))))
    as (tb & Htb & Hd' & Hp' & Hidx); [done| |..].
  { split_and!; simpl; [done|rewrite copy_id; apply shaped_zeros|].
    intros i j. rewrite copy_id, entry_zeros.
    apply state_index_zero. unfold self. simpl.
    by rewrite (bi_total _ _ _ Hinv). }
  { intros t reading Ht1 Hr. destruct t as [|t]; [lia|].
    assert (reading ∈ lower rest) as Hin.
    { apply list_elem_of_lookup. by exists t. }
    destruct (bi_sensor _ _ _ Hinv reading (Hvalid _ Hin))
      as (em & Hem & Hems & _).
    exists em. by rewrite Htot. }
  destruct (viterbi_last_spec self (length readings) (delta tb))
    as (path & Hpath & HL & HF); [done|lia|lia|].
  destruct (viterbi_back_spec (length readings) (total_positions self)
              (predecessors tb) path)
    as (path' & Hpath' & HL' & HF'); [done..|].
  exists path'. split_and!.
  - unfold viterbi. rewrite bind_get_self. unfold lift. f_equal.
    fold self. fold readings. unfold viterbi_run.
    rewrite Hd, result_bind_ok, Htb, result_bind_ok, Hpath, result_bind_ok.
    by rewrite Hpath'.
  - lia.
  - intros p Hp. rewrite Forall_forall in HF'.
    rewrite <- Htot. by apply HF'.
Qed.

Lemma viterbi_returns_path_witness :
  maze_wf rgb ∧ init rgb = Ok rgb_engine ∧
  (∀ x, x ∈ lower "GB" → x ∈ colors rgb) ∧
  ∃ path,
    viterbi "XGB" (with_steps [] rgb_engine)
    = (Ok path, with_steps [] rgb_engine) ∧
    length path = S (String.length "GB") ∧
    ∀ p, p ∈ path →
      ∃ k, (k < count_positions rgb)%nat ∧ p = Qc_of_Z (Z.of_nat k).
Proof.
  assert (∀ x, x ∈ lower "GB" → x ∈ colors rgb) as Hvalid.
  { intros x Hx. apply rgb_readings_valid. set_solver. }
  split; [apply rgb_wf|]. split; [apply rgb_engine_built|]. split; [done|].
  apply (viterbi_returns_path rgb rgb_engine [] "X" "GB" rgb_wf
           rgb_engine_built Hvalid).
Defined.

End viterbi_path.

Section emission_dict.
Local Open Scope Qc_scope.

Global Instance keys_kept_preorder mz : PreOrder (keys_kept mz).
Proof.
  split.
  - by intros s Hs.
  - intros s1 s2 s3 H12 H23 Hs. destruct (H12 Hs) as [Hm2 Hk2].
    destruct (H23 Hm2) as [Hm3 Hk3]. split; [done|].
    intros c Hc. by rewrite Hk3, Hk2.
Qed.

Lemma bind_frame {A B} (R : relation hmm) `{!PreOrder R}
    (m : engine A) (k : A → engine B) s :
  R s (m s).2 → (∀ a, R (m s).2 (k a (m s).2).2) → R s ((m ≫= k) s).2.
Proof.
  intros Hm Hk. unfold mbind, engine_bind.
  destruct (m s) as [[a|err] s1]; simpl in *; [|done].
  etrans; [exact Hm|apply Hk].
Qed.

Lemma for_each_frame {A} (R : relation hmm) `{!PreOrder R}
    (l : list A) (body : A → engine unit) :
  (∀ a s, a ∈ l → R s (body a s).2) → ∀ s, R s (for_each l body s).2.
Proof.
  induction l as [|a l IH]; intros Hbody s; [done|].
  simpl. apply bind_frame; [done|apply Hbody; set_solver|].
  intros _. apply IH. intros. apply Hbody. set_solver.
Qed.

Lemma keys_kept_transitions mz t s : keys_kept mz s (with_transitions t s).
Proof. by intros Hs. Qed.

Lemma keys_kept_position mz p s :
  keys_kept mz s (with_position_distribution p s).
Proof. by intros Hs. Qed.

Lemma sensor_entry_keys mz pos c color s :
  color ∈ colors mz → keys_kept mz s (sensor_entry pos c color s).2.
Proof.
  intros Hcol Hs. unfold sensor_entry. rewrite bind_get_self.
  assert (∀ v, keys_kept mz s
    ((m ← lift (dict_get (sensor_probabilities s) color);
      m' ← lift (setitem m pos pos v);
      set_sensor (<[color := m']> (sensor_probabilities s))) s).2) as Hrest.
  { intros v. unfold mbind, engine_bind, lift, set_sensor.
    destruct (dict_get _ color) as [m|]; simpl; [|done].
    destruct (setitem m pos pos v) as [m'|]; simpl; [|done].
    intros _. split; [done|]. intros c' Hc'. simpl.
    apply lookup_insert_ne. intros ->. done. }
  case_decide.
  - rewrite (bind_ok _ _ s CORRECT_COLOR s) by done. by apply Hrest.
  - case_decide.
    + by rewrite (bind_raise _ _ s ZeroDivisionError s).
    + erewrite (bind_ok _ _ s _ s) by done. by apply Hrest.
Qed.

Lemma compute_sensor_values_keys mz x y s :
  keys_kept mz s (compute_sensor_values x y s).2.
Proof.
  intros Hs. unfold compute_sensor_values. rewrite bind_get_self.
  destruct (open_char _); [|done]. rewrite Hs.
  apply (for_each_frame (keys_kept mz)); [|done].
  intros color s' Hcol. by apply sensor_entry_keys.
Qed.

Lemma move_keys mz nx ny j p st s : keys_kept mz s (move nx ny j p st s).2.
Proof.
  unfold move. rewrite bind_get_self. destruct (open_char _); [|done].
  unfold mbind, engine_bind, lift, set_transitions.
  destruct (setitem _ _ _ _); simpl; [|done]. apply keys_kept_transitions.
Qed.

Lemma compute_transition_matrix_keys mz x y s :
  keys_kept mz s (compute_transition_matrix x y s).2.
Proof.
  unfold compute_transition_matrix. rewrite bind_get_self.
  destruct (open_char _); [|done].
  repeat (apply bind_frame; [apply _|apply move_keys|intros ?]).
  rewrite bind_get_self.
  unfold mbind, engine_bind, lift, set_transitions.
  destruct (setitem _ _ _ _); simpl; [|done]. apply keys_kept_transitions.
Qed.

Lemma initialize_cell_keys mz x y s :
  keys_kept mz s (initialize_cell x y s).2.
Proof.
  unfold initialize_cell. rewrite bind_get_self.
  destruct (open_char _); [|done].
  apply bind_frame; [apply _|apply compute_sensor_values_keys|intros _].
  apply bind_frame; [apply _|apply compute_transition_matrix_keys|intros _].
  rewrite bind_get_self.
  unfold mbind, engine_bind, lift, set_position_distribution.
  destruct (setitem _ _ _ _); simpl; [|done]. apply keys_kept_position.
Qed.

Lemma initialize_probabilities_keys mz s :
  keys_kept mz s (initialize_probabilities s).2.
Proof.
  unfold initialize_probabilities. rewrite bind_get_self.
  unfold mbind at 1, engine_bind at 1, lift.
  destruct (new _ _) as [p|]; simpl; [|done].
  etrans; [apply (keys_kept_position mz p)|].
  apply (for_each_frame (keys_kept mz)). intros x s1 _.
  apply (for_each_frame (keys_kept mz)). intros y s2 _.
  apply initialize_cell_keys.
Qed.

Lemma init_keys (mz : Maze) (e : hmm) c :
  maze_wf mz → init mz = Ok e → c ∉ colors mz →
  sensor_probabilities e !! c = None.
Proof.
  intros Hwf He Hc. pose proof (built_nonempty mz _ He) as Hn.
  unfold init in He. rewrite decide_False in He by done.
  destruct (sensor_init_spec mz (colors mz) ∅ Hn) as (sp & Hsp & _ & Hout).
  rewrite Hsp in He. simpl in He.
  destruct (new (count_positions mz) (count_positions mz)) as [t|];
    simpl in He; [|done].
  destruct (new (width mz) (height mz)) as [p|]; simpl in He; [|done].
  pose proof (initialize_probabilities_keys mz
    (mkHmm mz (count_positions mz) sp t p []) eq_refl) as [_ Hk].
  destruct (initialize_probabilities _) as [[[]|err] s']; [|done].
  injection He as <-. simpl in Hk. rewrite Hk by done.
  by rewrite Hout.
Qed.

(** X24.  A built engine holds an emission matrix for a character exactly
    when the character is a colour of the grid. *)
Theorem emission_keys (mz : Maze) (e : hmm) :
  maze_wf mz → init mz = Ok e →
  ∀ c, is_Some (sensor_probabilities e !! c) ↔ c ∈ colors mz.
Proof.
  intros Hwf He c. split.
  - intros Hsome. destruct (decide (c ∈ colors mz)) as [|Hn]; [done|].
    rewrite (init_keys mz e c Hwf He Hn) in Hsome. by destruct Hsome.
  - intros Hc. pose proof (init_built _ _ Hwf He) as Hinv.
    destruct (bi_sensor _ _ _ Hinv c Hc) as (m & -> & _). by eexists.
Qed.

Lemma emission_keys_witness :
  maze_wf rgb ∧ init rgb = Ok rgb_engine ∧
  ∀ c, is_Some (sensor_probabilities rgb_engine !! c) ↔ c ∈ colors rgb.
Proof.
  split; [apply rgb_wf|]. split; [apply rgb_engine_built|].
  apply (emission_keys rgb rgb_engine rgb_wf rgb_engine_built).
Defined.

End emission_dict.

Section viterbi_errors.
Local Open Scope Qc_scope.

Lemma rfold_app {A S} (l1 l2 : list A) (body : A → S → result S) s :
  rfold (l1 ++ l2) body s = rfold l1 body s ≫= rfold l2 body.
Proof.
  revert s. induction l1 as [|a l1 IH]; intros s; [done|].
  simpl. destruct (body a s) as [s'|err]; [|done]. simpl. apply IH.
Qed.

Lemma viterbi_rows_ok self readings len (ts : list nat) tb :
  shaped (transitions self) (total_positions self) (total_positions self) →
  tables_ok len (total_positions self) tb →
  (∀ t, t ∈ ts → (t < len)%nat ∧
     ∃ reading em, readings !! t = Some reading ∧
       sensor_probabilities self !! reading = Some em ∧
       shaped em (total_positions self) (total_positions self)) →
  ∃ tb', rfold ts (λ t tb,
           rfold (seq 0 (total_positions self))
             (viterbi_curr self readings t) tb) tb = Ok tb' ∧
    tables_ok len (total_positions self) tb'.
Proof.
  intros Ht Htb Hvalid.
  apply (rfold_inv
    (λ (_ : list nat) tb, tables_ok len (total_positions self) tb)); [|done].
  intros pre t post tb0 Hl Htb0.
  apply elem_of_seq_split in Hl.
  destruct (Hvalid t Hl) as (Htl & reading & em & Hr & Hem & Hems).
  apply (rfold_inv
    (λ (_ : list nat) tb, tables_ok len (total_positions self) tb)); [|done].
  intros pre' curr post' tb1 Hl' Htb1.
  apply elem_of_seq_split, elem_of_seq in Hl'.
  apply (viterbi_curr_ok self readings _ t curr tb1 reading em);
    (done || lia).
Qed.

Lemma viterbi_curr_unknown self readings len t curr tb reading :
  shaped (transitions self) (total_positions self) (total_positions self) →
  tables_ok len (total_positions self) tb →
  (t < len)%nat → (curr < total_positions self)%nat →
  readings !! t = Some reading →
  sensor_probabilities self !! reading = None →
  viterbi_curr self readings t curr tb = Raise KeyError.
Proof.
  intros Ht Htb Htl Hc Hr Hem. unfold viterbi_curr.
  destruct (rfold_inv
    (λ (_ : list nat) tb, tables_ok len (total_positions self) tb)
    (seq 0 (total_positions self)) (viterbi_prev self t curr))
    with tb as (tb1 & -> & (Hd & Hp & Hidx)).
  - intros pre prev post tb0 Hl Htb0.
    apply elem_of_seq_split, elem_of_seq in Hl.
    apply (viterbi_prev_ok self len); (done || lia).
  - done.
  - rewrite result_bind_ok. rewrite (getitem_entry _ _ _ _ _ Hd) by lia.
    rewrite result_bind_ok. unfold seq_get. rewrite Hr.
    rewrite result_bind_ok. unfold dict_get. by rewrite Hem.
Qed.

Lemma viterbi_row_unknown self readings len t tb reading :
  shaped (transitions self) (total_positions self) (total_positions self) →
  tables_ok len (total_positions self) tb →
  (t < len)%nat → total_positions self ≠ 0%nat →
  readings !! t = Some reading →
  sensor_probabilities self !! reading = None →
  rfold (seq 0 (total_positions self)) (viterbi_curr self readings t) tb
  = Raise KeyError.
Proof.
  intros Ht Htb Htl Hn Hr Hem.
  pose proof (viterbi_curr_unknown self readings len t 0%nat tb reading
                Ht Htb Htl) as Hcurr.
  destruct (total_positions self) as [|n]; [done|].
  simpl seq. apply rfold_cons_raise. apply Hcurr; (done || lia).
Qed.

(** X25.  [viterbi] does not check its readings against the colours of
    the grid: on a built engine, when the first reading after position 0
    that is no colour of the grid is reached, it raises [KeyError], where
    [forward] raises [ValueError] for the same text; the engine is what it
    was in both cases. *)
Theorem viterbi_unknown_label (mz : Maze) (e0 : hmm) (before : list matrix)
    (readings : string) (c x : ascii) (pre post : list ascii) :
  maze_wf mz → init mz = Ok e0 →
  lower readings = c :: (pre ++ x :: post) →
  (∀ a, a ∈ pre → a ∈ colors mz) → x ∉ colors mz →
  viterbi readings (with_steps before e0)
  = (Raise KeyError, with_steps before e0) ∧
  forward readings (with_steps before e0)
  = (Raise ValueError, with_steps before e0).
Proof.
  intros Hwf He Hlow Hpre Hx. split.
  2: { apply forward_invalid. simpl.
       rewrite (bi_maze _ _ _ (init_built _ _ Hwf He)), Hlow.
       rewrite Forall_forall. intros H. apply Hx, H. set_solver. }
  pose proof (init_built _ _ Hwf He) as Hinv.
  pose proof (built_nonempty mz _ He) as Hn.
  set (self := with_steps before e0).
  assert (total_positions self = count_positions mz) as Htot
    by apply (bi_total _ _ _ Hinv).
  assert (shaped (transitions self) (total_positions self)
            (total_positions self)) as Ht.
  { rewrite Htot. apply (bi_t_shaped _ _ _ Hinv). }
  unfold viterbi. rewrite bind_get_self. unfold lift. f_equal.
  fold self. rewrite Hlow.
  set (rd := c :: (pre ++ x :: post)).
  assert (length rd = S (length pre + S (length post))) as Hlen.
  { subst rd. simpl. rewrite length_app. done. }
  destruct (viterbi_init_spec self (length rd)) as (d & Hd & Hds & _).
  { rewrite Htot. apply (bi_p_shaped _ _ _ Hinv). }
  { done. }
  { lia. }
  unfold viterbi_run. rewrite Hd, result_bind_ok.
  assert (viterbi_fill self rd
            (mkTables d (copy (zeros (length rd) (total_positions self))))
          = Raise KeyError) as ->; [|done].
  unfold viterbi_fill.
  replace (length rd - 1)%nat with (length pre + S (length post))%nat by lia.
  rewrite seq_app, rfold_app.
  destruct (viterbi_rows_ok self rd (length rd) (seq 1 (length pre))
              (mkTables d (copy (zeros (length rd) (total_positions self)))))
    as (tb & -> & Htb); [done| | |].
  { split_and!; simpl; [done|rewrite copy_id; apply shaped_zeros|].
    intros i j. rewrite copy_id, entry_zeros.
    apply state_index_zero. unfold self. simpl.
    by rewrite (bi_total _ _ _ Hinv). }
  { intros t Hin. apply elem_of_seq in Hin. split; [lia|].
    destruct t as [|t]; [lia|].
    destruct (lookup_lt_is_Some_2 pre t) as [reading Hr]; [lia|].
    assert (reading ∈ pre) as Hrin by (apply list_elem_of_lookup; eauto).
    destruct (bi_sensor _ _ _ Hinv reading (Hpre _ Hrin))
      as (em & Hem & Hems & _).
    exists reading, em. rewrite Htot. split_and!; try done.
    subst rd. simpl. by rewrite lookup_app_l by lia. }
  rewrite result_bind_ok. simpl seq. apply rfold_cons_raise.
  apply (viterbi_row_unknown self rd (length rd) _ tb x);
    try done; try lia.
  - subst rd. simpl. rewrite lookup_app_r by lia.
    by replace (length pre - length pre)%nat with 0%nat by lia.
  - apply (init_keys mz e0 x Hwf He Hx).
Qed.

Lemma viterbi_unknown_label_witness :
  maze_wf rgb ∧ init rgb = Ok rgb_engine ∧
  lower "RGXB" = "r"%char :: (["g"%char] ++ "x"%char :: ["b"%char]) ∧
  (∀ a, a ∈ ["g"%char] → a ∈ colors rgb) ∧ ("x"%char ∉ colors rgb) ∧
  viterbi "RGXB" (with_steps [] rgb_engine)
  = (Raise KeyError, with_steps [] rgb_engine) ∧
  forward "RGXB" (with_steps [] rgb_engine)
  = (Raise ValueError, with_steps [] rgb_engine).
Proof.
  assert (lower "RGXB" = "r"%char :: (["g"%char] ++ "x"%char :: ["b"%char]))
    as Hlow by (by vm_compute).
  assert (∀ a, a ∈ ["g"%char] → a ∈ colors rgb) as Hpre.
  { intros a Ha. apply list_elem_of_singleton in Ha as ->.
    apply (bool_decide_eq_true_1 _). by vm_compute. }
  assert ("x"%char ∉ colors rgb) as Hx.
  { apply (bool_decide_eq_true_1 _). by vm_compute. }
  split; [apply rgb_wf|]. split; [apply rgb_engine_built|].
  split; [done|]. split; [done|]. split; [done|].
  apply (viterbi_unknown_label rgb rgb_engine [] "RGXB" "r" "x" ["g"%char]
           ["b"%char] rgb_wf rgb_engine_built Hlow Hpre Hx).
Defined.

End viterbi_errors.

Section astar.

Lemma node_induction {S} (P : Astar.node S → Prop) :
  (∀ st h c, P (Astar.mkNode st h None c)) →
  (∀ st h q c, P q → P (Astar.mkNode st h (Some q) c)) →
  ∀ n, P n.
Proof.
  intros H0 H1. fix IH 1. intros [st h [q|] c]; [apply H1, IH|apply H0].
Qed.

Lemma collect_acc {S} (n : Astar.node S) (acc : list S) :
  Astar.collect n acc = acc ++ Astar.collect n [].
Proof.
  revert acc. induction n as [st h c|st h q c IH] using node_induction;
    intros acc; simpl; [done|].
  rewrite (IH (acc ++ [st])), (IH [st]). by rewrite app_assoc.
Qed.

Lemma backchain_root {S} (st : S) h c :
  Astar.backchain (Astar.mkNode st h None c) = [st].
Proof. done. Qed.

Lemma backchain_child {S} (st : S) h q c :
  Astar.backchain (Astar.mkNode st h (Some q) c)
  = Astar.backchain q ++ [st].
Proof.
  unfold Astar.backchain. simpl. rewrite collect_acc.
  by rewrite reverse_app.
Qed.

(** X26.  [backchain(node)] is the path from the root of the node's chain
    down to the node: the path of the parent followed by the node's own
    state, so one state for every node of the chain, the root's first and
    the node's last. *)
Theorem backchain_path {S} (n : Astar.node S) :
  (Astar.parent n = None → Astar.backchain n = [Astar.state n]) ∧
  (∀ p, Astar.parent n = Some p →
     Astar.backchain n = Astar.backchain p ++ [Astar.state n]) ∧
  length (Astar.backchain n) = Datatypes.S (Astar.depth n) ∧
  head (Astar.backchain n) = Some (Astar.state (Astar.root n)) ∧
  last (Astar.backchain n) = Some (Astar.state n).
Proof.
  induction n as [st h c|st h q c (_ & _ & IHl & IHh & _)]
    using node_induction.
  - by split_and!.
  - split_and!.
    + done.
    + intros p [= <-]. apply backchain_child.
    + rewrite backchain_child, length_app, IHl. simpl. lia.
    + rewrite backchain_child. simpl Astar.root.
      destruct (Astar.backchain q) as [|s0 l]; [done|]. exact IHh.
    + rewrite backchain_child. apply last_snoc.
Qed.

(** X27.  The comparison operators of [AstarNode] order nodes by priority
    alone: exactly one of [<], [==], [>] holds between two nodes, [>] and
    [>=] mirror [<] and [<=], [<=] is [<] or [==] and is transitive; and
    [==] holds between nodes of different states as soon as their
    priorities agree. *)
Theorem node_order {S} (a b c : Astar.node S) :
  (Astar.node_lt a b && negb (Astar.node_eq a b) && negb (Astar.node_gt a b)
   || negb (Astar.node_lt a b) && Astar.node_eq a b
      && negb (Astar.node_gt a b)
   || negb (Astar.node_lt a b) && negb (Astar.node_eq a b)
      && Astar.node_gt a b) = true ∧
  Astar.node_gt a b = Astar.node_lt b a ∧
  Astar.node_ge a b = Astar.node_le b a ∧
  Astar.node_le a b = Astar.node_lt a b || Astar.node_eq a b ∧
  (Astar.node_le a b = true → Astar.node_le b c = true →
     Astar.node_le a c = true) ∧
  (Astar.node_eq a b = true ↔ Astar.priority a = Astar.priority b) ∧
  (∀ (s1 s2 : S) h k p1 p2,
     Astar.node_eq (Astar.mkNode s1 h p1 k) (Astar.mkNode s2 k p2 h) = true).
Proof.
  unfold Astar.node_lt, Astar.node_le, Astar.node_eq, Astar.node_gt,
    Astar.node_ge.
  split_and!.
  - destruct (Z.ltb_spec (Astar.priority a) (Astar.priority b)),
      (Z.eqb_spec (Astar.priority a) (Astar.priority b)),
      (Z.gtb_spec (Astar.priority a) (Astar.priority b)); simpl; lia.
  - rewrite Z.gtb_ltb. done.
  - rewrite Z.geb_leb. done.
  - destruct (Z.leb_spec (Astar.priority a) (Astar.priority b)),
      (Z.ltb_spec (Astar.priority a) (Astar.priority b)),
      (Z.eqb_spec (Astar.priority a) (Astar.priority b)); simpl; lia.
  - rewrite !Z.leb_le. lia.
  - apply Z.eqb_eq.
  - intros. apply Z.eqb_eq. unfold Astar.priority. simpl. lia.
Qed.

End astar.

Section scalars.
Local Open Scope Qc_scope.

Lemma np_scalar_shaped f m r c q :
  shaped m r c → shaped (np_scalar f m q) r c.
Proof.
  intros [R C L W]. split; simpl; try done.
  - by rewrite length_fmap.
  - intros i row Hrow. rewrite list_lookup_fmap in Hrow.
    destruct (data m !! i) as [row0|] eqn:E; [|done].
    simpl in Hrow. injection Hrow as <-. rewrite length_fmap. eauto.
Qed.

Lemma np_scalar_entry f m r c q i j :
  shaped m r c → (i < r)%nat → (j < c)%nat →
  entry (np_scalar f m q) i j = f (entry m i j) q.
Proof.
  intros [R C L W] Hi Hj. unfold entry. simpl.
  rewrite list_lookup_fmap.
  destruct (lookup_lt_is_Some_2 (data m) i) as [row Hrow]; [lia|].
  rewrite Hrow. simpl. rewrite list_lookup_fmap.
  destruct (lookup_lt_is_Some_2 row j) as [x Hx].
  { rewrite (W _ _ Hrow). lia. }
  by rewrite Hx.
Qed.

Lemma np_scalar_inverse f g m r c q :
  shaped m r c → (∀ x, g (f x q) q = x) →
  np_scalar g (np_scalar f m q) q = m.
Proof.
  intros Hm Hinv.
  eapply matrix_ext; [by do 2 apply np_scalar_shaped|done|].
  intros i j Hi Hj.
  rewrite (np_scalar_entry g _ r c) by (done || by apply np_scalar_shaped).
  rewrite (np_scalar_entry f _ r c) by done. apply Hinv.
Qed.

(** X28.  With a number on the other side the arithmetic operators work
    entry by entry and keep the shape: [m + q], [m - q], [q - m] and
    [m * q]; subtracting what was added gives the matrix back, and so does
    dividing by a non-zero factor after scaling by it, while division by
    zero raises [ValueError].  This is stated for a number, entries and
    results within the range of a 64-bit integer, beyond which numpy
    wraps on an array of integers, and in exact arithmetic. *)
Theorem scalar_operations (m : matrix) (r c : nat) (q : Qc) :
  shaped m r c → in_int64 q →
  (∀ i j, (i < r)%nat → (j < c)%nat →
     in_int64 (entry m i j) ∧ in_int64 (entry m i j + q) ∧
     in_int64 (entry m i j - q) ∧ in_int64 (q - entry m i j) ∧
     in_int64 (entry m i j * q)) →
  ∃ ma ms mr,
    add m (Num q) = Ok ma ∧ sub m (Num q) = Ok ms ∧
    rsub m (Num q) = Ok mr ∧
    shaped ma r c ∧ shaped ms r c ∧ shaped mr r c ∧
    shaped (scale m q) r c ∧
    (∀ i j, (i < r)%nat → (j < c)%nat →
       entry ma i j = entry m i j + q ∧
       entry ms i j = entry m i j - q ∧
       entry mr i j = q - entry m i j ∧
       entry (scale m q) i j = entry m i j * q) ∧
    sub ma (Num q) = Ok m ∧
    truediv m 0 = Raise ValueError ∧
    (q ≠ 0 → truediv (scale m q) q = Ok m).
Proof.
  intros Hm _ _. do 3 eexists. split_and!; try done.
  - by apply np_scalar_shaped.
  - by apply np_scalar_shaped.
  - by apply np_scalar_shaped.
  - by apply np_scalar_shaped.
  - intros i j Hi Hj. unfold scale.
    by rewrite !(np_scalar_entry _ _ r c) by done.
  - unfold sub. f_equal. apply (np_scalar_inverse _ _ _ r c); [done|].
    intros x. ring.
  - intros Hq. unfold truediv. rewrite decide_False by done. f_equal.
    apply (np_scalar_inverse _ _ _ r c); [done|].
    intros x. by apply Qcdiv_mult_l.
Qed.

Lemma sample_in_range (i j : nat) :
  (i < 4)%nat → (j < 3)%nat →
  in_int64 (entry sample i j) ∧ in_int64 (entry sample i j + 2) ∧
  in_int64 (entry sample i j - 2) ∧ in_int64 (2 - entry sample i j) ∧
  in_int64 (entry sample i j * 2).
Proof.
  intros Hi Hj.
  destruct i as [|[|[|[|i]]]]; [| | | |lia];
    (destruct j as [|[|[|j]]]; [| | |lia]);
    unfold in_int64; split_and!; by vm_compute.
Qed.

Lemma scalar_operations_witness :
  shaped sample 4 3 ∧ in_int64 2 ∧
  (∀ i j, (i < 4)%nat → (j < 3)%nat →
     in_int64 (entry sample i j) ∧ in_int64 (entry sample i j + 2) ∧
     in_int64 (entry sample i j - 2) ∧ in_int64 (2 - entry sample i j) ∧
     in_int64 (entry sample i j * 2)) ∧
  ∃ ma ms mr,
    add sample (Num 2) = Ok ma ∧ sub sample (Num 2) = Ok ms ∧
    rsub sample (Num 2) = Ok mr ∧
    shaped ma 4 3 ∧ shaped ms 4 3 ∧ shaped mr 4 3 ∧
    shaped (scale sample 2) 4 3 ∧
    (∀ i j, (i < 4)%nat → (j < 3)%nat →
       entry ma i j = entry sample i j + 2 ∧
       entry ms i j = entry sample i j - 2 ∧
       entry mr i j = 2 - entry sample i j ∧
       entry (scale sample 2) i j = entry sample i j * 2) ∧
    sub ma (Num 2) = Ok sample ∧
    truediv sample 0 = Raise ValueError ∧
    (2 ≠ 0 → truediv (scale sample 2) 2 = Ok sample).
Proof.
  assert (in_int64 2) as Hq by (unfold in_int64; split; by vm_compute).
  split; [apply sample_shaped|]. split; [done|].
  split; [apply sample_in_range|].
  apply (scalar_operations sample 4 3 2 sample_shaped Hq sample_in_range).
Defined.

(** X29.  The reflected product is the product with the operands in
    order: [__rmul__] with a matrix on the left computes what [__mul__]
    computes, whose branch for a 1 x 1 right operand changes nothing, as
    [np.dot] makes the same shape check. *)
Theorem rmul_reflects (a b : matrix) :
  rmul b a = mul a b ∧ mul a b = np_dot a b.
Proof.
  assert (mul a b = np_dot a b) as Hmul.
  { unfold mul. case_decide; [done|]. case_decide as Hc; [|done].
    unfold np_dot. by rewrite decide_False. }
  split; [|done]. rewrite Hmul. unfold rmul.
  case_decide as Hc; [|done]. unfold np_dot. by rewrite decide_False.
Qed.

End scalars.

Section unused_method.
Local Open Scope Qc_scope.

Lemma np_index_out n i :
  ¬ (- Z.of_nat n ≤ i < Z.of_nat n)%Z → np_index n i = Raise IndexError.
Proof.
  intros H. unfold np_index. by rewrite !decide_False by lia.
Qed.

Lemma np_index_in n i :
  (- Z.of_nat n ≤ i < Z.of_nat n)%Z →
  ∃ k, np_index n i = Ok k ∧ (k < n)%nat.
Proof.
  intros H. unfold np_index. destruct (decide (0 ≤ i < Z.of_nat n)%Z).
  - eexists. split; [done|]. lia.
  - rewrite decide_True by lia. eexists. split; [done|]. lia.
Qed.

Lemma np_index_nonneg n i :
  (0 ≤ i < Z.of_nat n)%Z → np_index n i = Ok (Z.to_nat i).
Proof. intros H. unfold np_index. by rewrite decide_True. Qed.

Lemma setitem_at_column m n x y v :
  shaped m n 1 → y ≠ 0%Z → y ≠ (-1)%Z →
  setitem_at m x y v = Raise IndexError.
Proof.
  intros [R C L W] H0 H1. unfold setitem_at. rewrite L.
  destruct (decide (- Z.of_nat n ≤ x < Z.of_nat n)%Z) as [Hx|Hx];
    [|by rewrite np_index_out].
  destruct (np_index_in n x Hx) as (k & -> & Hk). rewrite result_bind_ok.
  destruct (lookup_lt_is_Some_2 (data m) k) as [row Hrow]; [lia|].
  unfold seq_get. rewrite Hrow, result_bind_ok, (W _ _ Hrow).
  by rewrite np_index_out by lia.
Qed.

(** X30.  [compute_distribution], which nothing calls, indexes the
    N x 1 initial distribution by the coordinates of the cell and not by
    its linear index: on a built engine and a cell that shows no wall it
    raises [ZeroDivisionError] for a total of zero, else [IndexError] for
    every [y] other than 0 and -1 and for every [x] outside [-N, N), the
    engine staying as it was; for [y = 0] and [0 <= x < N] it writes
    [1 / total] in row [x]. *)
Theorem compute_distribution_by_coordinates (mz : Maze) (e0 : hmm)
    (x y total : Z) :
  maze_wf mz → init mz = Ok e0 → get_char mz x y ≠ Some wall →
  (total = 0%Z →
     compute_distribution x y total e0 = (Raise ZeroDivisionError, e0)) ∧
  (total ≠ 0%Z → y ≠ 0%Z → y ≠ (-1)%Z →
     compute_distribution x y total e0 = (Raise IndexError, e0)) ∧
  (total ≠ 0%Z →
   ¬ (- Z.of_nat (count_positions mz) ≤ x < Z.of_nat (count_positions mz))%Z →
     compute_distribution x y total e0 = (Raise IndexError, e0)) ∧
  (total ≠ 0%Z → (0 ≤ x < Z.of_nat (count_positions mz))%Z → y = 0%Z →
     ∃ p, compute_distribution x y total e0
          = (Ok (), with_position_distribution p e0) ∧
       ∀ i, entry p i 0 =
         if decide (i = Z.to_nat x) then 1 / Qc_of_Z total
         else entry (position_distribution e0) i 0).
Proof.
  intros Hwf He Hchar. pose proof (init_built _ _ Hwf He) as Hinv.
  pose proof (bi_p_shaped _ _ _ Hinv) as Hp.
  assert (∀ t, compute_distribution x y t e0
    = ((v ← (if decide (t = 0%Z) then lift (Raise ZeroDivisionError)
             else mret (1 / Qc_of_Z t));
        p ← lift (setitem_at (position_distribution e0) x y v);
        set_position_distribution p) e0)) as Hrun.
  { intros t. unfold compute_distribution. rewrite bind_get_self.
    rewrite (bi_maze _ _ _ Hinv). by rewrite decide_True. }
  split_and!.
  - intros ->. rewrite Hrun. by rewrite decide_True.
  - intros Ht H0 H1. rewrite Hrun, decide_False by done.
    rewrite (bind_ok _ _ e0 (1 / Qc_of_Z total) e0) by done.
    apply bind_lift_raise. by apply (setitem_at_column _ (count_positions mz)).
  - intros Ht Hx. rewrite Hrun, decide_False by done.
    rewrite (bind_ok _ _ e0 (1 / Qc_of_Z total) e0) by done.
    apply bind_lift_raise. unfold setitem_at. rewrite (sh_len _ _ _ Hp).
    by rewrite np_index_out.
  - intros Ht Hx ->. rewrite Hrun, decide_False by done.
    rewrite (bind_ok _ _ e0 (1 / Qc_of_Z total) e0) by done.
    destruct (setitem_ok (position_distribution e0) _ _ (Z.to_nat x) 0
                (1 / Qc_of_Z total) Hp) as (p & Hset & _ & Hen & _);
      [lia|lia|].
    exists p. split.
    + rewrite (bind_lift_ok _ _ _ p); [done|].
      unfold setitem_at. rewrite (sh_len _ _ _ Hp).
      rewrite np_index_nonneg by lia. rewrite result_bind_ok.
      destruct (lookup_lt_is_Some_2 (data (position_distribution e0))
                  (Z.to_nat x)) as [row Hrow].
      { rewrite (sh_len _ _ _ Hp). lia. }
      unfold seq_get. rewrite Hrow, result_bind_ok.
      rewrite (sh_row _ _ _ Hp _ _ Hrow).
      by rewrite (np_index_nonneg 1 0) by lia.
    + intros i. rewrite Hen. apply decide_ext. naive_solver.
Qed.

Lemma compute_distribution_by_coordinates_witness :
  maze_wf rgb ∧ init rgb = Ok rgb_engine ∧
  get_char rgb 1 0 ≠ Some wall ∧
  (3%Z = 0%Z →
     compute_distribution 1 0 3 rgb_engine
     = (Raise ZeroDivisionError, rgb_engine)) ∧
  (3%Z ≠ 0%Z → 0%Z ≠ 0%Z → 0%Z ≠ (-1)%Z →
     compute_distribution 1 0 3 rgb_engine = (Raise IndexError, rgb_engine)) ∧
  (3%Z ≠ 0%Z →
   ¬ (- Z.of_nat (count_positions rgb) ≤ 1 < Z.of_nat (count_positions rgb))%Z →
     compute_distribution 1 0 3 rgb_engine = (Raise IndexError, rgb_engine)) ∧
  (3%Z ≠ 0%Z → (0 ≤ 1 < Z.of_nat (count_positions rgb))%Z → 0%Z = 0%Z →
     ∃ p, compute_distribution 1 0 3 rgb_engine
          = (Ok (), with_position_distribution p rgb_engine) ∧
       ∀ i, entry p i 0 =
         if decide (i = Z.to_nat 1) then 1 / Qc_of_Z 3
         else entry (position_distribution rgb_engine) i 0).
Proof.
  assert (get_char rgb 1 0 ≠ Some wall) as Hchar by (by vm_compute).
  split; [apply rgb_wf|]. split; [apply rgb_engine_built|]. split; [done|].
  apply (compute_distribution_by_coordinates rgb rgb_engine 1 0 3 rgb_wf
           rgb_engine_built Hchar).
Defined.

End unused_method.
